(** * halite_ranking: the Plackett-Luce estimator of [pl_ranking.py]

    A shallow embedding of [plackett_luce], [normalize_ratings],
    [check_games] and of the augmentation and post-processing steps of
    [main], with the properties the design document states about them.

    Modelling choices.
    - A Python [dict] keeps insertion order and has unique keys: it is an
      association list ([dict V]); [dict_set] overwrites in place or appends.
    - The keys of this program are the strings ["name (id)"] built by [main]
      and the integer [0] of the fake player: [pykey].
    - A Python [set] iterates in an order the language does not fix: the
      class [SetOrder] stands for any such order.
    - In the estimator and in the validator Python floats are read as
      exact rationals ([Qc], Leibniz equality); a division by zero raises
      [ZeroDivisionError] as in Python. Rationals neither round nor
      overflow: what is stated over them is the structure of the
      computation (which terms are summed, which keys are produced, when the
      loop stops), not the value a double ends with.
    - [normalize_ratings] is also read over the doubles themselves (module
      [Binary64]: IEEE 754 binary64, round to nearest even, the kernel's
      primitive floats), since what its results sum to depends on rounding
      and overflow.
    - Exceptions are the [Raise] case of [result]; [print] appends an
      [event] to the output.
    - The [while] loop takes a fuel: [Running] is the outcome of a loop that
      has not stopped within it. *)

From Stdlib Require Import String List ZArith QArith Qcanon Bool Lia Lqa Permutation.
From Stdlib Require Import Sorted DecimalString.
From Stdlib Require PrimFloat.
Import ListNotations.
Local Open Scope Z_scope.

(** ** Keys and dictionaries *)

Inductive pykey : Type :=
| KInt (n : Z)
| KStr (s : string).

Definition pykey_eq_dec (a b : pykey) : {a = b} + {a <> b}.
Proof. decide equality; [apply Z.eq_dec | apply string_dec]. Defined.

(** Python truthiness of a key: [0] and the empty string are falsy. *)
Definition truthy (k : pykey) : bool :=
  match k with
  | KInt n => negb (n =? 0)
  | KStr s => negb (String.eqb s EmptyString)
  end.

Definition dict (V : Type) : Type := list (pykey * V).

Section Dict.
Context {V : Type}.

Fixpoint dict_get (k : pykey) (d : dict V) : option V :=
  match d with
  | [] => None
  | (k', v) :: d' => if pykey_eq_dec k k' then Some v else dict_get k d'
  end.

(** [d[k] = v] *)
Fixpoint dict_set (d : dict V) (k : pykey) (v : V) : dict V :=
  match d with
  | [] => [(k, v)]
  | (k', v') :: d' =>
      if pykey_eq_dec k k' then (k', v) :: d' else (k', v') :: dict_set d' k v
  end.

(** [del d[k]] on a dictionary that has the key. *)
Fixpoint dict_del (d : dict V) (k : pykey) : dict V :=
  match d with
  | [] => []
  | (k', v') :: d' =>
      if pykey_eq_dec k k' then d' else (k', v') :: dict_del d' k
  end.

Definition keys (d : dict V) : list pykey := map fst d.
Definition values (d : dict V) : list V := map snd d.
Definition contains (k : pykey) (d : dict V) : bool :=
  match dict_get k d with Some _ => true | None => false end.

(** A dictionary literal / comprehension: later bindings of a key win. *)
Definition dict_of (l : list (pykey * V)) : dict V :=
  fold_left (fun d kv => dict_set d (fst kv) (snd kv)) l [].
End Dict.

(** A ranking maps each participant to its finish position. *)
Definition ranking : Type := dict Z.

(** ** Sets *)

(** [set_list l] is the order in which Python iterates over [set(l)]. *)
Class SetOrder : Type := {
  set_list : list pykey -> list pykey;
  set_list_NoDup : forall l, NoDup (set_list l);
  set_list_In : forall l x, In x (set_list l) <-> In x l
}.

(** One such order: first occurrence. *)
Fixpoint first_occurrences (seen l : list pykey) : list pykey :=
  match l with
  | [] => []
  | x :: l' =>
      if in_dec pykey_eq_dec x seen then first_occurrences seen l'
      else x :: first_occurrences (x :: seen) l'
  end.

(** ** Exceptions *)

Inductive exn : Type :=
| ZeroDivisionError
| KeyError (k : pykey)
| PlayerNeither (player : pykey).   (* "Player with neither win or loss" *)

Inductive result (A : Type) : Type :=
| Ok (a : A)
| Raise (e : exn).
Arguments Ok {A} a.
Arguments Raise {A} e.

Definition bind {A B : Type} (m : result A) (f : A -> result B) : result B :=
  match m with
  | Ok a => f a
  | Raise e => Raise e
  end.

Notation "x <- m ;; k" := (bind m (fun x => k))
  (at level 61, m at next level, right associativity).

Fixpoint mapM {A B : Type} (f : A -> result B) (l : list A) : result (list B) :=
  match l with
  | [] => Ok []
  | a :: l' => b <- f a ;; bs <- mapM f l' ;; Ok (b :: bs)
  end.

(** [d[k]], raising [KeyError]. *)
Definition dict_item {V : Type} (d : dict V) (k : pykey) : result V :=
  match dict_get k d with
  | Some v => Ok v
  | None => Raise (KeyError k)
  end.

(** ** Numbers *)

Abbreviation num := Qc (only parsing).

Definition of_Z (z : Z) : num := Q2Qc (inject_Z z).
Definition of_nat (n : nat) : num := of_Z (Z.of_nat n).

(** [a / b] *)
Definition pydiv (a b : num) : result num :=
  if Qc_eq_dec b 0 then Raise ZeroDivisionError else Ok (a / b)%Qc.

(** [a > b] *)
Definition gtb (a b : num) : bool :=
  if Qclt_le_dec b a then true else false.

(** [sum(l)]: a left fold from [0]. *)
Definition pysum (l : list num) : num := fold_left Qcplus l 0%Qc.

(** [sum(g)] for a generator whose items may raise. *)
Definition sumM {A : Type} (f : A -> result num) (l : list A) : result num :=
  xs <- mapM f l ;; Ok (pysum xs).

(** The tolerance [1e-9] of the loop. *)
Definition tolerance : num := Q2Qc (1 # 1000000000).

(** ** [plackett_luce] *)

(** [Counter(l)]: occurrences, in first-occurrence order; a missing key
    reads as [0]. *)
Definition Counter (l : list pykey) : dict Z :=
  fold_left
    (fun c k => dict_set c k (match dict_get k c with Some n => n + 1 | None => 1 end))
    l [].

Definition counter_get (c : dict Z) (k : pykey) : Z :=
  match dict_get k c with Some n => n | None => 0 end.

(** Output of the estimator. *)
Inductive event : Type :=
| Progress (iteration : Z) (gdiff : num)      (* "\r%d gd=%.2e" *)
| Newline                                     (* print() *)
| Increased (gdiff pgdiff : num).             (* "Gamma difference increased, ..." *)

Record pl_state : Type := {
  gammas : dict num;
  _gammas : dict num;
  gdiff : num;
  pgdiff : num;
  iteration : Z;
  out : list event
}.

Inductive outcome (A : Type) : Type :=
| Returned (a : A)
| Raised (e : exn)
| Running.           (* the loop has not stopped within the given fuel *)
Arguments Returned {A} a.
Arguments Raised {A} e.
Arguments Running {A}.

Section Estimator.
Context {SO : SetOrder}.

(** Line 18. *)
Definition players_of (rankings : list ranking) : list pykey :=
  set_list (flat_map keys rankings).

(** Line 19: the names counted, one per (ranking, participant) with
    [finish < len(ranking)]. *)
Definition ws_names (rankings : list ranking) : list pykey :=
  flat_map
    (fun r : ranking =>
       map fst (filter (fun nf => snd nf <? Z.of_nat (length r)) r))
    rankings.

Definition ws_of (rankings : list ranking) : dict Z :=
  Counter (ws_names rankings).

(** Line 20. *)
Definition initial_gammas (players : list pykey) : result (dict num) :=
  mapM (fun p => g <- pydiv 1%Qc (of_nat (length players)) ;; Ok (p, g)) players.

(** Line 26, innermost sum:
    [sum(gammas[finisher] for finisher in ranking if ranking[finisher] >= place)];
    [ranking[finisher]] is the position stored with the key iterated. *)
Definition remaining (g : dict num) (r : ranking) (place : Z) : result num :=
  sumM (fun fp => dict_item g (fst fp))
       (filter (fun fp => snd fp >=? place) r).

(** Line 26, one term:
    [0 if player not in ranking or ranking[player] < place else 1 / sum(...)]. *)
Definition term (g : dict num) (player : pykey) (r : ranking) (place : Z)
  : result num :=
  match dict_get player r with
  | None => Ok 0%Qc
  | Some pos =>
      if pos <? place then Ok 0%Qc
      else s <- remaining g r place ;; pydiv 1%Qc s
  end.

(** Line 26, the value stored for [player]. *)
Definition denom (g : dict num) (rankings : list ranking) (player : pykey)
  : result num :=
  sumM (fun r => sumM (term g player r) (values r)) rankings.

Definition denoms_of (g : dict num) (rankings : list ranking)
           (players : list pykey) : result (dict num) :=
  mapM (fun p => d <- denom g rankings p ;; Ok (p, d)) players.

(** Line 28. *)
Definition update (ws : dict Z) (denoms : dict num) (players : list pykey)
  : result (dict num) :=
  mapM (fun p => g <- (d <- dict_item denoms p ;;
                       pydiv (of_Z (counter_get ws p)) d) ;;
                 Ok (p, g))
       players.

(** Line 30. *)
Definition gdiff_of (new old : dict num) : result num :=
  sumM (fun pg => o <- dict_item old (fst pg) ;;
                  Ok ((snd pg - o) * (snd pg - o))%Qc)
       new.

(** Lines 26-35: one execution of the loop body. *)
Definition iterate (rankings : list ranking) (players : list pykey)
           (ws : dict Z) (st : pl_state) : result pl_state :=
  denoms <- denoms_of (gammas st) rankings players ;;
  new <- update ws denoms players ;;
  gd <- gdiff_of new (gammas st) ;;
  let it := iteration st + 1 in
  let printed := out st ++ [Progress it gd] in
  Ok {| gammas := new;
        _gammas := gammas st;
        gdiff := gd;
        pgdiff := gdiff st;
        iteration := it;
        out := if gtb gd (gdiff st)
               then printed ++ [Newline; Increased gd (gdiff st)]
               else printed |}.

(** Line 25: [while gdiff > 1e-9]. *)
Fixpoint pl_loop (fuel : nat) (rankings : list ranking) (players : list pykey)
         (ws : dict Z) (st : pl_state) : outcome pl_state :=
  if gtb (gdiff st) tolerance then
    match fuel with
    | O => Running
    | S fuel' =>
        match iterate rankings players ws st with
        | Ok st' => pl_loop fuel' rankings players ws st'
        | Raise e => Raised e
        end
    end
  else Returned st.

(** Lines 18-24. *)
Definition initial_state (players : list pykey) : result pl_state :=
  g <- initial_gammas players ;;
  Ok {| gammas := g;
        _gammas := map (fun p => (p, 0%Qc)) players;
        gdiff := of_Z 10;
        pgdiff := of_Z 100;
        iteration := 0;
        out := [] |}.

(** The whole function: the final state keeps the output; the value
    returned is its [gammas]. *)
Definition plackett_luce_run (fuel : nat) (rankings : list ranking)
  : outcome pl_state :=
  let players := players_of rankings in
  let ws := ws_of rankings in
  match initial_state players with
  | Raise e => Raised e
  | Ok st0 =>
      match pl_loop fuel rankings players ws st0 with
      | Returned st => Returned {| gammas := gammas st;
                                   _gammas := _gammas st;
                                   gdiff := gdiff st;
                                   pgdiff := pgdiff st;
                                   iteration := iteration st;
                                   out := out st ++ [Newline] |}
      | other => other
      end
  end.

Definition plackett_luce (fuel : nat) (rankings : list ranking)
  : outcome (dict num) :=
  match plackett_luce_run fuel rankings with
  | Returned st => Returned (gammas st)
  | Raised e => Raised e
  | Running => Running
  end.
End Estimator.

(** ** [normalize_ratings] *)

Definition normalize_ratings (ratings : list (pykey * num))
  : result (list (pykey * num)) :=
  let normalization_constant := pysum (map snd ratings) in
  mapM (fun pv => v <- pydiv (snd pv) normalization_constant ;; Ok (fst pv, v))
       ratings.

(** ** [check_games] *)

(** [pc[user]] is the list [[w, l]]: [w] is 1 while no win of [user] has
    been seen, [l] is 1 while no loss has been seen. *)
Definition flags : Type := (Z * Z)%type.

(** [pc.setdefault(user, [1, 1])[0] = 0] *)
Definition mark_win (pc : dict flags) (user : pykey) : dict flags :=
  match dict_get user pc with
  | Some wl => dict_set pc user (0, snd wl)
  | None => dict_set pc user (0, 1)
  end.

(** [pc.setdefault(user, [1, 1])[1] = 0] *)
Definition mark_loss (pc : dict flags) (user : pykey) : dict flags :=
  match dict_get user pc with
  | Some wl => dict_set pc user (fst wl, 0)
  | None => dict_set pc user (1, 0)
  end.

Record scan : Type := {
  pc : dict flags;
  max_rank : Z;
  max_user : option pykey
}.

(** Lines 51-59: the body of the inner loop. *)
Definition visit (s : scan) (ur : pykey * Z) : scan :=
  let user := fst ur in
  let rank := snd ur in
  let pc1 := if rank >? 1 then mark_loss (pc s) user else pc s in
  if rank >? max_rank s then
    {| pc := match max_user s with
             | Some m => if truthy m then mark_win pc1 m else pc1
             | None => pc1
             end;
       max_rank := rank;
       max_user := Some user |}
  else if rank <? max_rank s then
    {| pc := mark_win pc1 user; max_rank := max_rank s; max_user := max_user s |}
  else
    {| pc := pc1; max_rank := max_rank s; max_user := max_user s |}.

(** Lines 48-59: one game. *)
Definition scan_game (pc0 : dict flags) (game : ranking) : scan :=
  fold_left visit game {| pc := pc0; max_rank := 0; max_user := None |}.

(** Lines 46-59. *)
Definition scan_games (games : list ranking) : dict flags :=
  fold_left (fun pc0 game => pc (scan_game pc0 game)) games [].

(** Line 60. *)
Definition missing_wl (pc0 : dict flags) : Z :=
  fold_left Z.add (map (fun e => fst (snd e) + snd (snd e)) pc0) 0.

Inductive report : Type :=
| NoWin (player : pykey)      (* "Player %s has no win" *)
| NoLoss (player : pykey).    (* "Player %s has no loss" *)

Record classified : Type := {
  winners : list pykey;
  losers : list pykey;
  printed : list report
}.

(** Lines 64-74. *)
Fixpoint classify (items : dict flags) (acc : classified) : result classified :=
  match items with
  | [] => Ok acc
  | (player, (win, loss)) :: rest =>
      if (win =? 0) && (loss =? 0) then classify rest acc
      else if negb (win =? 0) && negb (loss =? 0) then Raise (PlayerNeither player)
      else if negb (win =? 0) then
        classify rest {| winners := winners acc;
                         losers := losers acc ++ [player];
                         printed := printed acc ++ [NoWin player] |}
      else
        classify rest {| winners := winners acc ++ [player];
                         losers := losers acc;
                         printed := printed acc ++ [NoLoss player] |}
  end.

(** What [check_games] returns: [(None, None)] or two lists. *)
Inductive verdict : Type :=
| NoneNone
| Lists (winners losers : list pykey).

Definition check_games_run (games : list ranking)
  : result (verdict * list report) :=
  let pc0 := scan_games games in
  if missing_wl pc0 >? 0 then
    c <- classify pc0 {| winners := []; losers := []; printed := [] |} ;;
    Ok (Lists (winners c) (losers c), printed c)
  else Ok (NoneNone, []).

Definition check_games (games : list ranking) : result verdict :=
  r <- check_games_run games ;; Ok (fst r).

(** ** [main]: augmentation and post-processing *)

(** The fake player. *)
Definition anchor : pykey := KInt 0.

(** Lines 130-133. *)
Definition fake_games (players : list pykey) : list ranking :=
  flat_map
    (fun p => [dict_of [(anchor, 1); (p, 2)]; dict_of [(anchor, 2); (p, 1)]])
    players.

(** Lines 126-135. *)
Definition augment {SO : SetOrder} (game_results : list ranking) : list ranking :=
  game_results ++ fake_games (set_list (flat_map keys game_results)).

(** [ratings.sort(key=lambda x: -x[1])]: a stable sort, largest value first. *)
Fixpoint insert_desc (x : pykey * num) (l : list (pykey * num))
  : list (pykey * num) :=
  match l with
  | [] => [x]
  | y :: l' =>
      if gtb (snd y) (snd x) then y :: insert_desc x l' else x :: y :: l'
  end.

Definition sort_desc (l : list (pykey * num)) : list (pykey * num) :=
  fold_right insert_desc [] l.

(** The cut-off of [ratings[:20]]. *)
Definition cutoff : nat := 20.

(** Lines 139-143. *)
Definition post_process (ratings : dict num) : result (list (pykey * num)) :=
  _ <- dict_item ratings anchor ;;
  normalize_ratings (firstn cutoff (sort_desc (dict_del ratings anchor))).

(** Lines 119-143: the validator's report, the augmentation, the estimator
    and the post-processing, from the rankings built at line 115. *)
Definition main_ratings {SO : SetOrder} (fuel : nat) (game_results : list ranking)
  : outcome (list report * list (pykey * num)) :=
  match check_games_run game_results with
  | Raise e => Raised e
  | Ok checked =>
      match plackett_luce fuel (augment game_results) with
      | Returned ratings =>
          match post_process ratings with
          | Ok top => Returned (snd checked, top)
          | Raise e => Raised e
          end
      | Raised e => Raised e
      | Running => Running
      end
  end.

(** ** [normalize_ratings] over binary64 *)

Module Binary64.
Import PrimFloat.

(** [sum(l)]: a left fold from [0], each addition rounded. *)
Definition pysum (l : list float) : float := fold_left add l 0%float.

(** [a / b]: raises when [b == 0.0] ([-0.0] included); a NaN or infinite
    divisor does not raise. *)
Definition pydiv (a b : float) : result float :=
  if (b =? 0)%float then Raise ZeroDivisionError else Ok (a / b)%float.

(** Lines 39-41. *)
Definition normalize_ratings (ratings : list (pykey * float))
  : result (list (pykey * float)) :=
  let normalization_constant := pysum (map snd ratings) in
  mapM (fun pv => v <- pydiv (snd pv) normalization_constant ;; Ok (fst pv, v))
       ratings.




(** Values whose exact sum is 1 and whose sum in doubles is 0. *)
Definition absorbed : list (pykey * float) :=
  [(KStr "A", 1e16%float); (KStr "B", 1%float); (KStr "C", (-1e16)%float)].

(** Values whose exact sum is 0 and whose sum in doubles is -1. *)
Definition absorbed_then_one : list (pykey * float) :=
  absorbed ++ [(KStr "D", (-1)%float)].
End Binary64.

(** ** [filter_in_players], [filter_out_players] *)

(** [set(game.keys()) & set(players)] is a non-empty set: some participant
    of [game] is one of [players]. *)
Definition meets (players : list pykey) (game : ranking) : bool :=
  existsb (fun k => if in_dec pykey_eq_dec k players then true else false)
          (keys game).

(** Lines 78-85. *)
Definition filter_in_players (games : list ranking) (players : list pykey)
  : list ranking :=
  fold_left
    (fun filtered game => if meets players game then filtered ++ [game] else filtered)
    games [].

(** Lines 87-94. *)
Definition filter_out_players (games : list ranking) (players : list pykey)
  : list ranking :=
  fold_left
    (fun filtered game =>
       if negb (meets players game) then filtered ++ [game] else filtered)
    games [].

(** ** [load_games] and the rankings [main] builds *)

(** The records read from the files: JSON scalars are integers or strings. *)
Record user_record : Type := {
  username : pykey;
  userID : pykey;
  rank : pykey
}.

Record game_record : Type := {
  gameID : pykey;
  users : list user_record
}.

Inductive load_event : Type :=
| Reading (filename : string)      (* "Reading %s" *)
| GamesLoaded (n : nat).           (* "%d games loaded." *)

(** A stable sort by an integer key, smallest first: [list.sort(key=...)]
    on the pairs (key, item). *)
Fixpoint insert_by_key {A : Type} (x : Z * A) (l : list (Z * A)) : list (Z * A) :=
  match l with
  | [] => [x]
  | y :: l' => if fst y <? fst x then y :: insert_by_key x l' else x :: y :: l'
  end.

Definition sort_by_key {A : Type} (l : list (Z * A)) : list (Z * A) :=
  fold_right insert_by_key [] l.

(** Lines 102-108: the first game of each [gameID], in reading order; the
    state is [(gids, uniques)]. *)
Definition unique_games (games : list game_record) : list game_record :=
  snd (fold_left
         (fun (st : list pykey * list game_record) g =>
            if in_dec pykey_eq_dec (gameID g) (fst st) then st
            else (gameID g :: fst st, snd st ++ [g]))
         games ([], [])).

Section Loader.
(** Python's [int(x)] ([None] when it raises) and ["%s" % x]. *)
Variable py_int : pykey -> option Z.
Variable py_str : pykey -> string.

(** The sort keys of line 109, or [None] when an [int(x['gameID'])] raises. *)
Fixpoint keyed_games (games : list game_record) : option (list (Z * game_record)) :=
  match games with
  | [] => Some []
  | g :: rest =>
      match py_int (gameID g) with
      | None => None
      | Some k =>
          match keyed_games rest with
          | None => None
          | Some l => Some ((k, g) :: l)
          end
      end
  end.

(** Lines 96-111, on the parsed content of each file: what is printed, and
    the games returned ([None] when the sort raises). *)
Definition load_games (files : list (string * list game_record))
  : list load_event * option (list game_record) :=
  let games := flat_map snd files in
  let reading := map (fun f => Reading (fst f)) files in
  match keyed_games (unique_games games) with
  | None => (reading, None)
  | Some keyed =>
      let sorted := map snd (sort_by_key keyed) in
      (reading ++ [GamesLoaded (length sorted)], Some sorted)
  end.

(** Line 115: the key ["%s (%s)" % (username, userID)]. *)
Definition user_key (u : user_record) : pykey :=
  KStr (py_str (username u) ++ " (" ++ py_str (userID u) ++ ")")%string.

(** Lines 115-116: the dictionary comprehension over the users of a game
    ([None] when an [int(u['rank'])] raises). *)
Definition game_ranking (g : game_record) : option ranking :=
  fold_left
    (fun acc u =>
       match acc with
       | None => None
       | Some d =>
           match py_int (rank u) with
           | None => None
           | Some r => Some (dict_set d (user_key u) r)
           end
       end)
    (users g) (Some []).

(** Lines 115-117. *)
Fixpoint game_results_of (games : list game_record) : option (list ranking) :=
  match games with
  | [] => Some []
  | g :: rest =>
      match game_ranking g with
      | None => None
      | Some r =>
          match game_results_of rest with
          | None => None
          | Some rs => Some (r :: rs)
          end
      end
  end.
(** The step of the comprehension of lines 115-116. *)
Definition bind_user (acc : option ranking) (u : user_record) : option ranking :=
  match acc with
  | None => None
  | Some d =>
      match py_int (rank u) with
      | None => None
      | Some r => Some (dict_set d (user_key u) r)
      end
  end.

(** [u] is listed under the key [k]. *)
Definition listed_as (k : pykey) (u : user_record) : bool :=
  if pykey_eq_dec k (user_key u) then true else false.
End Loader.

(** ** The design document's reading of the denominator *)

(** [gammas[k]] as a number ([0] for a key that is absent). *)
Definition gamma_at (g : dict num) (k : pykey) : num :=
  match dict_get k g with Some v => v | None => 0%Qc end.

(** The summed strength of the participants of [r] placed at [place] or
    behind it. *)
Definition remaining_sum (g : dict num) (r : ranking) (place : Z) : num :=
  pysum (map (fun fp => gamma_at g (fst fp))
             (filter (fun fp => snd fp >=? place) r)).

(** The sum over the rankings containing [p], and in each over the places
    [places_of r] that [p] reached, of the inverse remaining strength. *)
Definition denom_over (places_of : ranking -> list Z)
           (g : dict num) (rankings : list ranking) (p : pykey) : num :=
  pysum
    (map (fun r =>
            match dict_get p r with
            | None => 0%Qc
            | Some pos =>
                pysum (map (fun place => (1 / remaining_sum g r place)%Qc)
                           (filter (fun place => pos >=? place) (places_of r)))
            end)
         (filter (contains p) rankings)).

(** ... over each distinct position value of the ranking. *)
Definition denom_distinct_places : dict num -> list ranking -> pykey -> num :=
  denom_over (fun r => nodup Z.eq_dec (values r)).

(** ... over the position of each participant of the ranking. *)
Definition denom_each_participant : dict num -> list ranking -> pykey -> num :=
  denom_over (fun r => values r).

Definition all_positive (g : dict num) : Prop :=
  forall k v, dict_get k g = Some v -> (0 < v)%Qc.

Definition covers (g : dict num) (rankings : list ranking) : Prop :=
  forall r k, In r rankings -> In k (keys r) -> dict_get k g <> None.

(** The gammas after an iteration from gammas [g] on which no division
    fails. *)
Definition next_gammas {SO : SetOrder} (rankings : list ranking) (g : dict num)
  : dict num :=
  map (fun p => (p, (of_Z (counter_get (ws_of rankings) p)
                     / denom_each_participant g rankings p)%Qc))
      (players_of rankings).

(** ** Definitions used to state the properties *)

(** [n] executions of the loop body. *)
Fixpoint iterations (n : nat) (rankings : list ranking) (players : list pykey)
         (ws : dict Z) (st : pl_state) : result pl_state :=
  match n with
  | O => Ok st
  | S n' =>
      st' <- iterate rankings players ws st ;;
      iterations n' rankings players ws st'
  end.

Definition sq (x : num) : num := (x * x)%Qc.

Definition four : num := Q2Qc 4.

(** [player] is in the ranking with a position below the ranking's size. *)
Definition not_last (player : pykey) (r : ranking) : bool :=
  match dict_get player r with
  | Some finish => finish <? Z.of_nat (length r)
  | None => false
  end.

(** The number of rankings in which [player] is [not_last]. *)
Definition rankings_not_last (rankings : list ranking) (player : pykey) : Z :=
  Z.of_nat (length (filter (not_last player) rankings)).

(** The state of the loop after [n] iterations on [rankings]; the second
    component tells whether it was reached without an exception. *)
Definition state_after {SO : SetOrder} (n : nat) (rankings : list ranking)
  : pl_state * bool :=
  let players := players_of rankings in
  let blank := {| gammas := []; _gammas := []; gdiff := of_Z 10;
                  pgdiff := of_Z 100; iteration := 0; out := [] |} in
  match initial_state players with
  | Ok st0 =>
      match iterations n rankings players (ws_of rankings) st0 with
      | Ok st => (st, true)
      | Raise _ => (blank, false)
      end
  | Raise _ => (blank, false)
  end.

(** The state after one more iteration ([st] itself if it raises). *)
Definition next_state {SO : SetOrder} (rankings : list ranking) (st : pl_state)
  : pl_state :=
  match iterate rankings (players_of rankings) (ws_of rankings) st with
  | Ok st' => st'
  | Raise _ => st
  end.

(** In ranking [r], [u] finished strictly better than [v]. *)
Definition beats (u v : pykey) (r : ranking) : bool :=
  match dict_get u r, dict_get v r with
  | Some a, Some b => a <? b
  | _, _ => false
  end.

(** A win-class event of [u]: [u] finished strictly better than some rival
    of a ranking; a loss-class event: strictly worse. *)
Definition has_win (games : list ranking) (u : pykey) : Prop :=
  exists r v, In r games /\ beats u v r = true.

Definition has_loss (games : list ranking) (u : pykey) : Prop :=
  exists r v, In r games /\ beats v u r = true.

(** Every competitor of the corpus has a win-class and a loss-class event. *)
Definition eligible (games : list ranking) : Prop :=
  forall p, In p (flat_map keys games) -> has_win games p /\ has_loss games p.

(** A ranking with positions from 1, no two participants at the same
    position, and truthy keys (the non-empty strings [main] builds). *)
Definition tie_free (game : ranking) : Prop :=
  NoDup (values game) /\
  forall u r, In (u, r) game -> 1 <= r /\ truthy u = true.

(** The two synthetic rankings around a competitor. *)
Definition synthetic_pair (p : pykey) : list ranking :=
  [[(anchor, 1); (p, 2)]; [(anchor, 2); (p, 1)]].

(** The dictionary [{p: c for p in l}]. *)
Definition const_dict (l : list pykey) (c : num) : dict num :=
  map (fun p => (p, c)) l.

(** The denominator of each player of a synthetic corpus of [k] competitors
    when every gamma is [c]. *)
Definition uniform_denom (k c : num) (p : pykey) : num :=
  if pykey_eq_dec p anchor then (k * ((1 + 1) / c))%Qc else ((1 + 1) / c)%Qc.

(** The flags of [user], read as [1] (not seen yet) when it has no entry. *)
Definition win_flag (pc0 : dict flags) (user : pykey) : Z :=
  match dict_get user pc0 with Some wl => fst wl | None => 1 end.

Definition loss_flag (pc0 : dict flags) (user : pykey) : Z :=
  match dict_get user pc0 with Some wl => snd wl | None => 1 end.

(** An entry never has both flags set. *)
Definition entry_ok (wl : flags) : Prop :=
  wl = (0, 0) \/ wl = (0, 1) \/ wl = (1, 0).

Definition pc_ok (pc0 : dict flags) : Prop :=
  NoDup (keys pc0) /\ forall u wl, dict_get u pc0 = Some wl -> entry_ok wl.

(** While a ranking with positions from 0 is read, the worst position is
    that of the holder. *)
Definition holder_ok (s : scan) (seen : ranking) : Prop :=
  0 <= max_rank s /\
  (forall m, max_user s = Some m -> In (m, max_rank s) seen) /\
  (0 < max_rank s -> exists m, max_user s = Some m).

(** The entries [classify] puts in each list. *)
Definition no_loss_entry (e : pykey * flags) : bool :=
  (fst (snd e) =? 0) && negb (snd (snd e) =? 0).

Definition no_win_entry (e : pykey * flags) : bool :=
  negb (fst (snd e) =? 0).

(** The per-ranking detection as the design document words it: the lowest
    position seen so far and its holder are tracked; a strictly better
    newcomer marks the previous holder with a loss and takes its place; a
    position worse than 1 is marked with a loss; wins are never marked. *)
Record tracked : Type := {
  marks : dict flags;
  best : option (Z * pykey)
}.

Definition visit_described (t : tracked) (ur : pykey * Z) : tracked :=
  let user := fst ur in
  let rank := snd ur in
  let m1 := if rank >? 1 then mark_loss (marks t) user else marks t in
  match best t with
  | None => {| marks := m1; best := Some (rank, user) |}
  | Some (b, holder) =>
      if rank <? b
      then {| marks := mark_loss m1 holder; best := Some (rank, user) |}
      else {| marks := m1; best := best t |}
  end.

Definition scan_game_described (pc0 : dict flags) (game : ranking) : tracked :=
  fold_left visit_described game {| marks := pc0; best := None |}.

(** The first game of each [gameID] not in [seen], in reading order. *)
Fixpoint first_games (seen : list pykey) (games : list game_record)
  : list game_record :=
  match games with
  | [] => []
  | g :: rest =>
      if in_dec pykey_eq_dec (gameID g) seen then first_games seen rest
      else g :: first_games (gameID g :: seen) rest
  end.

(** [g] has the [gameID] [id]. *)
Definition has_id (id : pykey) (g : game_record) : bool :=
  if pykey_eq_dec (gameID g) id then true else false.

(** The sort key of [g] is [k]. *)
Definition has_key (py_int : pykey -> option Z) (k : Z) (g : game_record) : bool :=
  match py_int (gameID g) with
  | Some k' => k' =? k
  | None => false
  end.

(** The conversions used in the sample runs: [int] on integers and on
    strings of decimal digits (an optional [-] in front), and [str] on
    integers and strings. Python's [int] accepts more (blanks around the
    digits, a [+], underscores between digits), to which [decimal_int]
    answers [None]; the sample inputs use none of these, and every statement
    about the loader is over an arbitrary [py_int]. *)
Definition decimal_int (x : pykey) : option Z :=
  match x with
  | KInt n => Some n
  | KStr s => option_map Z.of_int (NilZero.int_of_string s)
  end.

Definition plain_str (x : pykey) : string :=
  match x with
  | KInt n => NilZero.string_of_int (Z.to_int n)
  | KStr s => s
  end.

(** The sort key of a game ([0] when [int] raises on its [gameID]). *)
Definition sort_key (py_int : pykey -> option Z) (g : game_record) : Z :=
  match py_int (gameID g) with Some k => k | None => 0 end.

(** ** Sample inputs *)

(** Two players tied at position 1, each of strength 1/2. *)
Definition tied_pair : ranking := [(KStr "A", 1); (KStr "B", 1)].

Definition halves : dict num :=
  [(KStr "A", Q2Qc (1 # 2)); (KStr "B", Q2Qc (1 # 2))].

(** Two rankings on which [gdiff] goes up at the third iteration. *)
Definition oscillating : list ranking :=
  [[(KStr "A", 1); (KStr "B", 2); (KStr "C", 1)]; [(KStr "A", 2); (KStr "B", 1)]].

(** A then B, and B then A. *)
Definition swapped_pair : list ranking :=
  [[(KStr "A", 1); (KStr "B", 2)]; [(KStr "B", 1); (KStr "A", 2)]].

(** Two files: game 1 is in both, and 10 sorts after 2. *)
Definition game_a : game_record :=
  {| gameID := KStr "2";
     users := [{| username := KStr "ann"; userID := KInt 7; rank := KStr "1" |};
               {| username := KStr "bob"; userID := KInt 8; rank := KInt 2 |}] |}.

Definition game_b : game_record :=
  {| gameID := KStr "1";
     users := [{| username := KStr "bob"; userID := KInt 8; rank := KInt 1 |};
               {| username := KStr "ann"; userID := KInt 7; rank := KInt 2 |}] |}.

Definition game_b_again : game_record :=
  {| gameID := KStr "1"; users := [] |}.

Definition game_c : game_record :=
  {| gameID := KStr "10";
     users := [{| username := KStr "ann"; userID := KInt 7; rank := KInt 1 |};
               {| username := KStr "cy"; userID := KInt 9; rank := KInt 2 |};
               {| username := KStr "ann"; userID := KInt 7; rank := KInt 3 |}] |}.

Definition two_files : list (string * list game_record) :=
  [("a.json"%string, [game_a; game_b]); ("b.json"%string, [game_b_again; game_c])].

(** One game in which B is last. *)
Definition one_game : list ranking := [[(KStr "A", 1); (KStr "B", 2)]].

(** A corpus with ties in which everybody finished ahead of somebody and
    behind somebody. *)
Definition tied_corpus : list ranking :=
  [[(KStr "A", 1); (KStr "B", 1); (KStr "C", 2)];
   [(KStr "C", 1); (KStr "A", 2); (KStr "B", 2)]].

(** ** Basic facts *)

Lemma first_occurrences_spec seen l x :
  In x (first_occurrences seen l) <-> In x l /\ ~ In x seen.
Proof.
  revert seen; induction l as [|a l IH]; intros seen; simpl.
  - tauto.
  - destruct (in_dec pykey_eq_dec a seen) as [Hi|Hn]; simpl; rewrite IH; simpl.
    + split; [tauto|]. intros [[->|H] Hs]; tauto.
    + split.
      * intros [->|[H Hs]]; tauto.
      * intros [[->|H] Hs]; [tauto|].
        destruct (pykey_eq_dec a x); [tauto|]. right. tauto.
Qed.

Lemma first_occurrences_NoDup seen l : NoDup (first_occurrences seen l).
Proof.
  revert seen; induction l as [|a l IH]; intros seen; simpl.
  - constructor.
  - destruct (in_dec pykey_eq_dec a seen) as [Hi|Hn]; [apply IH|].
    constructor; [|apply IH].
    rewrite first_occurrences_spec. simpl. tauto.
Qed.

(** First occurrence is one order a set may iterate in. *)
Definition first_occurrence_order : SetOrder.
Proof.
  refine {| set_list := first_occurrences [] |}.
  - intro l. apply first_occurrences_NoDup.
  - intros l x. rewrite first_occurrences_spec. simpl. tauto.
Defined.

Lemma dict_get_In {V} (d : dict V) k v : dict_get k d = Some v -> In (k, v) d.
Proof.
  induction d as [|[k' v'] d IH]; simpl; [discriminate|].
  destruct (pykey_eq_dec k k') as [->|Hne].
  - intros [= ->]. now left.
  - intro H. right. auto.
Qed.

Lemma dict_get_None {V} (d : dict V) k : dict_get k d = None <-> ~ In k (keys d).
Proof.
  induction d as [|[k' v'] d IH]; simpl; [tauto|].
  destruct (pykey_eq_dec k k') as [->|Hne].
  - split; [discriminate | tauto].
  - rewrite IH. split; [intros H [E|I]; [congruence | tauto] | tauto].
Qed.

Lemma dict_get_NoDup {V} (d : dict V) k v :
  NoDup (keys d) -> In (k, v) d -> dict_get k d = Some v.
Proof.
  induction d as [|[k' v'] d IH]; simpl; [tauto|].
  intros Hnd [[= -> ->]|Hin].
  - destruct (pykey_eq_dec k k); congruence.
  - inversion Hnd as [|? ? Hni Hnd']; subst.
    destruct (pykey_eq_dec k k') as [->|Hne]; [|auto].
    exfalso. apply Hni. change k' with (fst (k', v)). now apply in_map.
Qed.

Lemma mapM_Ok_map {A B} (f : A -> result B) (f' : A -> B) l ys :
  (forall a y, In a l -> f a = Ok y -> y = f' a) ->
  mapM f l = Ok ys -> ys = map f' l.
Proof.
  revert ys; induction l as [|a l IH]; simpl; intros ys Hf.
  - now intros [= <-].
  - destruct (f a) as [b|e] eqn:Ea; simpl; [|discriminate].
    destruct (mapM f l) as [bs|e] eqn:Em; simpl; [|discriminate].
    intros [= <-]. f_equal; [now apply Hf; auto | apply IH; auto].
Qed.

Lemma mapM_total {A B} (f : A -> result B) l :
  (forall a, In a l -> exists y, f a = Ok y) -> exists ys, mapM f l = Ok ys.
Proof.
  induction l as [|a l IH]; simpl; intro Hf; [now eexists|].
  destruct (Hf a) as [y ->]; [now left|].
  destruct IH as [ys ->]; [now auto|]. simpl. now eexists.
Qed.

Lemma mapM_pure {A B} (f : A -> result B) (f' : A -> B) l :
  (forall a, In a l -> f a = Ok (f' a)) -> mapM f l = Ok (map f' l).
Proof.
  induction l as [|a l IH]; simpl; intro Hf; [reflexivity|].
  rewrite Hf by now left. simpl. rewrite IH by auto. reflexivity.
Qed.

Lemma sumM_Ok_map {A} (f : A -> result num) (f' : A -> num) l s :
  (forall a y, In a l -> f a = Ok y -> y = f' a) ->
  sumM f l = Ok s -> s = pysum (map f' l).
Proof.
  unfold sumM. intros Hf. destruct (mapM f l) as [xs|e] eqn:E; simpl; [|discriminate].
  intros [= <-]. f_equal. eapply mapM_Ok_map; eauto.
Qed.

Lemma sumM_pure {A} (f : A -> result num) (f' : A -> num) l :
  (forall a, In a l -> f a = Ok (f' a)) -> sumM f l = Ok (pysum (map f' l)).
Proof. intro Hf. unfold sumM. now rewrite (mapM_pure f f'). Qed.

Lemma sumM_total {A} (f : A -> result num) l :
  (forall a, In a l -> exists y, f a = Ok y) -> exists s, sumM f l = Ok s.
Proof.
  intro Hf. unfold sumM. destruct (mapM_total f l Hf) as [ys ->]. simpl. now eexists.
Qed.

Lemma fold_left_Qcplus l a : fold_left Qcplus l a = (a + pysum l)%Qc.
Proof.
  unfold pysum. revert a; induction l as [|x l IH]; intro a; simpl.
  - ring.
  - rewrite IH, (IH (0 + x)%Qc). ring.
Qed.

Lemma pysum_nil : pysum [] = 0%Qc.
Proof. reflexivity. Qed.

Lemma pysum_cons x l : pysum (x :: l) = (x + pysum l)%Qc.
Proof. unfold pysum at 1. simpl. rewrite fold_left_Qcplus. ring. Qed.

Lemma pysum_zeros {A} (f : A -> num) l :
  (forall a, In a l -> f a = 0%Qc) -> pysum (map f l) = 0%Qc.
Proof.
  induction l as [|a l IH]; simpl; intro Hf; [reflexivity|].
  rewrite pysum_cons. rewrite Hf by (now left).
  rewrite IH by (intros; apply Hf; now right). ring.
Qed.

(** Terms that are [0] outside a filter do not count. *)
Lemma pysum_filter {A} (keep : A -> bool) (f : A -> num) l :
  pysum (map (fun a => if keep a then f a else 0%Qc) l) = pysum (map f (filter keep l)).
Proof.
  induction l as [|a l IH]; simpl; [reflexivity|].
  rewrite pysum_cons, IH. destruct (keep a); simpl.
  - now rewrite pysum_cons.
  - ring.
Qed.

(** Order facts on [Qc] are read on the underlying fractions. *)
Ltac q_of_qc :=
  unfold Qclt, Qcle, Qcdiv, Qcminus, Qcplus, Qcmult, Qcopp, Qcinv, Q2Qc in *;
  cbn [this] in *; rewrite ?Qred_correct in *.

Lemma Qc_add_pos (x y : Qc) : (0 < x -> 0 <= y -> 0 < x + y)%Qc.
Proof. intros. q_of_qc. lra. Qed.

Lemma Qc_add_nonneg (x y : Qc) : (0 <= x -> 0 <= y -> 0 <= x + y)%Qc.
Proof. intros. q_of_qc. lra. Qed.

Lemma Qc_mul_pos (x y : Qc) : (0 < x -> 0 < y -> 0 < x * y)%Qc.
Proof. intros. q_of_qc. nra. Qed.

Lemma Qc_inv_pos (x : Qc) : (0 < x -> 0 < / x)%Qc.
Proof. intros H. q_of_qc. now apply Qinv_lt_0_compat. Qed.

Lemma Qc_pos_neq (x : Qc) : (0 < x)%Qc -> x <> 0%Qc.
Proof. intros H E. subst. revert H. apply Qcle_not_lt, Qcle_refl. Qed.

Lemma gtb_true a b : gtb a b = true <-> (b < a)%Qc.
Proof.
  unfold gtb. destruct (Qclt_le_dec b a) as [Hlt|Hle]; split; auto; try discriminate.
  intro H. exfalso. revert Hle. now apply Qclt_not_le.
Qed.

Lemma gtb_false a b : gtb a b = false <-> (a <= b)%Qc.
Proof.
  unfold gtb. destruct (Qclt_le_dec b a) as [Hlt|Hle]; split; auto; try discriminate.
  intro H. exfalso. revert H. now apply Qclt_not_le.
Qed.

Lemma pydiv_Ok a b : b <> 0%Qc -> pydiv a b = Ok (a / b)%Qc.
Proof. intro H. unfold pydiv. now destruct (Qc_eq_dec b 0). Qed.

Lemma pydiv_inv a b x : pydiv a b = Ok x -> x = (a / b)%Qc /\ b <> 0%Qc.
Proof. unfold pydiv. destruct (Qc_eq_dec b 0); [discriminate|]. now intros [= <-]. Qed.

Lemma pysum_nonneg l : (forall x, In x l -> (0 <= x)%Qc) -> (0 <= pysum l)%Qc.
Proof.
  induction l as [|x l IH]; intros Hp.
  - apply Qcle_refl.
  - rewrite pysum_cons. apply Qc_add_nonneg; [apply Hp; now left|].
    apply IH. intros; apply Hp; now right.
Qed.

Lemma pysum_pos l x :
  (forall y, In y l -> (0 <= y)%Qc) -> In x l -> (0 < x)%Qc -> (0 < pysum l)%Qc.
Proof.
  induction l as [|y l IH]; intros Hp Hin Hx; [destruct Hin|].
  rewrite pysum_cons. destruct Hin as [->|Hin].
  - apply Qc_add_pos; [exact Hx|]. apply pysum_nonneg. intros; apply Hp; now right.
  - rewrite Qcplus_comm. apply Qc_add_pos.
    + apply IH; auto. intros; apply Hp; now right.
    + apply Hp. now left.
Qed.

(** ** The denominator (line 26) *)

Lemma dict_item_gamma_at g k v : dict_item g k = Ok v -> v = gamma_at g k.
Proof.
  unfold dict_item, gamma_at. destruct (dict_get k g); [now intros [= <-] | discriminate].
Qed.

Lemma remaining_Ok g r place s :
  remaining g r place = Ok s -> s = remaining_sum g r place.
Proof.
  unfold remaining, remaining_sum. apply sumM_Ok_map.
  intros a y _. apply dict_item_gamma_at.
Qed.

Lemma term_Ok g p r place x :
  term g p r place = Ok x ->
  x = match dict_get p r with
      | None => 0%Qc
      | Some pos => if pos >=? place then (1 / remaining_sum g r place)%Qc else 0%Qc
      end.
Proof.
  unfold term. destruct (dict_get p r) as [pos|]; [|now intros [= <-]].
  rewrite Z.geb_leb, Z.ltb_antisym. destruct (place <=? pos); simpl.
  - destruct (remaining g r place) as [s|e] eqn:Er; simpl; [|discriminate].
    intro H. apply pydiv_inv in H as [-> _]. now rewrite (remaining_Ok _ _ _ _ Er).
  - now intros [= <-].
Qed.

Lemma denom_Ok g rankings p d :
  denom g rankings p = Ok d -> d = denom_each_participant g rankings p.
Proof.
  unfold denom, denom_each_participant, denom_over. intro H.
  rewrite <- pysum_filter.
  revert H. apply sumM_Ok_map. intros r s _ Hs.
  unfold contains. destruct (dict_get p r) as [pos|] eqn:Ep.
  - rewrite <- pysum_filter. revert Hs. apply sumM_Ok_map.
    intros place x _ Hx. apply term_Ok in Hx. now rewrite Ep in Hx.
  - assert (E : s = pysum (map (fun _ : Z => 0%Qc) (values r))).
    { revert Hs. apply sumM_Ok_map. intros place x _ Hx.
      apply term_Ok in Hx. now rewrite Ep in Hx. }
    rewrite E. now apply pysum_zeros.
Qed.

Lemma remaining_total g r place p pos :
  all_positive g -> (forall k, In k (keys r) -> dict_get k g <> None) ->
  dict_get p r = Some pos -> (pos >=? place) = true ->
  exists s, remaining g r place = Ok s /\ (0 < s)%Qc.
Proof.
  intros Hpos Hcov Hp Hge.
  assert (Hpure : remaining g r place = Ok (remaining_sum g r place)).
  { unfold remaining, remaining_sum. apply sumM_pure. intros [k v] Hin.
    apply filter_In in Hin as [Hin _]. simpl.
    unfold dict_item, gamma_at. destruct (dict_get k g) eqn:E; [reflexivity|].
    exfalso. apply (Hcov k); [|exact E]. change k with (fst (k, v)). now apply in_map. }
  eexists; split; [exact Hpure|].
  assert (Hk : dict_get p g <> None).
  { apply Hcov. apply dict_get_In in Hp. change p with (fst (p, pos)). now apply in_map. }
  destruct (dict_get p g) as [v|] eqn:Eg; [|congruence].
  unfold remaining_sum. apply pysum_pos with (x := v).
  - intros y Hy. apply in_map_iff in Hy as [[k w] [<- Hin]]. simpl.
    unfold gamma_at. destruct (dict_get k g) eqn:E; [|apply Qcle_refl].
    apply Qclt_le_weak. eapply Hpos; eauto.
  - apply in_map_iff. exists (p, pos). split.
    + simpl. unfold gamma_at. now rewrite Eg.
    + apply filter_In. split; [now apply dict_get_In | exact Hge].
  - eapply Hpos; eauto.
Qed.

Lemma denom_total g rankings p :
  all_positive g -> covers g rankings -> exists d, denom g rankings p = Ok d.
Proof.
  intros Hpos Hcov. unfold denom. apply sumM_total. intros r Hr.
  apply sumM_total. intros place _. unfold term.
  destruct (dict_get p r) as [pos|] eqn:Ep; [|now eexists].
  destruct (pos <? place) eqn:El; [now eexists|].
  destruct (remaining_total g r place p pos) as [s [-> Hs]]; auto.
  - intros k Hk. now apply (Hcov r).
  - rewrite Z.geb_leb. apply Z.ltb_ge in El. now apply Z.leb_le.
  - simpl. rewrite pydiv_Ok by now apply Qc_pos_neq. now eexists.
Qed.

(** C1, as stated, fails: the denominator is not a sum over the DISTINCT
    position values of each ranking. In the ranking [{A: 1, B: 1}] with both
    strengths 1/2 the code gives A the denominator 2 (the place 1 is counted
    once for A and once for B), while the sum over distinct places is 1. *)
Lemma denom_not_over_distinct_places :
  ~ (forall g rankings p d,
        denom g rankings p = Ok d -> d = denom_distinct_places g rankings p).
Proof.
  intro H. specialize (H halves [tied_pair] (KStr "A")).
  destruct (denom halves [tied_pair] (KStr "A")) as [d|e] eqn:E.
  - specialize (H d eq_refl).
    assert (Hd : this d = 2%Q).
    { change (match Ok d with Ok x => this x | Raise _ => 0%Q end = 2%Q).
      rewrite <- E. vm_compute. reflexivity. }
    rewrite H in Hd. vm_compute in Hd. discriminate Hd.
  - vm_compute in E. discriminate E.
Qed.

(** C1 (amended): whenever line 26 yields a denominator for [p], it is the
    sum, over the rankings containing [p], of the sum over the finish position
    [place] of EACH participant of the ranking (a position shared by tied
    participants is counted once per tied participant) with [p]'s position
    >= [place], of 1 over the summed gammas of the participants whose position
    is >= [place]; places [p] did not reach and rankings without [p]
    contribute 0. It does yield one when every gamma is positive. *)
Theorem denom_sums_each_participants_place :
  forall g rankings p,
    (forall d, denom g rankings p = Ok d ->
               d = denom_each_participant g rankings p) /\
    (all_positive g -> covers g rankings -> exists d, denom g rankings p = Ok d) /\
    (denom halves [tied_pair] (KStr "A") = Ok (of_Z 2)).
Proof.
  intros g rankings p. split; [|split].
  - intros d. apply denom_Ok.
  - apply denom_total.
  - destruct (denom halves [tied_pair] (KStr "A")) as [d|e] eqn:E.
    + f_equal. apply Qc_is_canon.
      change (match Ok d with Ok x => this x | Raise _ => 0%Q end == of_Z 2).
      rewrite <- E. vm_compute. reflexivity.
    + vm_compute in E. discriminate E.
Qed.

(** ** The loop (lines 25-35) *)

Lemma bind_Ok {A B} (m : result A) (f : A -> result B) b :
  (x <- m ;; f x) = Ok b -> exists a, m = Ok a /\ f a = Ok b.
Proof. destruct m as [a|e]; simpl; [eauto | discriminate]. Qed.

(** A dictionary comprehension [{p: f(p) for p in l}] over distinct keys. *)
Lemma mapM_keyed {B} (f : pykey -> result B) l ys :
  mapM (fun p => x <- f p ;; Ok (p, x)) l = Ok ys ->
  keys ys = l /\ forall p x, In (p, x) ys -> f p = Ok x.
Proof.
  revert ys; induction l as [|a l IH]; simpl; intros ys H.
  - injection H as <-. split; [reflexivity | intros ? ? []].
  - apply bind_Ok in H as [[p x] [H1 H2]].
    apply bind_Ok in H1 as [x' [Hx [= <- <-]]].
    apply bind_Ok in H2 as [bs [Hbs [= <-]]].
    destruct (IH bs Hbs) as [Hk Hin]. split.
    + simpl. now rewrite Hk.
    + intros q y [[= <- <-]|Hq]; auto.
Qed.

Lemma keys_In_value {V} (d : dict V) k : In k (keys d) -> exists v, In (k, v) d.
Proof.
  unfold keys. rewrite in_map_iff. intros [[k' v] [<- H]]. now exists v.
Qed.

Lemma mapM_keyed_get {B} (f : pykey -> result B) l ys p :
  NoDup l -> In p l ->
  mapM (fun p => x <- f p ;; Ok (p, x)) l = Ok ys ->
  exists x, dict_get p ys = Some x /\ f p = Ok x.
Proof.
  intros Hnd Hp H. apply mapM_keyed in H as [Hk Hin].
  rewrite <- Hk in Hnd, Hp. destruct (keys_In_value _ _ Hp) as [x Hx].
  exists x. split; [now apply dict_get_NoDup | auto].
Qed.

Lemma dict_item_Ok {V} (d : dict V) k v : dict_item d k = Ok v -> dict_get k d = Some v.
Proof. unfold dict_item. destruct (dict_get k d); [now intros [= <-] | discriminate]. Qed.

Section Loop.
Variable rankings : list ranking.
Variable players : list pykey.
Variable ws : dict Z.
Hypothesis players_NoDup : NoDup players.

Lemma iterate_fields st st' :
  iterate rankings players ws st = Ok st' ->
  _gammas st' = gammas st /\ pgdiff st' = gdiff st /\
  iteration st' = iteration st + 1 /\
  out st' = (out st ++ [Progress (iteration st') (gdiff st')]) ++
            (if gtb (gdiff st') (gdiff st)
             then [Newline; Increased (gdiff st') (gdiff st)] else []).
Proof.
  unfold iterate. intro H.
  apply bind_Ok in H as [denoms [_ H]].
  apply bind_Ok in H as [new [_ H]].
  apply bind_Ok in H as [gd [_ H]].
  injection H as <-. simpl. repeat split.
  destruct (gtb gd (gdiff st)); [reflexivity | now rewrite app_nil_r].
Qed.

Lemma iterate_gammas st st' :
  iterate rankings players ws st = Ok st' ->
  keys (gammas st') = players /\
  (forall p, In p players ->
     exists d, denom (gammas st) rankings p = Ok d /\ d <> 0%Qc /\
               dict_get p (gammas st') = Some (of_Z (counter_get ws p) / d)%Qc) /\
  gdiff st' =
    pysum (map (fun pg => sq (snd pg - gamma_at (gammas st) (fst pg)))
               (gammas st')).
Proof.
  unfold iterate. intro H.
  apply bind_Ok in H as [denoms [Hd H]].
  apply bind_Ok in H as [new [Hn H]].
  apply bind_Ok in H as [gd [Hg H]].
  injection H as <-. simpl. split; [|split].
  - now apply mapM_keyed in Hn.
  - intros p Hp.
    destruct (mapM_keyed_get _ _ _ p players_NoDup Hp Hn) as [x [Hx Hf]].
    apply bind_Ok in Hf as [d [Hi Hdiv]].
    apply pydiv_inv in Hdiv as [-> Hnz].
    apply dict_item_Ok, dict_get_In in Hi.
    apply mapM_keyed in Hd as [_ Hd]. apply Hd in Hi.
    exists d. auto.
  - revert Hg. apply sumM_Ok_map. intros [p x] y _ Hy. simpl in *.
    apply bind_Ok in Hy as [o [Ho [= <-]]].
    apply dict_item_gamma_at in Ho. now subst.
Qed.

(** The loop returns [st'] exactly when [st'] is the first state, after
    some [n <= fuel] iterations, whose [gdiff] is not above the tolerance. *)
Lemma pl_loop_Returned fuel st st' :
  pl_loop fuel rankings players ws st = Returned st' <->
  exists n, (n <= fuel)%nat /\
    iterations n rankings players ws st = Ok st' /\
    (gdiff st' <= tolerance)%Qc /\
    forall m sm, (m < n)%nat -> iterations m rankings players ws st = Ok sm ->
                 (tolerance < gdiff sm)%Qc.
Proof.
  revert st; induction fuel as [|fuel IH]; intro st; simpl.
  - destruct (gtb (gdiff st) tolerance) eqn:G.
    + split; [discriminate|]. intros [n [Hn [Hit [Hle _]]]].
      assert (n = 0)%nat as -> by lia. injection Hit as <-.
      apply gtb_true in G. exfalso. revert Hle. now apply Qclt_not_le.
    + apply gtb_false in G. split.
      * intros [= <-]. exists 0%nat. repeat split; auto. intros; lia.
      * intros [n [Hn [Hit _]]]. assert (n = 0)%nat as -> by lia.
        simpl in Hit. congruence.
  - destruct (gtb (gdiff st) tolerance) eqn:G.
    + apply gtb_true in G.
      destruct (iterate rankings players ws st) as [st1|e] eqn:E.
      * rewrite IH. split.
        -- intros [n [Hn [Hit [Hle Hm]]]]. exists (S n). split; [lia|].
           split; [simpl; now rewrite E|]. split; [exact Hle|].
           intros [|m] sm Hlt Hsm.
           ++ injection Hsm as <-. exact G.
           ++ simpl in Hsm. rewrite E in Hsm. simpl in Hsm.
              apply (Hm m); [lia | exact Hsm].
        -- intros [[|n] [Hn [Hit [Hle Hm]]]].
           ++ injection Hit as <-. exfalso. revert Hle. now apply Qclt_not_le.
           ++ simpl in Hit. rewrite E in Hit. simpl in Hit.
              exists n. split; [lia|]. split; [exact Hit|]. split; [exact Hle|].
              intros m sm Hlt Hsm. apply (Hm (S m)); [lia|].
              simpl. now rewrite E.
      * split; [discriminate|]. intros [[|n] [Hn [Hit [Hle Hm]]]].
        -- injection Hit as <-. exfalso. revert Hle. now apply Qclt_not_le.
        -- simpl in Hit. rewrite E in Hit. discriminate.
    + apply gtb_false in G. split.
      * intros [= <-]. exists 0%nat. split; [lia|]. repeat split; auto. intros; lia.
      * intros [[|n] [Hn [Hit [Hle Hm]]]].
        -- simpl in Hit. congruence.
        -- exfalso. specialize (Hm 0%nat st ltac:(lia) eq_refl).
           revert G. now apply Qclt_not_le.
Qed.
End Loop.


(** *** The numerator [ws] (line 19) *)

Lemma dict_get_set {V} (d : dict V) k v p :
  dict_get p (dict_set d k v) = if pykey_eq_dec p k then Some v else dict_get p d.
Proof.
  induction d as [|[k' v'] d IH]; simpl.
  - reflexivity.
  - destruct (pykey_eq_dec k k') as [->|Hne]; simpl.
    + destruct (pykey_eq_dec p k'); reflexivity.
    + rewrite IH. destruct (pykey_eq_dec p k') as [->|Hp]; [|reflexivity].
      destruct (pykey_eq_dec k' k); congruence.
Qed.

Lemma Counter_count l p :
  counter_get (Counter l) p = Z.of_nat (count_occ pykey_eq_dec l p).
Proof.
  unfold Counter.
  assert (G : forall c,
    counter_get
      (fold_left (fun c k => dict_set c k
                   (match dict_get k c with Some n => n + 1 | None => 1 end)) l c) p
    = counter_get c p + Z.of_nat (count_occ pykey_eq_dec l p)).
  { induction l as [|a l IH]; intro c; simpl; [lia|].
    rewrite IH. unfold counter_get at 1. rewrite dict_get_set.
    destruct (pykey_eq_dec a p) as [->|Hne].
    - destruct (pykey_eq_dec p p); [|congruence].
      unfold counter_get. destruct (dict_get p c); lia.
    - destruct (pykey_eq_dec p a); [congruence|]. reflexivity. }
  rewrite G. reflexivity.
Qed.

Lemma count_occ_keys_below (r : ranking) n p :
  NoDup (keys r) ->
  count_occ pykey_eq_dec (map fst (filter (fun nf => snd nf <? n) r)) p =
  match dict_get p r with
  | Some f => if f <? n then 1%nat else 0%nat
  | None => 0%nat
  end.
Proof.
  induction r as [|[k v] r IH]; simpl; intro Hnd; [reflexivity|].
  inversion Hnd as [|? ? Hni Hnd']; subst.
  assert (Hrest : p = k ->
    count_occ pykey_eq_dec (map fst (filter (fun nf => snd nf <? n) r)) p = 0%nat).
  { intros ->. apply count_occ_not_In. intro Hin. apply Hni.
    apply in_map_iff in Hin as [x [Hx Hin]]. apply filter_In in Hin as [Hin _].
    rewrite <- Hx. now apply in_map. }
  destruct (pykey_eq_dec p k) as [->|Hne].
  - destruct (v <? n); simpl.
    + destruct (pykey_eq_dec k k); [|congruence]. now rewrite Hrest.
    + now apply Hrest.
  - destruct (v <? n); simpl.
    + destruct (pykey_eq_dec k p); [congruence|]. now apply IH.
    + now apply IH.
Qed.

Lemma ws_of_count rankings p :
  Forall (fun r => NoDup (keys r)) rankings ->
  counter_get (ws_of rankings) p = rankings_not_last rankings p.
Proof.
  intro H. unfold ws_of, rankings_not_last. rewrite Counter_count. f_equal.
  unfold ws_names. induction H as [|r rankings Hr _ IH]; simpl; [reflexivity|].
  rewrite count_occ_app, IH, count_occ_keys_below by exact Hr.
  unfold not_last. destruct (dict_get p r) as [f|]; [|reflexivity].
  destruct (f <? Z.of_nat (length r)); reflexivity.
Qed.

(** C3: [W[player]] is the number of rankings in which the player's finish
    position is strictly below the ranking's number of participants; it is
    computed once, before the loop, and every iteration, however many came
    before, divides this same count by the player's denominator. *)
Theorem ws_counts_rankings_not_finished_last {SO : SetOrder} :
  forall rankings : list ranking,
    Forall (fun r => NoDup (keys r)) rankings ->
    let players := players_of rankings in
    (forall p, counter_get (ws_of rankings) p = rankings_not_last rankings p) /\
    (forall n st0 st st' p,
        initial_state players = Ok st0 ->
        iterations n rankings players (ws_of rankings) st0 = Ok st ->
        iterate rankings players (ws_of rankings) st = Ok st' ->
        In p players ->
        exists d, denom (gammas st) rankings p = Ok d /\
                  dict_get p (gammas st') =
                  Some (of_Z (rankings_not_last rankings p) / d)%Qc).
Proof.
  intros rankings Hnd players. split.
  - intro p. now apply ws_of_count.
  - intros n st0 st st' p _ _ Hit Hp.
    assert (Hpl : NoDup players) by apply set_list_NoDup.
    destruct (iterate_gammas rankings players _ Hpl st st' Hit) as [_ [Hg _]].
    destruct (Hg p Hp) as [d [Hd [_ Hget]]].
    exists d. split; [exact Hd|]. now rewrite <- ws_of_count.
Qed.

Lemma oscillating_NoDup : Forall (fun r : ranking => NoDup (keys r)) oscillating.
Proof.
  repeat constructor; simpl; intuition discriminate.
Defined.

(** C3 at the corpus [oscillating]: A and C are counted once, B twice. *)
Lemma ws_counts_rankings_not_finished_last_witness :
  counter_get (ws_of oscillating) (KStr "A") = 1 /\
  counter_get (ws_of oscillating) (KStr "B") = 2 /\
  counter_get (ws_of oscillating) (KStr "C") = 1.
Proof.
  pose proof (@ws_counts_rankings_not_finished_last first_occurrence_order
                oscillating oscillating_NoDup) as [H _].
  repeat split; apply H.
Defined.

(** C5: when [gdiff] goes up in an iteration of the running loop, the
    iteration prints the progress line, an empty line and the "Gamma
    difference increased" message, raises nothing, and the loop goes on
    with the next iteration: the only exit is [gdiff <= 1e-9]. *)
Theorem gdiff_increase_is_reported_not_fatal :
  forall rankings players ws st st',
    iterate rankings players ws st = Ok st' ->
    (tolerance < gdiff st)%Qc ->
    (gdiff st < gdiff st')%Qc ->
    out st' = out st ++ [Progress (iteration st + 1) (gdiff st'); Newline;
                         Increased (gdiff st') (gdiff st)] /\
    (forall fuel,
        pl_loop (S (S fuel)) rankings players ws st =
        match iterate rankings players ws st' with
        | Ok st'' => pl_loop fuel rankings players ws st''
        | Raise e => Raised e
        end) /\
    (forall fuel st'',
        pl_loop fuel rankings players ws st = Returned st'' ->
        (gdiff st'' <= tolerance)%Qc).
Proof.
  intros rankings players ws st st' Hit Hrun Hup.
  destruct (iterate_fields rankings players ws st st' Hit) as [_ [_ [Hi Hout]]].
  split; [|split].
  - rewrite Hout, Hi. apply gtb_true in Hup. rewrite Hup.
    now rewrite <- app_assoc.
  - intro fuel.
    assert (G : gtb (gdiff st) tolerance = true) by now apply gtb_true.
    assert (G' : gtb (gdiff st') tolerance = true).
    { apply gtb_true. now apply Qclt_trans with (gdiff st). }
    change (pl_loop (S (S fuel)) rankings players ws st)
      with (if gtb (gdiff st) tolerance
            then match iterate rankings players ws st with
                 | Ok s => pl_loop (S fuel) rankings players ws s
                 | Raise e => Raised e
                 end
            else Returned st).
    rewrite G, Hit. simpl. now rewrite G'.
  - intros fuel st'' H. apply pl_loop_Returned in H as [n [_ [_ [Hle _]]]].
    exact Hle.
Qed.

(** C5 at the third iteration on [oscillating], where [gdiff] goes up. *)
Lemma gdiff_increase_is_reported_not_fatal_witness :
  let st := fst (@state_after first_occurrence_order 2 oscillating) in
  let st' := @next_state first_occurrence_order oscillating st in
  (gdiff st < gdiff st')%Qc /\
  out st' = out st ++ [Progress 3 (gdiff st'); Newline;
                       Increased (gdiff st') (gdiff st)].
Proof.
  intros st st'.
  pose (players := @players_of first_occurrence_order oscillating).
  assert (Hit : iterate oscillating players (ws_of oscillating) st = Ok st').
  { unfold st', next_state. fold players.
    destruct (iterate oscillating players (ws_of oscillating) st)
      as [s|e] eqn:E; [reflexivity|].
    vm_compute in E. discriminate E. }
  assert (Hrun : (tolerance < gdiff st)%Qc) by (vm_compute; reflexivity).
  assert (Hup : (gdiff st < gdiff st')%Qc) by (vm_compute; reflexivity).
  split; [exact Hup|].
  exact (proj1 (gdiff_increase_is_reported_not_fatal
                  oscillating players (ws_of oscillating) st st' Hit Hrun Hup)).
Defined.

(** ** The augmentation (lines 125-135) *)

Lemma fake_games_pairs ps :
  (forall p, In p ps -> p <> anchor) ->
  fake_games ps = flat_map synthetic_pair ps.
Proof.
  unfold fake_games. induction ps as [|p ps IH]; intro H; [reflexivity|].
  simpl. rewrite IH by (intros; apply H; now right).
  assert (Hp : p <> anchor) by (apply H; now left).
  unfold dict_of. simpl.
  destruct (pykey_eq_dec p anchor); [contradiction | reflexivity].
Qed.

Lemma filter_flat_map_none {A B} (g : A -> list B) (f : B -> bool) ps :
  (forall q, In q ps -> filter f (g q) = []) -> filter f (flat_map g ps) = [].
Proof.
  induction ps as [|a ps IH]; simpl; intro Hf; [reflexivity|].
  rewrite filter_app, Hf, IH; auto.
Qed.

Lemma filter_flat_map_single {A B} (g : A -> list B) (f : B -> bool) ps p :
  NoDup ps -> In p ps ->
  (forall q, In q ps -> q <> p -> filter f (g q) = []) ->
  filter f (flat_map g ps) = filter f (g p).
Proof.
  induction 1 as [|a ps Hni Hnd IH]; intros Hin Hf; [destruct Hin|].
  simpl. rewrite filter_app. destruct Hin as [->|Hin].
  - rewrite filter_flat_map_none; [apply app_nil_r|].
    intros q Hq. apply Hf; [now right|]. intros ->. contradiction.
  - rewrite Hf, IH; auto.
    + intros q Hq. apply Hf. now right.
    + now left.
    + intros ->. contradiction.
Qed.

Lemma filter_none {A} (f : A -> bool) l :
  (forall a, In a l -> f a = false) -> filter f l = [].
Proof.
  induction l as [|a l IH]; simpl; intro H; [reflexivity|].
  rewrite H by now left. apply IH. intros; apply H; now right.
Qed.

Ltac key_cases :=
  repeat match goal with
         | |- context [pykey_eq_dec ?a ?b] => destruct (pykey_eq_dec a b); try congruence
         end.

Section Augmentation.
Context {SO : SetOrder}.
Variable game_results : list ranking.
(** The competitors of the corpus are named by strings: none is the key [0]. *)
Hypothesis real_competitors :
  forall r k, In r game_results -> In k (keys r) -> k <> anchor.

Let players := set_list (flat_map keys game_results).

Lemma players_real p : In p players -> p <> anchor.
Proof.
  unfold players. rewrite set_list_In, in_flat_map. intros [r [Hr Hk]].
  now apply (real_competitors r).
Qed.

Lemma augment_synthetic :
  augment game_results = game_results ++ flat_map synthetic_pair players.
Proof. unfold augment. f_equal. apply fake_games_pairs, players_real. Qed.

Lemma no_anchor_in_corpus r : In r game_results -> dict_get anchor r = None.
Proof.
  intro Hr. apply dict_get_None. intro Hk. now apply (real_competitors r anchor).
Qed.

Lemma synthetic_containing p :
  In p players ->
  filter (contains p) (flat_map synthetic_pair players) = synthetic_pair p.
Proof.
  intro Hp. pose proof (players_real p Hp) as Hne.
  transitivity (filter (contains p) (synthetic_pair p)).
  - apply filter_flat_map_single; [apply set_list_NoDup | exact Hp |].
    intros q Hq Hqp. pose proof (players_real q Hq). unfold contains. simpl. key_cases.
  - unfold contains. simpl. key_cases. reflexivity.
Qed.

Lemma anchor_beats_once p :
  In p players ->
  filter (beats anchor p) (augment game_results) = [[(anchor, 1); (p, 2)]].
Proof.
  intro Hp. pose proof (players_real p Hp) as Hne.
  rewrite augment_synthetic, filter_app, filter_none.
  - transitivity (filter (beats anchor p) (synthetic_pair p)).
    + apply filter_flat_map_single; [apply set_list_NoDup | exact Hp |].
      intros q Hq Hqp. pose proof (players_real q Hq). unfold beats. simpl. key_cases.
    + unfold beats. simpl. key_cases; reflexivity.
  - intros r Hr. unfold beats. now rewrite no_anchor_in_corpus.
Qed.

Lemma anchor_beaten_once p :
  In p players ->
  filter (beats p anchor) (augment game_results) = [[(anchor, 2); (p, 1)]].
Proof.
  intro Hp. pose proof (players_real p Hp) as Hne.
  rewrite augment_synthetic, filter_app, filter_none.
  - transitivity (filter (beats p anchor) (synthetic_pair p)).
    + apply filter_flat_map_single; [apply set_list_NoDup | exact Hp |].
      intros q Hq Hqp. pose proof (players_real q Hq). unfold beats. simpl. key_cases.
    + unfold beats. simpl. key_cases; reflexivity.
  - intros r Hr. unfold beats. rewrite no_anchor_in_corpus by exact Hr.
    now destruct (dict_get p r).
Qed.
End Augmentation.

Lemma filter_In_nonempty {A} (f : A -> bool) l x xs :
  filter f l = x :: xs -> In x l /\ f x = true.
Proof.
  intro H. apply filter_In. rewrite H. now left.
Qed.

(** C4: the augmentation appends to the corpus, for each competitor [p] that
    appears in it, exactly the two rankings [{0: 1, p: 2}] and [{0: 2, p: 1}];
    afterwards the fake player beats [p] in exactly one ranking and is beaten
    by [p] in exactly one, and [p] has a win-class and a loss-class event. *)
Theorem augmentation_pairs_every_competitor {SO : SetOrder} :
  forall game_results : list ranking,
    (forall r k, In r game_results -> In k (keys r) -> k <> anchor) ->
    let players := set_list (flat_map keys game_results) in
    let synthetic := flat_map synthetic_pair players in
    augment game_results = game_results ++ synthetic /\
    length synthetic = (2 * length players)%nat /\
    (forall r, In r synthetic -> length r = 2%nat) /\
    (forall p, In p (flat_map keys game_results) ->
       filter (contains p) synthetic = [[(anchor, 1); (p, 2)]; [(anchor, 2); (p, 1)]] /\
       filter (beats anchor p) (augment game_results) = [[(anchor, 1); (p, 2)]] /\
       filter (beats p anchor) (augment game_results) = [[(anchor, 2); (p, 1)]] /\
       has_win (augment game_results) p /\
       has_loss (augment game_results) p).
Proof.
  intros game_results Hreal players synthetic.
  split; [now apply augment_synthetic|]. split; [|split].
  - unfold synthetic. clear. induction players as [|p ps IH]; simpl; [reflexivity|].
    rewrite IH. lia.
  - intros r Hr. apply in_flat_map in Hr as [p [_ [<-|[<-|[]]]]]; reflexivity.
  - intros p Hp. apply (set_list_In _ p) in Hp. fold players in Hp.
    pose proof (anchor_beats_once game_results Hreal p Hp) as H1.
    pose proof (anchor_beaten_once game_results Hreal p Hp) as H2.
    split; [now apply synthetic_containing|]. split; [exact H1|]. split; [exact H2|].
    split.
    + apply filter_In_nonempty in H2 as [Hin Hb]. now exists [(anchor, 2); (p, 1)], anchor.
    + apply filter_In_nonempty in H1 as [Hin Hb]. now exists [(anchor, 1); (p, 2)], anchor.
Qed.

Lemma oscillating_real :
  forall r k, In r oscillating -> In k (keys r) -> k <> anchor.
Proof.
  intros r k Hr Hk E. subst k. simpl in Hr.
  destruct Hr as [<-|[<-|[]]]; simpl in Hk; intuition discriminate.
Defined.

(** C4 at the corpus [oscillating]. *)
Lemma augmentation_pairs_every_competitor_witness :
  @augment first_occurrence_order oscillating =
  oscillating ++ flat_map synthetic_pair [KStr "A"; KStr "B"; KStr "C"] /\
  filter (beats anchor (KStr "B")) (@augment first_occurrence_order oscillating)
  = [[(anchor, 1); (KStr "B", 2)]].
Proof.
  pose proof (@augmentation_pairs_every_competitor first_occurrence_order
                oscillating oscillating_real) as [H1 [_ [_ H4]]].
  split; [exact H1|].
  apply (H4 (KStr "B")). simpl. tauto.
Defined.

(** ** The estimator on a purely synthetic corpus *)

Lemma dict_get_const l c p : In p l -> dict_get p (const_dict l c) = Some c.
Proof.
  induction l as [|a l IH]; simpl; [tauto|].
  intro H. destruct (pykey_eq_dec p a) as [E|Hne]; [reflexivity|].
  destruct H as [H|H]; [congruence | auto].
Qed.

Lemma gamma_at_const l c p : In p l -> gamma_at (const_dict l c) p = c.
Proof. intro H. unfold gamma_at. now rewrite dict_get_const. Qed.

Lemma dict_get_keyed {V} (f : pykey -> V) l p :
  In p l -> dict_get p (map (fun q => (q, f q)) l) = Some (f p).
Proof.
  induction l as [|a l IH]; simpl; [tauto|].
  intro H. destruct (pykey_eq_dec p a) as [E|Hne]; [now subst|].
  destruct H as [H|H]; [congruence | auto].
Qed.

Lemma mapM_keyed_pure {B} (f : pykey -> result B) (f' : pykey -> B) l :
  (forall p, In p l -> f p = Ok (f' p)) ->
  mapM (fun p => x <- f p ;; Ok (p, x)) l = Ok (map (fun p => (p, f' p)) l).
Proof.
  intro H. apply mapM_pure. intros p Hp. now rewrite H.
Qed.

Lemma of_nat_S n : of_nat (S n) = (of_nat n + 1)%Qc.
Proof.
  unfold of_nat, of_Z. apply Qc_is_canon. q_of_qc.
  rewrite Nat2Z.inj_succ, <- Z.add_1_r, inject_Z_plus. reflexivity.
Qed.

Lemma of_nat_nonneg n : (0 <= of_nat n)%Qc.
Proof.
  induction n as [|n IH]; [apply Qcle_refl|].
  rewrite of_nat_S. apply Qc_add_nonneg; [exact IH|]. q_of_qc. lra.
Qed.

Lemma of_nat_pos n : (0 < n)%nat -> (0 < of_nat n)%Qc.
Proof.
  destruct n as [|n]; [lia|]. intros _. rewrite of_nat_S, Qcplus_comm.
  apply Qc_add_pos; [q_of_qc; lra | apply of_nat_nonneg].
Qed.

Lemma pysum_const {A} (l : list A) (c : num) :
  pysum (map (fun _ => c) l) = (of_nat (length l) * c)%Qc.
Proof.
  induction l as [|a l IH].
  - change (pysum (map (fun _ => c) [])) with 0%Qc.
    change (of_nat (length (@nil A))) with 0%Qc. ring.
  - simpl. rewrite pysum_cons, IH, of_nat_S. ring.
Qed.

Lemma length_filter_flat_map {A B} (g : A -> list B) (f : B -> bool) ps :
  (forall q, In q ps -> length (filter f (g q)) = 1%nat) ->
  length (filter f (flat_map g ps)) = length ps.
Proof.
  induction ps as [|a ps IH]; simpl; intro H; [reflexivity|].
  rewrite filter_app, length_app, H, IH; auto.
Qed.

Lemma synthetic_containing_competitor ps p :
  NoDup ps -> (forall q, In q ps -> q <> anchor) -> In p ps ->
  filter (contains p) (flat_map synthetic_pair ps) = synthetic_pair p.
Proof.
  intros Hnd Hreal Hp. pose proof (Hreal p Hp) as Hne.
  transitivity (filter (contains p) (synthetic_pair p)).
  - apply filter_flat_map_single; auto.
    intros q Hq Hqp. pose proof (Hreal q Hq). unfold contains. simpl. key_cases.
  - unfold contains. simpl. key_cases. reflexivity.
Qed.

Section Symmetry.
Context {SO : SetOrder}.
Variable competitors : list pykey.
Hypothesis competitors_NoDup : NoDup competitors.
Hypothesis competitors_real : forall q, In q competitors -> q <> anchor.
Hypothesis competitors_some : competitors <> [].

Let corpus : list ranking := flat_map synthetic_pair competitors.
Let everyone : list pykey := players_of corpus.
Let K : num := of_nat (length competitors).

Lemma everyone_In x : In x everyone <-> x = anchor \/ In x competitors.
Proof.
  unfold everyone, players_of. rewrite set_list_In, in_flat_map. split.
  - intros [r [Hr Hx]]. apply in_flat_map in Hr as [q [Hq Hr]].
    destruct Hr as [<-|[<-|[]]]; simpl in Hx; intuition (subst; auto).
  - intros [->|Hx].
    + destruct competitors as [|q l]; [congruence|].
      exists [(anchor, 1); (q, 2)]. simpl. auto.
    + exists [(anchor, 1); (x, 2)]. split; [|simpl; auto].
      apply in_flat_map. exists x. simpl. auto.
Qed.

Lemma everyone_length : length everyone = S (length competitors).
Proof.
  change (S (length competitors)) with (length (anchor :: competitors)).
  apply Permutation_length, NoDup_Permutation.
  - apply set_list_NoDup.
  - constructor; [|exact competitors_NoDup].
    intro H. now apply (competitors_real anchor).
  - intro x. rewrite everyone_In. simpl. intuition.
Qed.

Lemma K_pos : (0 < K)%Qc.
Proof.
  apply of_nat_pos. destruct competitors; [congruence | simpl; lia].
Qed.

Lemma corpus_NoDup : Forall (fun r : ranking => NoDup (keys r)) corpus.
Proof.
  apply Forall_forall. intros r Hr. apply in_flat_map in Hr as [q [Hq Hr]].
  pose proof (competitors_real q Hq) as Hne.
  destruct Hr as [<-|[<-|[]]]; simpl; repeat constructor; simpl; intuition.
Qed.

(** The numerators: 1 for a competitor, their number for the fake player. *)
Lemma ws_competitor p :
  In p competitors -> counter_get (ws_of corpus) p = 1.
Proof.
  intro Hp. pose proof (competitors_real p Hp) as Hne.
  rewrite ws_of_count by apply corpus_NoDup. unfold rankings_not_last, corpus.
  rewrite (filter_flat_map_single synthetic_pair (not_last p) competitors p);
    auto.
  - unfold not_last. simpl. key_cases. reflexivity.
  - intros q Hq Hqp. pose proof (competitors_real q Hq).
    unfold not_last. simpl. key_cases.
Qed.

Lemma ws_anchor :
  counter_get (ws_of corpus) anchor = Z.of_nat (length competitors).
Proof.
  rewrite ws_of_count by apply corpus_NoDup. unfold rankings_not_last, corpus.
  f_equal. apply length_filter_flat_map. intros q Hq.
  unfold not_last. simpl. reflexivity.
Qed.

Section Uniform.
Variable c : num.
Hypothesis c_pos : (0 < c)%Qc.

Let g : dict num := const_dict everyone c.

Lemma g_at x : In x everyone -> gamma_at g x = c.
Proof. apply gamma_at_const. Qed.

Lemma g_anchor : gamma_at g anchor = c.
Proof. apply g_at, everyone_In. now left. Qed.

Lemma g_competitor p : In p competitors -> gamma_at g p = c.
Proof. intro Hp. apply g_at, everyone_In. now right. Qed.

Lemma g_positive : all_positive g.
Proof.
  intros k v Hk. apply dict_get_In in Hk. unfold g, const_dict in Hk.
  apply in_map_iff in Hk as [p [[= <- <-] _]]. exact c_pos.
Qed.

Lemma g_covers : covers g corpus.
Proof.
  intros r k Hr Hk.
  assert (Hin : In k everyone).
  { unfold everyone, players_of. rewrite set_list_In, in_flat_map. eauto. }
  unfold g. rewrite dict_get_const by exact Hin. discriminate.
Qed.

Lemma c_neq : c <> 0%Qc.
Proof. now apply Qc_pos_neq. Qed.

Lemma c2_neq : (c + c)%Qc <> 0%Qc.
Proof. apply Qc_pos_neq, Qc_add_pos; [|apply Qclt_le_weak]; exact c_pos. Qed.

Lemma denom_competitor p :
  In p competitors -> denom g corpus p = Ok ((1 + 1) / c)%Qc.
Proof.
  intro Hp. pose proof (competitors_real p Hp) as Hne.
  destruct (denom_total g corpus p g_positive g_covers) as [d Hd].
  rewrite Hd. f_equal. apply denom_Ok in Hd. rewrite Hd.
  unfold denom_each_participant, denom_over, corpus.
  rewrite synthetic_containing_competitor by auto.
  unfold synthetic_pair, remaining_sum. simpl.
  destruct (pykey_eq_dec p anchor); [contradiction|].
  destruct (pykey_eq_dec p p); [|congruence]. simpl.
  rewrite !pysum_cons, !pysum_nil, g_anchor, (g_competitor p Hp).
  pose proof c_neq. pose proof c2_neq. field. auto.
Qed.

Lemma anchor_sum l :
  (forall q, In q l -> In q competitors) ->
  denom_each_participant g (flat_map synthetic_pair l) anchor =
  (of_nat (length l) * ((1 + 1) / c))%Qc.
Proof.
  unfold denom_each_participant, denom_over.
  induction l as [|q l IH]; intro Hl.
  - change (of_nat (length (@nil pykey))) with 0%Qc. simpl.
    rewrite pysum_nil. ring.
  - assert (Hq : In q competitors) by (apply Hl; now left).
    change (length (q :: l)) with (S (length l)). rewrite of_nat_S.
    simpl. rewrite !pysum_cons, IH by (intros; apply Hl; now right).
    unfold remaining_sum. simpl.
    rewrite !pysum_cons, !pysum_nil, g_anchor, (g_competitor q Hq).
    pose proof c_neq. pose proof c2_neq. field. auto.
Qed.

Lemma denom_anchor : denom g corpus anchor = Ok (K * ((1 + 1) / c))%Qc.
Proof.
  destruct (denom_total g corpus anchor g_positive g_covers) as [d Hd].
  rewrite Hd. f_equal. apply denom_Ok in Hd. rewrite Hd.
  now apply anchor_sum.
Qed.

Lemma denom_uniform p :
  In p everyone -> denom g corpus p = Ok (uniform_denom K c p).
Proof.
  intro Hp. unfold uniform_denom. apply everyone_In in Hp.
  destruct (pykey_eq_dec p anchor) as [->|Hne].
  - apply denom_anchor.
  - destruct Hp as [->|Hp]; [congruence|]. now apply denom_competitor.
Qed.

Lemma update_uniform p :
  In p everyone ->
  pydiv (of_Z (counter_get (ws_of corpus) p)) (uniform_denom K c p) =
  Ok (c / (1 + 1))%Qc.
Proof.
  intro Hp. unfold uniform_denom. apply everyone_In in Hp.
  pose proof c_neq as Hc. pose proof (Qc_pos_neq _ K_pos) as HK.
  assert (H2 : (1 + 1)%Qc <> 0%Qc) by discriminate.
  destruct (pykey_eq_dec p anchor) as [->|Hne].
  - rewrite ws_anchor. fold (of_nat (length competitors)). fold K.
    rewrite pydiv_Ok.
    + f_equal. field. auto.
    + intro E. apply Qcmult_integral in E as [E|E]; [auto|].
      unfold Qcdiv in E. apply Qcmult_integral in E as [E|E]; [auto|].
      apply (f_equal (Qcmult c)) in E.
      rewrite Qcmult_inv_r, Qcmult_0_r in E by exact Hc. discriminate E.
  - destruct Hp as [->|Hp]; [congruence|]. rewrite ws_competitor by exact Hp.
    change (of_Z 1) with 1%Qc. rewrite pydiv_Ok.
    + f_equal. field. auto.
    + intro E. unfold Qcdiv in E. apply Qcmult_integral in E as [E|E]; [auto|].
      apply (f_equal (Qcmult c)) in E.
      rewrite Qcmult_inv_r, Qcmult_0_r in E by exact Hc. discriminate E.
Qed.

(** One iteration halves every gamma. *)
Lemma iterate_uniform st :
  gammas st = g ->
  exists st',
    iterate corpus everyone (ws_of corpus) st = Ok st' /\
    gammas st' = const_dict everyone (c / (1 + 1))%Qc /\
    gdiff st' = (of_nat (S (length competitors)) * sq (c / (1 + 1)))%Qc.
Proof.
  intro Hg. unfold iterate. rewrite Hg.
  unfold denoms_of. rewrite (mapM_keyed_pure _ (uniform_denom K c)) by apply denom_uniform.
  simpl. unfold update.
  rewrite (mapM_keyed_pure _ (fun _ => (c / (1 + 1))%Qc)).
  2:{ intros p Hp. unfold dict_item. rewrite dict_get_keyed by exact Hp.
      simpl. now apply update_uniform. }
  simpl. unfold gdiff_of.
  rewrite (sumM_pure _ (fun _ => sq (c / (1 + 1))%Qc)).
  2:{ intros [p x] Hp. apply in_map_iff in Hp as [q [[= <- <-] Hq]]. simpl.
      unfold dict_item, g. rewrite dict_get_const by exact Hq. simpl.
      f_equal. unfold sq. field. discriminate. }
  simpl. eexists. split; [reflexivity|]. simpl. split; [reflexivity|].
  rewrite pysum_const, length_map, everyone_length. reflexivity.
Qed.
End Uniform.

Let N : num := of_nat (S (length competitors)).

Lemma four_eq : four = ((1 + 1) * (1 + 1))%Qc.
Proof. apply Qc_is_canon. reflexivity. Qed.

Lemma quarter_bound (x b : num) :
  (x <= four * b)%Qc -> (x / four <= b)%Qc.
Proof.
  unfold four. intro H. q_of_qc. apply Qle_shift_div_r; [reflexivity | lra].
Qed.

Lemma half_pos (c : num) : (0 < c)%Qc -> (0 < c / (1 + 1))%Qc.
Proof. intro H. q_of_qc. apply Qlt_shift_div_l; [reflexivity | lra]. Qed.

Lemma first_bound (n y : num) :
  (1 + 1 <= n)%Qc -> (0 <= y)%Qc -> (y * (four * n))%Qc = 1%Qc ->
  (y <= tolerance * four ^ 14)%Qc.
Proof.
  replace (tolerance * four ^ 14)%Qc with (Q2Qc (268435456 # 1000000000))
    by (apply Qc_is_canon; vm_compute; reflexivity).
  unfold four. intros Hn Hy E.
  assert (E' : (this (y * (Q2Qc 4 * n)) == this 1)%Q) by (rewrite E; reflexivity).
  clear E. q_of_qc. nra.
Qed.

(** From uniform gammas [c] with [gdiff = N c^2], the loop stops within
    [fuel] iterations as soon as [N c^2 <= 1e-9 * 4^fuel], on uniform
    gammas. *)
Lemma loop_uniform fuel :
  forall c st,
    (0 < c)%Qc ->
    gammas st = const_dict everyone c ->
    gdiff st = (N * sq c)%Qc ->
    (N * sq c <= tolerance * four ^ fuel)%Qc ->
    exists st' c',
      pl_loop fuel corpus everyone (ws_of corpus) st = Returned st' /\
      (0 < c')%Qc /\ gammas st' = const_dict everyone c'.
Proof.
  induction fuel as [|fuel IH]; intros c st Hc Hg Hgd Hb.
  - simpl. assert (G : gtb (gdiff st) tolerance = false).
    { apply gtb_false. rewrite Hgd.
      replace tolerance with (tolerance * four ^ 0)%Qc by (simpl; ring).
      exact Hb. }
    rewrite G. eauto.
  - simpl. destruct (gtb (gdiff st) tolerance) eqn:G; [|eauto].
    destruct (iterate_uniform c Hc st Hg) as [st1 [Hit [Hg1 Hgd1]]].
    rewrite Hit. apply (IH (c / (1 + 1))%Qc st1).
    + now apply half_pos.
    + exact Hg1.
    + exact Hgd1.
    + fold N. replace (N * sq (c / (1 + 1)))%Qc with ((N * sq c) / four)%Qc
        by (unfold sq; rewrite four_eq; field; split; discriminate).
      apply quarter_bound.
      replace (four * (tolerance * four ^ fuel))%Qc
        with (tolerance * four ^ S fuel)%Qc by (simpl; ring).
      exact Hb.
Qed.

Lemma N_pos : (0 < N)%Qc.
Proof. apply of_nat_pos. lia. Qed.

Lemma N_two : (1 + 1 <= N)%Qc.
Proof.
  unfold N. rewrite of_nat_S. pose proof K_pos as HK. unfold K in HK.
  destruct competitors as [|q l]; [congruence|].
  change (length (q :: l)) with (S (length l)). rewrite of_nat_S.
  pose proof (of_nat_nonneg (length l)). q_of_qc. lra.
Qed.

Lemma initial_uniform :
  exists st0, initial_state everyone = Ok st0 /\
              gammas st0 = const_dict everyone (1 / N)%Qc /\
              gdiff st0 = of_Z 10.
Proof.
  unfold initial_state, initial_gammas.
  rewrite (mapM_keyed_pure _ (fun _ => (1 / N)%Qc)).
  - simpl. eexists. split; [reflexivity|]. split; reflexivity.
  - intros p _. rewrite everyone_length. fold N. apply pydiv_Ok.
    apply Qc_pos_neq, N_pos.
Qed.

(** On the synthetic corpus the estimator returns, within 15 iterations,
    the same gamma for every player. *)
Lemma synthetic_run :
  exists c, (0 < c)%Qc /\
    plackett_luce 15 corpus = Returned (const_dict everyone c).
Proof.
  destruct initial_uniform as [st0 [Hst0 [Hg0 Hgd0]]].
  assert (Hc0 : (0 < 1 / N)%Qc).
  { unfold Qcdiv. rewrite Qcmult_1_l. apply Qc_inv_pos, N_pos. }
  destruct (iterate_uniform _ Hc0 st0 Hg0) as [st1 [Hit [Hg1 Hgd1]]].
  destruct (loop_uniform 14 (1 / N / (1 + 1))%Qc st1) as [st' [c' [Hl [Hc' Hg']]]].
  - now apply half_pos.
  - exact Hg1.
  - exact Hgd1.
  - fold N. apply (first_bound N).
    + apply N_two.
    + apply Qclt_le_weak. unfold sq.
      pose proof (half_pos _ Hc0) as Hh.
      apply Qc_mul_pos; [apply N_pos | now apply Qc_mul_pos].
    + unfold sq. rewrite four_eq. pose proof (Qc_pos_neq _ N_pos). field.
      split; [auto | discriminate].
  - exists c'. split; [exact Hc'|].
    unfold plackett_luce, plackett_luce_run. fold everyone. rewrite Hst0.
    change (pl_loop 15 corpus everyone (ws_of corpus) st0)
      with (if gtb (gdiff st0) tolerance
            then match iterate corpus everyone (ws_of corpus) st0 with
                 | Ok s => pl_loop 14 corpus everyone (ws_of corpus) s
                 | Raise e => Raised e
                 end
            else Returned st0).
    rewrite Hgd0. change (gtb (of_Z 10) tolerance) with true. cbv iota.
    rewrite Hit, Hl. simpl. now rewrite Hg'.
Qed.
End Symmetry.

(** C6: for every number K >= 1 of distinct competitors, on the corpus made
    of their synthetic rankings alone the estimator returns (after at most 15
    iterations) one and the same positive strength for all K competitors. *)
Theorem synthetic_corpus_gives_equal_strengths {SO : SetOrder} :
  forall names : list string,
    names <> [] ->
    NoDup names ->
    exists g c,
      plackett_luce 15 (fake_games (map KStr names)) = Returned g /\
      (0 < c)%Qc /\
      forall name, In name names -> dict_get (KStr name) g = Some c.
Proof.
  intros names Hne Hnd.
  set (competitors := map KStr names).
  assert (Hreal : forall q, In q competitors -> q <> anchor).
  { intros q Hq. apply in_map_iff in Hq as [s [<- _]]. discriminate. }
  assert (Hnd' : NoDup competitors).
  { apply Finite.Injective_map_NoDup; [|exact Hnd]. intros a b [= E]. exact E. }
  assert (Hsome : competitors <> []) by (destruct names; [congruence | discriminate]).
  destruct (synthetic_run competitors Hnd' Hreal Hsome) as [c [Hc Hrun]].
  exists (const_dict (players_of (flat_map synthetic_pair competitors)) c), c.
  split; [|split].
  - now rewrite fake_games_pairs.
  - exact Hc.
  - intros name Hn. apply dict_get_const.
    apply everyone_In; auto. right. now apply in_map.
Qed.

(** C6 for the three competitors A, B and C. *)
Lemma synthetic_corpus_gives_equal_strengths_witness :
  exists g c,
    @plackett_luce first_occurrence_order 15
      (fake_games [KStr "A"; KStr "B"; KStr "C"]) = Returned g /\
    (0 < c)%Qc /\
    forall name, In name ["A"; "B"; "C"]%string -> dict_get (KStr name) g = Some c.
Proof.
  apply (@synthetic_corpus_gives_equal_strengths first_occurrence_order
           ["A"; "B"; "C"]%string).
  - discriminate.
  - repeat constructor; simpl; intuition discriminate.
Defined.

(** ** Renormalization ([normalize_ratings], lines 141-143) *)

Lemma pysum_div {A} (f : A -> num) (k : num) l :
  pysum (map (fun a => (f a / k)%Qc) l) = (pysum (map f l) / k)%Qc.
Proof.
  induction l as [|a l IH]; simpl.
  - rewrite pysum_nil. unfold Qcdiv. ring.
  - rewrite !pysum_cons, IH. unfold Qcdiv. ring.
Qed.

Lemma normalize_ratings_Ok (ratings : list (pykey * num)) :
  pysum (map snd ratings) <> 0%Qc ->
  normalize_ratings ratings =
  Ok (map (fun pv => (fst pv, (snd pv / pysum (map snd ratings))%Qc)) ratings).
Proof.
  intro H. unfold normalize_ratings. apply mapM_pure. intros pv _.
  now rewrite pydiv_Ok.
Qed.

Lemma normalize_ratings_keys (ratings top : list (pykey * num)) :
  normalize_ratings ratings = Ok top -> map fst top = map fst ratings.
Proof.
  unfold normalize_ratings. generalize (pysum (map snd ratings)). intro c.
  revert top. induction ratings as [|pv l IH]; intros top H; simpl in H.
  - now injection H as <-.
  - apply bind_Ok in H as [b [Hb H]]. apply bind_Ok in H as [bs [Hbs H]].
    injection H as <-. apply bind_Ok in Hb as [v [_ Hb]]. injection Hb as <-.
    simpl. f_equal. now apply IH.
Qed.

Lemma ratings_sum_pos (ratings : list (pykey * num)) :
  ratings <> [] -> (forall pv, In pv ratings -> (0 < snd pv)%Qc) ->
  (0 < pysum (map snd ratings))%Qc.
Proof.
  intros Hne Hpos. destruct ratings as [|pv l]; [congruence|].
  apply pysum_pos with (x := snd pv).
  - intros y Hy. apply in_map_iff in Hy as [qv [<- Hq]].
    now apply Qclt_le_weak, Hpos.
  - now left.
  - apply Hpos. now left.
Qed.

(** Over exact rationals: on a non-empty list of pairs with positive values
    the quotients by the sum of the values sum to 1, and the post-processor
    computes them on the list already cut to the 20 largest. *)
Lemma exact_quotients_sum_to_one :
  forall ratings : list (pykey * num),
    ratings <> [] ->
    (forall pv, In pv ratings -> (0 < snd pv)%Qc) ->
    exists out,
      normalize_ratings ratings = Ok out /\
      map fst out = map fst ratings /\
      pysum (map snd out) = 1%Qc /\
      out = map (fun pv => (fst pv, (snd pv / pysum (map snd ratings))%Qc)) ratings /\
      (forall g : dict num,
          dict_get anchor g <> None ->
          firstn cutoff (sort_desc (dict_del g anchor)) = ratings ->
          post_process g = Ok out).
Proof.
  intros ratings Hne Hpos.
  pose proof (Qc_pos_neq _ (ratings_sum_pos ratings Hne Hpos)) as Hs.
  eexists. split; [now apply normalize_ratings_Ok|]. split; [|split; [|split]].
  - rewrite map_map. reflexivity.
  - rewrite map_map. simpl. rewrite (pysum_div snd).
    unfold Qcdiv. now apply Qcmult_inv_r.
  - reflexivity.
  - intros g Hg Htop. unfold post_process, dict_item.
    destruct (dict_get anchor g); [|congruence]. unfold bind. rewrite Htop.
    now apply normalize_ratings_Ok.
Qed.

(** *** In binary64 *)

Section Binary64Facts.
Import PrimFloat.

Lemma b64_normalize_Ok (ratings : list (pykey * float)) :
  (Binary64.pysum (map snd ratings) =? 0)%float = false ->
  Binary64.normalize_ratings ratings =
  Ok (map (fun pv => (fst pv, (snd pv / Binary64.pysum (map snd ratings))%float))
          ratings).
Proof.
  intro H. unfold Binary64.normalize_ratings. apply mapM_pure. intros pv _.
  unfold Binary64.pydiv. now rewrite H.
Qed.

Lemma b64_normalize_Raise (ratings : list (pykey * float)) :
  ratings <> [] ->
  (Binary64.pysum (map snd ratings) =? 0)%float = true ->
  Binary64.normalize_ratings ratings = Raise ZeroDivisionError.
Proof.
  intros Hne H. destruct ratings as [|pv l]; [congruence|].
  unfold Binary64.normalize_ratings.
  set (s := Binary64.pysum (map snd (pv :: l))) in *. simpl.
  unfold Binary64.pydiv at 1. now rewrite H.
Qed.



End Binary64Facts.

(** ** The validator ([check_games]) *)

Lemma dict_set_keys_In {V} (d : dict V) k v x :
  In x (keys (dict_set d k v)) <-> x = k \/ In x (keys d).
Proof.
  induction d as [|[k' v'] d IH]; simpl.
  - intuition.
  - destruct (pykey_eq_dec k k') as [->|Hne]; simpl.
    + intuition.
    + rewrite IH. intuition.
Qed.

Lemma dict_set_NoDup {V} (d : dict V) k v :
  NoDup (keys d) -> NoDup (keys (dict_set d k v)).
Proof.
  induction d as [|[k' v'] d IH]; simpl; intro H.
  - repeat constructor. intros [].
  - inversion H as [|? ? Hni Hnd]; subst.
    destruct (pykey_eq_dec k k') as [->|Hne]; simpl.
    + now constructor.
    + constructor; [|auto]. rewrite dict_set_keys_In. intuition.
Qed.

Lemma mark_win_get pc0 x u :
  dict_get u (mark_win pc0 x) =
  if pykey_eq_dec u x then Some (0, loss_flag pc0 x) else dict_get u pc0.
Proof.
  unfold mark_win, loss_flag.
  destruct (dict_get x pc0) as [wl|]; rewrite dict_get_set; reflexivity.
Qed.

Lemma mark_loss_get pc0 x u :
  dict_get u (mark_loss pc0 x) =
  if pykey_eq_dec u x then Some (win_flag pc0 x, 0) else dict_get u pc0.
Proof.
  unfold mark_loss, win_flag.
  destruct (dict_get x pc0) as [wl|]; rewrite dict_get_set; reflexivity.
Qed.

Lemma mark_win_NoDup pc0 x : NoDup (keys pc0) -> NoDup (keys (mark_win pc0 x)).
Proof. unfold mark_win. destruct (dict_get x pc0); apply dict_set_NoDup. Qed.

Lemma mark_loss_NoDup pc0 x : NoDup (keys pc0) -> NoDup (keys (mark_loss pc0 x)).
Proof. unfold mark_loss. destruct (dict_get x pc0); apply dict_set_NoDup. Qed.

Lemma flags_of_ok pc0 x :
  pc_ok pc0 ->
  (win_flag pc0 x = 0 \/ win_flag pc0 x = 1) /\
  (loss_flag pc0 x = 0 \/ loss_flag pc0 x = 1).
Proof.
  intros [_ H]. unfold win_flag, loss_flag.
  destruct (dict_get x pc0) as [wl|] eqn:E; [|auto].
  destruct (H x wl E) as [-> | [-> | ->]]; simpl; auto.
Qed.

Lemma mark_win_ok pc0 x : pc_ok pc0 -> pc_ok (mark_win pc0 x).
Proof.
  intro H. split; [apply mark_win_NoDup, H|].
  intros u wl. rewrite mark_win_get. destruct (pykey_eq_dec u x) as [->|Hne].
  - intros [= <-]. destruct (flags_of_ok pc0 x H) as [_ [E|E]]; rewrite E;
      unfold entry_ok; auto.
  - apply H.
Qed.

Lemma mark_loss_ok pc0 x : pc_ok pc0 -> pc_ok (mark_loss pc0 x).
Proof.
  intro H. split; [apply mark_loss_NoDup, H|].
  intros u wl. rewrite mark_loss_get. destruct (pykey_eq_dec u x) as [->|Hne].
  - intros [= <-]. destruct (flags_of_ok pc0 x H) as [[E|E] _]; rewrite E;
      unfold entry_ok; auto.
  - apply H.
Qed.

Lemma visit_ok s ur : pc_ok (pc s) -> pc_ok (pc (visit s ur)).
Proof.
  intro H. unfold visit.
  assert (H1 : pc_ok (if snd ur >? 1 then mark_loss (pc s) (fst ur) else pc s)).
  { destruct (snd ur >? 1); [now apply mark_loss_ok | exact H]. }
  destruct (snd ur >? max_rank s); simpl.
  - destruct (max_user s) as [m|]; [|exact H1].
    destruct (truthy m); [now apply mark_win_ok | exact H1].
  - destruct (snd ur <? max_rank s); simpl; [now apply mark_win_ok | exact H1].
Qed.

Lemma fold_visit_ok game s : pc_ok (pc s) -> pc_ok (pc (fold_left visit game s)).
Proof.
  revert s; induction game as [|ur game IH]; intros s H; simpl; [exact H|].
  apply IH. now apply visit_ok.
Qed.

Lemma scan_games_from_ok games pc0 :
  pc_ok pc0 ->
  pc_ok (fold_left (fun pc1 game => pc (scan_game pc1 game)) games pc0).
Proof.
  revert pc0; induction games as [|game games IH]; intros pc0 H; simpl; [exact H|].
  apply IH. unfold scan_game. now apply fold_visit_ok.
Qed.

Lemma scan_games_ok games : pc_ok (scan_games games).
Proof.
  apply scan_games_from_ok. split; [constructor | discriminate].
Qed.

Lemma classify_ok items :
  (forall u wl, In (u, wl) items -> entry_ok wl) ->
  forall acc, exists c,
    classify items acc = Ok c /\
    winners c = winners acc ++ keys (filter no_loss_entry items) /\
    losers c = losers acc ++ keys (filter no_win_entry items).
Proof.
  induction items as [|[u [w l]] items IH]; intros H acc; simpl.
  - exists acc. now rewrite !app_nil_r.
  - assert (Hrest : forall u' wl, In (u', wl) items -> entry_ok wl)
      by (intros; eapply H; right; eauto).
    destruct (H u (w, l) (or_introl eq_refl)) as [E|[E|E]]; injection E as -> ->;
      unfold no_loss_entry, no_win_entry; simpl.
    + destruct (IH Hrest acc) as [c Hc]. now exists c.
    + destruct (IH Hrest {| winners := winners acc ++ [u]; losers := losers acc;
                            printed := printed acc ++ [NoLoss u] |})
        as [c [Hc [Hw Hl]]].
      exists c. simpl in *. rewrite Hw, <- app_assoc. auto.
    + destruct (IH Hrest {| winners := winners acc; losers := losers acc ++ [u];
                            printed := printed acc ++ [NoWin u] |})
        as [c [Hc [Hw Hl]]].
      exists c. simpl in *. rewrite Hl, <- app_assoc. auto.
Qed.

Lemma pc_ok_entries pc0 :
  pc_ok pc0 -> forall u wl, In (u, wl) pc0 -> entry_ok wl.
Proof.
  intros [Hnd H] u wl Hin. apply (H u). now apply dict_get_NoDup.
Qed.

Lemma check_games_cases games :
  (missing_wl (scan_games games) <= 0 /\ check_games games = Ok NoneNone) \/
  (0 < missing_wl (scan_games games) /\
   check_games games =
   Ok (Lists (keys (filter no_loss_entry (scan_games games)))
             (keys (filter no_win_entry (scan_games games))))).
Proof.
  unfold check_games, check_games_run.
  destruct (missing_wl (scan_games games) >? 0) eqn:G.
  - right. split; [now apply Z.gtb_lt in G|].
    destruct (classify_ok (scan_games games)
                (pc_ok_entries _ (scan_games_ok games))
                {| winners := []; losers := []; printed := [] |})
      as [c [Hc [Hw Hl]]].
    rewrite Hc. simpl in *. now rewrite Hw, Hl.
  - left. split; [|reflexivity]. rewrite Z.gtb_ltb in G. now apply Z.ltb_ge in G.
Qed.

(** C10: an entry of [pc] is created by [setdefault(user, [1, 1])] with one
    of its flags cleared in the same statement, and flags are only ever
    cleared: after any corpus no entry has both flags set. So [check_games]
    never raises "Player with neither win or loss", and when it returns two
    lists no player is in both. *)
Theorem validator_never_sees_both_flags_set :
  forall games : list ranking,
    (forall pc0 user,
        dict_get user pc0 = None ->
        dict_get user (mark_win pc0 user) = Some (0, 1) /\
        dict_get user (mark_loss pc0 user) = Some (1, 0)) /\
    (forall user wl,
        In (user, wl) (scan_games games) ->
        wl = (0, 0) \/ wl = (0, 1) \/ wl = (1, 0)) /\
    (forall e, check_games games <> Raise e) /\
    (forall ws ls,
        check_games games = Ok (Lists ws ls) ->
        forall p, In p ws -> ~ In p ls).
Proof.
  intro games. split; [|split; [|split]].
  - intros pc0 user Hn. rewrite mark_win_get, mark_loss_get.
    unfold win_flag, loss_flag. rewrite Hn.
    destruct (pykey_eq_dec user user); [auto | congruence].
  - apply pc_ok_entries, scan_games_ok.
  - intros e. destruct (check_games_cases games) as [[_ ->]|[_ ->]]; discriminate.
  - intros ws ls Hc p Hw Hl.
    destruct (check_games_cases games) as [[_ E]|[_ E]]; rewrite E in Hc;
      [discriminate|].
    injection Hc as <- <-.
    destruct (scan_games_ok games) as [Hnd _].
    apply in_map_iff in Hw as [[u1 [w1 l1]] [E1 H1]].
    apply in_map_iff in Hl as [[u2 [w2 l2]] [E2 H2]].
    simpl in E1, E2. subst u1 u2.
    apply filter_In in H1 as [H1 F1]. apply filter_In in H2 as [H2 F2].
    apply (dict_get_NoDup _ _ _ Hnd) in H1. apply (dict_get_NoDup _ _ _ Hnd) in H2.
    rewrite H1 in H2. injection H2 as -> ->.
    unfold no_loss_entry, no_win_entry in *. simpl in *.
    destruct (w2 =? 0); discriminate.
Qed.

(** *** The per-ranking detection (lines 47-59) *)

Lemma mark_win_win_flag pc0 x u :
  win_flag (mark_win pc0 x) u = if pykey_eq_dec u x then 0 else win_flag pc0 u.
Proof.
  unfold win_flag at 1. rewrite mark_win_get.
  destruct (pykey_eq_dec u x); reflexivity.
Qed.

Lemma mark_win_loss_flag pc0 x u : loss_flag (mark_win pc0 x) u = loss_flag pc0 u.
Proof.
  unfold loss_flag at 1. rewrite mark_win_get.
  destruct (pykey_eq_dec u x) as [->|]; reflexivity.
Qed.

Lemma mark_loss_win_flag pc0 x u : win_flag (mark_loss pc0 x) u = win_flag pc0 u.
Proof.
  unfold win_flag at 1. rewrite mark_loss_get.
  destruct (pykey_eq_dec u x) as [->|]; reflexivity.
Qed.

Lemma mark_loss_loss_flag pc0 x u :
  loss_flag (mark_loss pc0 x) u = if pykey_eq_dec u x then 0 else loss_flag pc0 u.
Proof.
  unfold loss_flag at 1. rewrite mark_loss_get.
  destruct (pykey_eq_dec u x); reflexivity.
Qed.

(** The flags after one step of the inner loop. *)
Lemma visit_win_flag s user rank u :
  win_flag (pc (visit s (user, rank))) u =
  if rank >? max_rank s then
    match max_user s with
    | Some m => if truthy m then (if pykey_eq_dec u m then 0 else win_flag (pc s) u)
                else win_flag (pc s) u
    | None => win_flag (pc s) u
    end
  else if rank <? max_rank s then
    (if pykey_eq_dec u user then 0 else win_flag (pc s) u)
  else win_flag (pc s) u.
Proof.
  unfold visit. simpl.
  assert (H1 : win_flag (if rank >? 1 then mark_loss (pc s) user else pc s) u
               = win_flag (pc s) u).
  { destruct (rank >? 1); [apply mark_loss_win_flag | reflexivity]. }
  destruct (rank >? max_rank s); simpl.
  - destruct (max_user s) as [m|]; [|exact H1].
    destruct (truthy m); [|exact H1]. now rewrite mark_win_win_flag, H1.
  - destruct (rank <? max_rank s); simpl; [|exact H1].
    now rewrite mark_win_win_flag, H1.
Qed.

Lemma visit_loss_flag s user rank u :
  loss_flag (pc (visit s (user, rank))) u =
  if rank >? 1 then (if pykey_eq_dec u user then 0 else loss_flag (pc s) u)
  else loss_flag (pc s) u.
Proof.
  unfold visit. simpl.
  assert (H1 : loss_flag (if rank >? 1 then mark_loss (pc s) user else pc s) u
               = if rank >? 1
                 then (if pykey_eq_dec u user then 0 else loss_flag (pc s) u)
                 else loss_flag (pc s) u).
  { destruct (rank >? 1); [apply mark_loss_loss_flag | reflexivity]. }
  destruct (rank >? max_rank s); simpl.
  - destruct (max_user s) as [m|]; [|exact H1].
    destruct (truthy m); [|exact H1]. now rewrite mark_win_loss_flag.
  - destruct (rank <? max_rank s); simpl; [|exact H1].
    now rewrite mark_win_loss_flag.
Qed.

Lemma visit_max_rank s user rank :
  max_rank (visit s (user, rank)) = Z.max (max_rank s) rank.
Proof.
  unfold visit. simpl. destruct (rank >? max_rank s) eqn:G; simpl.
  - apply Z.gtb_lt in G. lia.
  - rewrite Z.gtb_ltb in G. apply Z.ltb_ge in G.
    destruct (rank <? max_rank s); simpl; lia.
Qed.

Lemma visit_max_user s user rank :
  max_user (visit s (user, rank)) =
  if rank >? max_rank s then Some user else max_user s.
Proof.
  unfold visit. simpl. destruct (rank >? max_rank s); simpl; [reflexivity|].
  destruct (rank <? max_rank s); reflexivity.
Qed.

Lemma fold_visit_max_rank game s :
  max_rank (fold_left visit game s) = fold_left Z.max (values game) (max_rank s).
Proof.
  revert s; induction game as [|[u r] game IH]; intro s; simpl; [reflexivity|].
  now rewrite IH, visit_max_rank.
Qed.

Lemma holder_origin game s u :
  max_user (fold_left visit game s) = Some u ->
  max_user s = Some u \/ In u (keys game).
Proof.
  revert s; induction game as [|[k r] game IH]; intro s; simpl; [auto|].
  intro H. apply IH in H as [H|H]; [|auto].
  rewrite visit_max_user in H. destruct (r >? max_rank s); [|auto].
  injection H as ->. auto.
Qed.

(** The holder left by a ranking got no win mark while the ranking was read. *)
Lemma holder_unmarked game :
  forall s,
    NoDup (keys game) ->
    (forall m, max_user s = Some m -> ~ In m (keys game)) ->
    forall u, max_user (fold_left visit game s) = Some u ->
              win_flag (pc (fold_left visit game s)) u = win_flag (pc s) u.
Proof.
  induction game as [|[k r] game IH]; intros s Hnd Hold u Hu; simpl in *; [reflexivity|].
  inversion Hnd as [|? ? Hk Hnd']; subst.
  assert (Hold1 : forall m, max_user (visit s (k, r)) = Some m -> ~ In m (keys game)).
  { intros m. rewrite visit_max_user. destruct (r >? max_rank s).
    - now intros [= <-].
    - intros Hm Hin. apply (Hold m Hm). now right. }
  rewrite (IH (visit s (k, r)) Hnd' Hold1 u Hu).
  assert (Horigin : max_user (visit s (k, r)) = Some u \/ In u (keys game))
    by now apply holder_origin.
  rewrite visit_win_flag. rewrite visit_max_user in Horigin.
  destruct (r >? max_rank s) eqn:G.
  - destruct (max_user s) as [m|] eqn:Em; [|reflexivity].
    destruct (truthy m); [|reflexivity].
    destruct (pykey_eq_dec u m) as [->|Hne]; [|reflexivity].
    exfalso. specialize (Hold m eq_refl).
    destruct Horigin as [[= ->]|Hin]; apply Hold; auto.
  - destruct (r <? max_rank s); [|reflexivity].
    destruct (pykey_eq_dec u k) as [->|Hne]; [|reflexivity].
    exfalso. destruct Horigin as [Hm|Hin]; [|contradiction].
    apply (Hold k Hm). now left.
Qed.

(** C8, as stated, fails: on [{A: 1, B: 2}] the code ends with B, the WORST
    finisher, as the tracked holder, and it has cleared the missing-win flag
    of A, the displaced holder; the detection as described would keep A as
    holder and mark no win. *)
Lemma detection_is_not_as_described :
  ~ (forall pc0 game,
        pc (scan_game pc0 game) = marks (scan_game_described pc0 game) /\
        max_user (scan_game pc0 game) =
        option_map snd (best (scan_game_described pc0 game))).
Proof.
  intro H.
  destruct (H [] [(KStr "A", 1); (KStr "B", 2)]) as [_ Hu].
  vm_compute in Hu. discriminate Hu.
Qed.

(** C8 (amended): per ranking the validator tracks the current WORST
    (highest) finish position seen so far and its holder. When a newcomer is
    strictly worse, the previous holder (if its key is truthy) is marked as
    having a win-class event and the newcomer becomes the holder; a
    competitor strictly better than the current worst is marked with a win; a
    competitor whose position is worse than rank 1 is marked with a loss;
    flags are only ever cleared; and the final holder of a ranking gets no
    win mark from that ranking. *)
Theorem detection_tracks_worst_position :
  forall (s : scan) (user : pykey) (rank : Z) (pc0 : dict flags) (game : ranking),
    let s' := visit s (user, rank) in
    max_rank s' = Z.max (max_rank s) rank /\
    max_user s' = (if rank >? max_rank s then Some user else max_user s) /\
    (forall m, rank > max_rank s -> max_user s = Some m -> truthy m = true ->
               win_flag (pc s') m = 0) /\
    (rank < max_rank s -> win_flag (pc s') user = 0) /\
    (rank > 1 -> loss_flag (pc s') user = 0) /\
    (forall u, (win_flag (pc s) u = 0 -> win_flag (pc s') u = 0) /\
               (loss_flag (pc s) u = 0 -> loss_flag (pc s') u = 0)) /\
    max_rank (scan_game pc0 game) = fold_left Z.max (values game) 0 /\
    (NoDup (keys game) ->
     forall u, max_user (scan_game pc0 game) = Some u ->
               win_flag (pc (scan_game pc0 game)) u = win_flag pc0 u).
Proof.
  intros s user rank pc0 game s'. unfold s'.
  split; [apply visit_max_rank|]. split; [apply visit_max_user|].
  split; [|split; [|split; [|split; [|split]]]].
  - intros m Hr Hm Ht. rewrite visit_win_flag, Hm, Ht.
    apply Z.gt_lt, Z.gtb_lt in Hr. rewrite Hr.
    destruct (pykey_eq_dec m m); [reflexivity | congruence].
  - intros Hr. rewrite visit_win_flag.
    assert (G : (rank >? max_rank s) = false) by (rewrite Z.gtb_ltb; apply Z.ltb_ge; lia).
    apply Z.ltb_lt in Hr. rewrite G, Hr.
    destruct (pykey_eq_dec user user); [reflexivity | congruence].
  - intros Hr. rewrite visit_loss_flag. apply Z.gt_lt, Z.gtb_lt in Hr. rewrite Hr.
    destruct (pykey_eq_dec user user); [reflexivity | congruence].
  - intro u. split; intro H.
    + rewrite visit_win_flag, H.
      destruct (rank >? max_rank s).
      * destruct (max_user s) as [m|]; [|reflexivity].
        destruct (truthy m); [|reflexivity]. now destruct (pykey_eq_dec u m).
      * destruct (rank <? max_rank s); [|reflexivity].
        now destruct (pykey_eq_dec u user).
    + rewrite visit_loss_flag, H.
      destruct (rank >? 1); [|reflexivity]. now destruct (pykey_eq_dec u user).
  - unfold scan_game. now rewrite fold_visit_max_rank.
  - intros Hnd u Hu. unfold scan_game in *.
    rewrite (holder_unmarked game {| pc := pc0; max_rank := 0; max_user := None |});
      [reflexivity | exact Hnd | discriminate | exact Hu].
Qed.

(** *** What the validator returns on an eligible corpus *)

Lemma swapped_pair_eligible : eligible swapped_pair.
Proof.
  intros p Hp. simpl in Hp.
  assert (E : p = KStr "A" \/ p = KStr "B") by intuition.
  destruct E as [-> | ->]; split.
  - exists [(KStr "A", 1); (KStr "B", 2)], (KStr "B"). simpl. auto.
  - exists [(KStr "B", 1); (KStr "A", 2)], (KStr "B"). simpl. auto.
  - exists [(KStr "B", 1); (KStr "A", 2)], (KStr "A"). simpl. auto.
  - exists [(KStr "A", 1); (KStr "B", 2)], (KStr "A"). simpl. auto.
Defined.

Lemma tied_corpus_eligible : eligible tied_corpus.
Proof.
  intros p Hp. simpl in Hp.
  assert (E : p = KStr "A" \/ p = KStr "B" \/ p = KStr "C") by intuition.
  destruct E as [-> | [-> | ->]]; split.
  - exists [(KStr "A", 1); (KStr "B", 1); (KStr "C", 2)], (KStr "C"). simpl. auto.
  - exists [(KStr "C", 1); (KStr "A", 2); (KStr "B", 2)], (KStr "C"). simpl. auto.
  - exists [(KStr "A", 1); (KStr "B", 1); (KStr "C", 2)], (KStr "C"). simpl. auto.
  - exists [(KStr "C", 1); (KStr "A", 2); (KStr "B", 2)], (KStr "C"). simpl. auto.
  - exists [(KStr "C", 1); (KStr "A", 2); (KStr "B", 2)], (KStr "A"). simpl. auto.
  - exists [(KStr "A", 1); (KStr "B", 1); (KStr "C", 2)], (KStr "A"). simpl. auto.
Qed.

(** C7, as stated, fails: on a corpus where every competitor has a win and
    a loss the validator returns [(None, None)], not two empty lists; and
    with ties it can miss a win: in [tied_corpus] B finished ahead of C, yet
    the validator returns the lists [[]] and [[B]] (B "has no win"). *)
Lemma eligible_corpus_does_not_give_empty_lists :
  ~ (forall games, eligible games -> check_games games = Ok (Lists [] [])) /\
  ~ (forall games, eligible games -> check_games games = Ok NoneNone) /\
  check_games swapped_pair = Ok NoneNone /\
  check_games tied_corpus = Ok (Lists [] [KStr "B"]).
Proof.
  split; [|split; [|split]].
  - intro H. specialize (H swapped_pair swapped_pair_eligible).
    vm_compute in H. discriminate H.
  - intro H. specialize (H tied_corpus tied_corpus_eligible).
    vm_compute in H. discriminate H.
  - reflexivity.
  - reflexivity.
Qed.

Lemma visit_win_mono s ur u :
  win_flag (pc s) u = 0 -> win_flag (pc (visit s ur)) u = 0.
Proof.
  destruct ur as [k r]. intro H. rewrite visit_win_flag, H.
  destruct (r >? max_rank s).
  - destruct (max_user s) as [m|]; [|reflexivity].
    destruct (truthy m); [|reflexivity]. now destruct (pykey_eq_dec u m).
  - destruct (r <? max_rank s); [|reflexivity]. now destruct (pykey_eq_dec u k).
Qed.

Lemma visit_loss_mono s ur u :
  loss_flag (pc s) u = 0 -> loss_flag (pc (visit s ur)) u = 0.
Proof.
  destruct ur as [k r]. intro H. rewrite visit_loss_flag, H.
  destruct (r >? 1); [|reflexivity]. now destruct (pykey_eq_dec u k).
Qed.

Lemma fold_visit_win_mono game s u :
  win_flag (pc s) u = 0 -> win_flag (pc (fold_left visit game s)) u = 0.
Proof.
  revert s; induction game as [|ur game IH]; intros s H; simpl; [exact H|].
  now apply IH, visit_win_mono.
Qed.

Lemma fold_visit_loss_mono game s u :
  loss_flag (pc s) u = 0 -> loss_flag (pc (fold_left visit game s)) u = 0.
Proof.
  revert s; induction game as [|ur game IH]; intros s H; simpl; [exact H|].
  now apply IH, visit_loss_mono.
Qed.

(** A position worse than 1 is marked as a loss. *)
Lemma loss_detected game s u a :
  In (u, a) game -> 1 < a -> loss_flag (pc (fold_left visit game s)) u = 0.
Proof.
  revert s; induction game as [|[k r] game IH]; intros s Hin Ha; [destruct Hin|].
  simpl. destruct Hin as [[= -> ->]|Hin]; [|now apply IH].
  apply fold_visit_loss_mono. rewrite visit_loss_flag.
  apply Z.gtb_lt in Ha. rewrite Ha.
  destruct (pykey_eq_dec u u); [reflexivity | congruence].
Qed.

(** A competitor read while a worse position is already known is marked. *)
Lemma win_detected_late game s u a :
  In (u, a) game -> a < max_rank s -> win_flag (pc (fold_left visit game s)) u = 0.
Proof.
  revert s; induction game as [|[k r] game IH]; intros s Hin Ha; [destruct Hin|].
  simpl. destruct Hin as [[= -> ->]|Hin].
  - apply fold_visit_win_mono. rewrite visit_win_flag.
    assert (G : (a >? max_rank s) = false) by (rewrite Z.gtb_ltb; apply Z.ltb_ge; lia).
    apply Z.ltb_lt in Ha. rewrite G, Ha.
    destruct (pykey_eq_dec u u); [reflexivity | congruence].
  - apply IH; [exact Hin|]. rewrite visit_max_rank. lia.
Qed.

(** The holder is marked once somebody worse is read. *)
Lemma win_detected_holder game s u v b :
  max_user s = Some u -> truthy u = true ->
  In (v, b) game -> max_rank s < b ->
  win_flag (pc (fold_left visit game s)) u = 0.
Proof.
  revert s; induction game as [|[k r] game IH]; intros s Hu Ht Hin Hb; [destruct Hin|].
  simpl. destruct (r >? max_rank s) eqn:G.
  - apply fold_visit_win_mono. rewrite visit_win_flag, G, Hu, Ht.
    destruct (pykey_eq_dec u u); [reflexivity | congruence].
  - rewrite Z.gtb_ltb in G. apply Z.ltb_ge in G.
    destruct Hin as [[= -> ->]|Hin]; [lia|].
    apply IH; auto.
    + rewrite visit_max_user.
      assert (G' : (r >? max_rank s) = false) by (rewrite Z.gtb_ltb; apply Z.ltb_ge; lia).
      now rewrite G'.
    + rewrite visit_max_rank. lia.
Qed.

(** In a ranking without ties, finishing ahead of somebody is marked. *)
Lemma win_detected game u a v b :
  NoDup (values game) ->
  (forall k r, In (k, r) game -> truthy k = true) ->
  In (u, a) game -> In (v, b) game -> a < b ->
  forall s, max_rank s < a -> win_flag (pc (fold_left visit game s)) u = 0.
Proof.
  induction game as [|[k r] game IH]; intros Hnd Ht Hu Hv Hab s Hs; [destruct Hu|].
  simpl in *. inversion Hnd as [|? ? Hr Hnd']; subst.
  assert (Ht' : forall k' r', In (k', r') game -> truthy k' = true)
    by (intros; eapply Ht; right; eauto).
  destruct Hu as [[= -> ->]|Hu].
  - destruct Hv as [[= _ E]|Hv]; [lia|].
    apply (win_detected_holder game _ u v b); auto.
    + rewrite visit_max_user.
      assert (G : (a >? max_rank s) = true) by (apply Z.gtb_lt; lia). now rewrite G.
    + eapply Ht. left. reflexivity.
    + rewrite visit_max_rank. lia.
  - assert (Hra : r <> a).
    { intros ->. apply Hr. change a with (snd (u, a)). now apply in_map. }
    destruct (Z_lt_le_dec r a) as [Hlt|Hge].
    + destruct Hv as [[= _ E]|Hv]; [lia|].
      apply IH; auto. rewrite visit_max_rank. lia.
    + apply win_detected_late with (a := a); [exact Hu|].
      rewrite visit_max_rank. lia.
Qed.

(** Keys that a ranking does not mention get no entry from it. *)
Lemma unvisited_unchanged game :
  forall s u,
    ~ In u (keys game) -> max_user s <> Some u ->
    dict_get u (pc (fold_left visit game s)) = dict_get u (pc s).
Proof.
  induction game as [|[k r] game IH]; intros s u Hin Hu; simpl in *; [reflexivity|].
  assert (Hk : u <> k) by (intros ->; apply Hin; now left).
  rewrite IH.
  - unfold visit. simpl.
    assert (H1 : dict_get u (if r >? 1 then mark_loss (pc s) k else pc s)
                 = dict_get u (pc s)).
    { destruct (r >? 1); [|reflexivity]. rewrite mark_loss_get.
      destruct (pykey_eq_dec u k); [contradiction | reflexivity]. }
    destruct (r >? max_rank s); simpl.
    + destruct (max_user s) as [m|]; [|exact H1].
      destruct (truthy m); [|exact H1]. rewrite mark_win_get.
      destruct (pykey_eq_dec u m); [congruence | exact H1].
    + destruct (r <? max_rank s); simpl; [|exact H1]. rewrite mark_win_get.
      destruct (pykey_eq_dec u k); [contradiction | exact H1].
  - tauto.
  - rewrite visit_max_user. destruct (r >? max_rank s); congruence.
Qed.

Section Corpus.
Variable u : pykey.
Variable flag : dict flags -> pykey -> Z.
Hypothesis flag_mono :
  forall game s, flag (pc s) u = 0 -> flag (pc (fold_left visit game s)) u = 0.

(** A flag cleared by one ranking of the corpus is clear at the end. *)
Lemma cleared_in_corpus games r :
  In r games ->
  (forall pc0, flag (pc (scan_game pc0 r)) u = 0) ->
  forall pc0,
    flag (fold_left (fun pc1 game => pc (scan_game pc1 game)) games pc0) u = 0.
Proof.
  intros Hr Hclear.
  assert (Hkeep : forall l pc0, flag pc0 u = 0 ->
    flag (fold_left (fun pc1 game => pc (scan_game pc1 game)) l pc0) u = 0).
  { induction l as [|g l IH]; intros pc0 H; simpl; [exact H|].
    apply IH. unfold scan_game.
    now apply (flag_mono g {| pc := pc0; max_rank := 0; max_user := None |}). }
  induction games as [|g games IH]; intro pc0; [destruct Hr|].
  simpl. destruct Hr as [->|Hr]; [apply Hkeep, Hclear | now apply IH].
Qed.
End Corpus.

Lemma outsider_has_no_entry games u :
  ~ In u (flat_map keys games) -> dict_get u (scan_games games) = None.
Proof.
  unfold scan_games.
  assert (G : forall pc0, ~ In u (flat_map keys games) ->
    dict_get u (fold_left (fun pc1 game => pc (scan_game pc1 game)) games pc0)
    = dict_get u pc0).
  { induction games as [|g games IH]; intros pc0 Hn; simpl in *; [reflexivity|].
    rewrite in_app_iff in Hn. rewrite IH by tauto.
    unfold scan_game. rewrite unvisited_unchanged; simpl; [reflexivity | tauto | discriminate]. }
  intro Hn. now rewrite G.
Qed.

Lemma missing_wl_zero pc0 :
  (forall u wl, In (u, wl) pc0 -> wl = (0, 0)) -> missing_wl pc0 = 0.
Proof.
  unfold missing_wl. induction pc0 as [|[u wl] pc0 IH]; intro H; simpl; [reflexivity|].
  rewrite (H u wl) by now left. simpl. apply IH. intros; eapply H; right; eauto.
Qed.

Lemma missing_wl_pos pc0 :
  (forall u wl, In (u, wl) pc0 -> entry_ok wl) ->
  0 < missing_wl pc0 ->
  filter no_loss_entry pc0 <> [] \/ filter no_win_entry pc0 <> [].
Proof.
  unfold missing_wl. induction pc0 as [|[u wl] pc0 IH]; intros Hok Hpos; simpl in *; [lia|].
  assert (Hrest : forall u' wl', In (u', wl') pc0 -> entry_ok wl')
    by (intros; eapply Hok; right; eauto).
  destruct (Hok u wl (or_introl eq_refl)) as [-> | [-> | ->]];
    unfold no_loss_entry, no_win_entry; simpl.
  - apply IH; [exact Hrest | exact Hpos].
  - left. discriminate.
  - right. discriminate.
Qed.

(** C7 (amended): on a corpus of rankings with positions from 1, without
    ties, over truthy keys, in which every competitor finished ahead of
    somebody in some ranking and behind somebody in some ranking, the
    validator returns [(None, None)]; and whatever the corpus it never
    returns two empty lists. *)
Theorem eligible_corpus_returns_none_none :
  forall games : list ranking,
    Forall tie_free games ->
    eligible games ->
    check_games games = Ok NoneNone /\
    (forall any : list ranking, check_games any <> Ok (Lists [] [])).
Proof.
  intros games Hfree Helig. split.
  - destruct (check_games_cases games) as [[_ E]|[Hpos _]]; [exact E|].
    exfalso. rewrite missing_wl_zero in Hpos; [lia|].
    intros u wl Hin.
    destruct (scan_games_ok games) as [Hnd _].
    pose proof (dict_get_NoDup _ _ _ Hnd Hin) as Hget.
    assert (Hu : In u (flat_map keys games)).
    { destruct (in_dec pykey_eq_dec u (flat_map keys games)) as [H|H]; [exact H|].
      apply outsider_has_no_entry in H. congruence. }
    destruct (Helig u Hu) as [[r [v [Hr Hb]]] [r' [v' [Hr' Hb']]]].
    rewrite Forall_forall in Hfree.
    assert (Hw : win_flag (scan_games games) u = 0).
    { apply (cleared_in_corpus u win_flag) with (r := r); auto.
      - intros; now apply fold_visit_win_mono.
      - intro pc0. unfold beats in Hb.
        destruct (dict_get u r) as [a|] eqn:Ea; [|discriminate].
        destruct (dict_get v r) as [b|] eqn:Eb; [|discriminate].
        apply Z.ltb_lt in Hb. apply dict_get_In in Ea, Eb.
        destruct (Hfree r Hr) as [Hnv Hpt].
        apply (win_detected r u a v b); auto.
        + intros k x Hk. now apply (Hpt k x).
        + simpl. destruct (Hpt u a Ea). lia. }
    assert (Hl : loss_flag (scan_games games) u = 0).
    { apply (cleared_in_corpus u loss_flag) with (r := r'); auto.
      - intros; now apply fold_visit_loss_mono.
      - intro pc0. unfold beats in Hb'.
        destruct (dict_get v' r') as [b|] eqn:Eb; [|discriminate].
        destruct (dict_get u r') as [a|] eqn:Ea; [|discriminate].
        apply Z.ltb_lt in Hb'. apply dict_get_In in Ea, Eb.
        destruct (Hfree r' Hr') as [_ Hpt].
        apply (loss_detected r' _ u a); auto.
        destruct (Hpt v' b Eb). lia. }
    unfold win_flag, loss_flag in Hw, Hl. rewrite Hget in Hw, Hl.
    destruct wl as [w l]. simpl in *. congruence.
  - intros any H.
    destruct (check_games_cases any) as [[_ E]|[Hpos E]]; rewrite E in H;
      [discriminate|].
    injection H as Hw Hl.
    destruct (missing_wl_pos _ (pc_ok_entries _ (scan_games_ok any)) Hpos) as [Hne|Hne];
      apply Hne.
    + destruct (filter no_loss_entry (scan_games any)); [reflexivity | discriminate].
    + destruct (filter no_win_entry (scan_games any)); [reflexivity | discriminate].
Qed.

Lemma swapped_pair_tie_free : Forall tie_free swapped_pair.
Proof.
  assert (H : forall a b, tie_free [(KStr a, 1); (KStr b, 2)]
                          \/ a = EmptyString \/ b = EmptyString).
  { intros a b. destruct a as [|c a]; [auto|]. destruct b as [|d b]; [auto|].
    left. split.
    - simpl. repeat constructor; simpl; intuition discriminate.
    - intros u r [E|[E|[]]]; injection E as <- <-; split; try lia; reflexivity. }
  unfold swapped_pair. constructor; [|constructor; [|constructor]].
  - destruct (H "A" "B")%string as [T|[E|E]]; [exact T | discriminate E | discriminate E].
  - destruct (H "B" "A")%string as [T|[E|E]]; [exact T | discriminate E | discriminate E].
Defined.

(** C7 (amended) at [swapped_pair]. *)
Lemma eligible_corpus_returns_none_none_witness :
  check_games swapped_pair = Ok NoneNone.
Proof.
  exact (proj1 (eligible_corpus_returns_none_none
                  swapped_pair swapped_pair_tie_free swapped_pair_eligible)).
Defined.

(** ** The player filters ([filter_in_players], [filter_out_players]) *)

Lemma fold_left_keep {A} (keep : A -> bool) l acc :
  fold_left (fun filtered a => if keep a then filtered ++ [a] else filtered) l acc
  = acc ++ filter keep l.
Proof.
  revert acc; induction l as [|a l IH]; intro acc; simpl.
  - now rewrite app_nil_r.
  - rewrite IH. destruct (keep a); [|reflexivity].
    now rewrite <- app_assoc.
Qed.

Lemma filter_in_players_filter games players :
  filter_in_players games players = filter (meets players) games.
Proof. unfold filter_in_players. now rewrite fold_left_keep. Qed.

Lemma filter_out_players_filter games players :
  filter_out_players games players = filter (fun g => negb (meets players g)) games.
Proof.
  unfold filter_out_players.
  now rewrite (fold_left_keep (fun g => negb (meets players g))).
Qed.

Lemma meets_true players game :
  meets players game = true <-> exists k, In k (keys game) /\ In k players.
Proof.
  unfold meets. rewrite existsb_exists. split; intros [k [Hk Hp]]; exists k; split; auto.
  - now destruct (in_dec pykey_eq_dec k players).
  - destruct (in_dec pykey_eq_dec k players); [reflexivity | contradiction].
Qed.

Lemma meets_false players game :
  meets players game = false <-> forall k, In k (keys game) -> ~ In k players.
Proof.
  split.
  - intros H k Hk Hp. assert (T : meets players game = true) by (apply meets_true; eauto).
    congruence.
  - intro H. destruct (meets players game) eqn:E; [|reflexivity].
    apply meets_true in E as [k [Hk Hp]]. exfalso. now apply (H k).
Qed.

Lemma filter_split_Permutation {A} (f : A -> bool) l :
  Permutation l (filter f l ++ filter (fun a => negb (f a)) l).
Proof.
  induction l as [|a l IH]; simpl; [constructor|].
  destruct (f a); simpl.
  - now constructor.
  - now apply Permutation_cons_app.
Qed.

(** X1: the two filters split the corpus: a game is kept by
    [filter_in_players] exactly when one of its participants is listed, by
    [filter_out_players] exactly when none is; each keeps the order of the
    corpus, and together they hold every game once. *)
Theorem player_filters_split_the_corpus :
  forall (games : list ranking) (players : list pykey),
    (forall g, In g (filter_in_players games players) <->
               In g games /\ exists k, In k (keys g) /\ In k players) /\
    (forall g, In g (filter_out_players games players) <->
               In g games /\ forall k, In k (keys g) -> ~ In k players) /\
    Permutation games
                (filter_in_players games players ++ filter_out_players games players) /\
    filter_in_players games players = filter (meets players) games /\
    filter_out_players games players = filter (fun g => negb (meets players g)) games.
Proof.
  intros games players.
  rewrite filter_in_players_filter, filter_out_players_filter.
  split; [|split; [|split; [|split]]]; try reflexivity.
  - intro g. rewrite filter_In, meets_true. reflexivity.
  - intro g. rewrite filter_In, negb_true_iff, meets_false. reflexivity.
  - apply filter_split_Permutation.
Qed.

Lemma filter_filter {A} (f g : A -> bool) l :
  filter f (filter g l) = filter (fun a => g a && f a) l.
Proof.
  induction l as [|a l IH]; simpl; [reflexivity|].
  destruct (g a); simpl; [|exact IH]. destruct (f a); now rewrite IH.
Qed.

Lemma filter_ext_bool {A} (f g : A -> bool) l :
  (forall a, f a = g a) -> filter f l = filter g l.
Proof.
  intro H. induction l as [|a l IH]; simpl; [reflexivity|]. now rewrite H, IH.
Qed.

(** X2: how the filters compose: filtering in twice by the same players
    changes nothing more, what [filter_in_players] keeps [filter_out_players]
    drops entirely (and conversely), and a filter in and a filter out by
    different lists can be applied in either order. *)
Theorem player_filters_compose :
  forall (games : list ranking) (players others : list pykey),
    filter_in_players (filter_in_players games players) players
    = filter_in_players games players /\
    filter_out_players (filter_out_players games players) players
    = filter_out_players games players /\
    filter_out_players (filter_in_players games players) players = [] /\
    filter_in_players (filter_out_players games players) players = [] /\
    filter_in_players (filter_out_players games others) players
    = filter_out_players (filter_in_players games players) others.
Proof.
  intros games players others.
  rewrite !filter_in_players_filter, !filter_out_players_filter.
  rewrite ?filter_in_players_filter, ?filter_out_players_filter.
  rewrite !filter_filter.
  split; [|split; [|split; [|split]]].
  - apply filter_ext_bool. intro g. now destruct (meets players g).
  - apply filter_ext_bool. intro g. now destruct (meets players g).
  - apply filter_none. intros g _. now destruct (meets players g).
  - apply filter_none. intros g _. now destruct (meets players g).
  - apply filter_ext_bool. intro g.
    now destruct (meets players g), (meets others g).
Qed.

(** X3: the edge cases of the filters: with no player listed
    [filter_in_players] keeps nothing and [filter_out_players] keeps the
    whole corpus; a game without participants is never kept by the first and
    always by the second; and on an empty corpus both return the empty list. *)
Theorem player_filters_edge_cases :
  forall (games : list ranking) (players : list pykey),
    filter_in_players games [] = [] /\
    filter_out_players games [] = games /\
    filter_in_players ([] :: games) players = filter_in_players games players /\
    filter_out_players ([] :: games) players = [] :: filter_out_players games players /\
    filter_in_players [] players = [] /\
    filter_out_players [] players = [].
Proof.
  intros games players.
  rewrite !filter_in_players_filter, !filter_out_players_filter.
  assert (H : forall g, meets [] g = false).
  { intro g. apply meets_false. intros k _ []. }
  repeat split.
  - apply filter_none. intros g _. apply H.
  - induction games as [|g games IH]; simpl; [reflexivity|].
    rewrite H. simpl. now rewrite IH.
Qed.

(** ** The loader ([load_games]) *)

Lemma unique_games_first games :
  unique_games games = first_games [] games.
Proof.
  unfold unique_games.
  assert (G : forall seen acc,
    snd (fold_left
           (fun (st : list pykey * list game_record) g =>
              if in_dec pykey_eq_dec (gameID g) (fst st) then st
              else (gameID g :: fst st, snd st ++ [g]))
           games (seen, acc))
    = acc ++ first_games seen games).
  { induction games as [|g games IH]; intros seen acc; simpl.
    - now rewrite app_nil_r.
    - destruct (in_dec pykey_eq_dec (gameID g) seen); rewrite IH; [reflexivity|].
      now rewrite <- app_assoc. }
  now rewrite G.
Qed.

Lemma first_games_In seen games g :
  In g (first_games seen games) -> In g games /\ ~ In (gameID g) seen.
Proof.
  revert seen; induction games as [|a games IH]; intros seen; simpl; [tauto|].
  destruct (in_dec pykey_eq_dec (gameID a) seen) as [Hi|Hn].
  - intro H. apply IH in H. tauto.
  - intros [->|H]; [tauto|]. apply IH in H. simpl in H. tauto.
Qed.

Lemma first_games_ids seen games id :
  In id (map gameID (first_games seen games)) <->
  In id (map gameID games) /\ ~ In id seen.
Proof.
  revert seen; induction games as [|a games IH]; intros seen; simpl; [tauto|].
  destruct (in_dec pykey_eq_dec (gameID a) seen) as [Hi|Hn]; simpl; rewrite IH; simpl.
  - split; [tauto|]. intros [[<-|H] Hs]; tauto.
  - split.
    + intros [<-|[H Hs]]; tauto.
    + intros [[<-|H] Hs]; [tauto|].
      destruct (pykey_eq_dec (gameID a) id); [tauto|]. right. tauto.
Qed.

Lemma first_games_NoDup seen games :
  NoDup (map gameID (first_games seen games)).
Proof.
  revert seen; induction games as [|a games IH]; intros seen; simpl.
  - constructor.
  - destruct (in_dec pykey_eq_dec (gameID a) seen) as [Hi|Hn]; [apply IH|].
    simpl. constructor; [|apply IH].
    rewrite first_games_ids. simpl. tauto.
Qed.

Lemma first_games_find seen games g :
  In g (first_games seen games) -> find (has_id (gameID g)) games = Some g.
Proof.
  revert seen; induction games as [|a games IH]; intros seen; simpl; [tauto|].
  unfold has_id at 1.
  destruct (in_dec pykey_eq_dec (gameID a) seen) as [Hi|Hn].
  - intro H. pose proof (first_games_In _ _ _ H) as [_ Hg].
    destruct (pykey_eq_dec (gameID a) (gameID g)) as [E|_]; [|eauto].
    rewrite E in Hi. contradiction.
  - intros [->|H].
    + destruct (pykey_eq_dec (gameID g) (gameID g)); [reflexivity | congruence].
    + pose proof (first_games_In _ _ _ H) as [_ Hg]. simpl in Hg.
      destruct (pykey_eq_dec (gameID a) (gameID g)) as [E|_]; [tauto | eauto].
Qed.

Lemma first_games_distinct games :
  NoDup (map gameID games) -> first_games [] games = games.
Proof.
  assert (G : forall seen, NoDup (map gameID games) ->
    (forall g, In g games -> ~ In (gameID g) seen) ->
    first_games seen games = games).
  { induction games as [|a games IH]; intros seen Hnd Hs; simpl; [reflexivity|].
    inversion Hnd as [|? ? Hni Hnd']; subst.
    destruct (in_dec pykey_eq_dec (gameID a) seen) as [Hi|Hn].
    - exfalso. apply (Hs a); simpl; auto.
    - f_equal. apply IH; [exact Hnd'|].
      intros g Hg [E|Hin].
      + apply Hni. rewrite E. now apply in_map.
      + apply (Hs g); simpl; auto. }
  intro H. apply G; auto.
Qed.

Section Sorting.
Context {A : Type}.
Implicit Types (x : Z * A) (l : list (Z * A)).

Lemma insert_by_key_Permutation x l : Permutation (insert_by_key x l) (x :: l).
Proof.
  induction l as [|y l IH]; simpl; [reflexivity|].
  destruct (fst y <? fst x); [|reflexivity].
  rewrite IH. apply perm_swap.
Qed.

Lemma sort_by_key_Permutation l : Permutation (sort_by_key l) l.
Proof.
  induction l as [|x l IH]; simpl; [constructor|].
  rewrite insert_by_key_Permutation. now constructor.
Qed.

Lemma insert_by_key_sorted x l :
  StronglySorted (fun a b => fst a <= fst b) l ->
  StronglySorted (fun a b => fst a <= fst b) (insert_by_key x l).
Proof.
  induction 1 as [|y l Hs IH Hy]; simpl.
  - repeat constructor.
  - destruct (fst y <? fst x) eqn:E.
    + apply Z.ltb_lt in E. constructor; [exact IH|].
      rewrite Forall_forall in *. intros z Hz.
      apply (Permutation_in _ (insert_by_key_Permutation x l)) in Hz.
      destruct Hz as [<-|Hz]; [lia | auto].
    + apply Z.ltb_ge in E. constructor; [now constructor|].
      constructor; [exact E|]. rewrite Forall_forall in *.
      intros z Hz. specialize (Hy z Hz). lia.
Qed.

Lemma sort_by_key_sorted l :
  StronglySorted (fun a b => fst a <= fst b) (sort_by_key l).
Proof.
  induction l as [|x l IH]; simpl; [constructor | now apply insert_by_key_sorted].
Qed.

Lemma insert_by_key_fixed x l :
  Forall (fun y => fst x <= fst y) l -> insert_by_key x l = x :: l.
Proof.
  destruct l as [|y l]; simpl; [reflexivity|]. intro H.
  inversion H as [|? ? Hy _]; subst.
  assert (E : (fst y <? fst x) = false) by (apply Z.ltb_ge; lia). now rewrite E.
Qed.

Lemma sort_by_key_fixed l :
  StronglySorted (fun a b => fst a <= fst b) l -> sort_by_key l = l.
Proof.
  induction 1 as [|x l Hs IH Hx]; simpl; [reflexivity|].
  rewrite IH. now apply insert_by_key_fixed.
Qed.

(** The sort is stable: the items of one key keep their order. *)
Lemma insert_by_key_stable k x l :
  StronglySorted (fun a b => fst a <= fst b) l ->
  filter (fun y => fst y =? k) (insert_by_key x l) =
  filter (fun y => fst y =? k) (x :: l).
Proof.
  induction 1 as [|y l Hs IH Hy]; [reflexivity|].
  simpl insert_by_key. destruct (fst y <? fst x) eqn:E; [|reflexivity].
  apply Z.ltb_lt in E. simpl in *. rewrite IH.
  destruct (fst x =? k) eqn:Ex; [|reflexivity].
  apply Z.eqb_eq in Ex.
  assert (Ey : (fst y =? k) = false) by (apply Z.eqb_neq; lia).
  now rewrite Ey.
Qed.

Lemma sort_by_key_stable k l :
  filter (fun y => fst y =? k) (sort_by_key l) = filter (fun y => fst y =? k) l.
Proof.
  induction l as [|x l IH]; [reflexivity|].
  simpl sort_by_key. rewrite insert_by_key_stable by apply sort_by_key_sorted.
  simpl. now rewrite IH.
Qed.
End Sorting.

Section LoaderFacts.
Variable py_int : pykey -> option Z.

Lemma keyed_games_Some games keyed :
  keyed_games py_int games = Some keyed ->
  keyed = map (fun g => (match py_int (gameID g) with Some k => k | None => 0 end, g))
              games /\
  forall g, In g games -> py_int (gameID g) <> None.
Proof.
  revert keyed; induction games as [|g games IH]; intros keyed; simpl.
  - intros [= <-]. split; [reflexivity | intros ? []].
  - destruct (py_int (gameID g)) as [k|] eqn:E; [|discriminate].
    destruct (keyed_games py_int games) as [l|]; [|discriminate].
    intros [= <-]. destruct (IH l eq_refl) as [-> H]. split; [reflexivity|].
    intros g' [<-|Hg']; [congruence | auto].
Qed.

Lemma keyed_games_None games :
  keyed_games py_int games = None <->
  exists g, In g games /\ py_int (gameID g) = None.
Proof.
  induction games as [|g games IH]; simpl.
  - split; [discriminate | intros [? [[] _]]].
  - destruct (py_int (gameID g)) as [k|] eqn:E.
    + destruct (keyed_games py_int games) as [l|].
      * split; [discriminate|]. intros [g' [[<-|Hg'] Hn]]; [congruence|].
        assert (H : Some l = None) by (apply IH; eauto). discriminate H.
      * split; [|reflexivity]. intros _.
        destruct (proj1 IH eq_refl) as [g' [Hg' Hn]]. eauto.
    + split; [|reflexivity]. intros _. eauto.
Qed.
End LoaderFacts.

Section LoadGames.
Variable py_int : pykey -> option Z.

Lemma keyed_games_total games :
  (forall g, In g games -> py_int (gameID g) <> None) ->
  keyed_games py_int games = Some (map (fun g => (sort_key py_int g, g)) games).
Proof.
  induction games as [|g games IH]; simpl; intro H; [reflexivity|].
  unfold sort_key at 1.
  destruct (py_int (gameID g)) as [k|] eqn:E; [|exfalso; apply (H g); auto].
  rewrite IH by auto. reflexivity.
Qed.

Lemma map_snd_keyed (games : list game_record) :
  map snd (map (fun g => (sort_key py_int g, g)) games) = games.
Proof. rewrite map_map. simpl. apply map_id. Qed.

(** What [load_games] computes when the sort does not raise. *)
Lemma load_games_Some files games :
  snd (load_games py_int files) = Some games ->
  let uniques := first_games [] (flat_map snd files) in
  let keyed := map (fun g => (sort_key py_int g, g)) uniques in
  games = map snd (sort_by_key keyed) /\
  map (fun g => (sort_key py_int g, g)) games = sort_by_key keyed /\
  Permutation games uniques /\
  (forall g, In g uniques -> py_int (gameID g) <> None) /\
  fst (load_games py_int files) =
    map (fun f => Reading (fst f)) files ++ [GamesLoaded (length games)].
Proof.
  unfold load_games. rewrite unique_games_first.
  destruct (keyed_games py_int (first_games [] (flat_map snd files)))
    as [keyed|] eqn:E; simpl; [|discriminate].
  intros [= <-]. apply keyed_games_Some in E as [-> Hall].
  split; [reflexivity|]. split; [|split; [|split]].
  - rewrite map_map.
    assert (G : forall l : list (Z * game_record),
      (forall kg, In kg l -> fst kg = sort_key py_int (snd kg)) ->
      map (fun kg => (sort_key py_int (snd kg), snd kg)) l = l).
    { induction l as [|[k g] l IH]; simpl; intro H; [reflexivity|].
      f_equal; [|apply IH; auto].
      f_equal. symmetry. apply (H (k, g)). now left. }
    apply G. intros kg Hkg.
    apply (Permutation_in _ (sort_by_key_Permutation _)) in Hkg.
    apply in_map_iff in Hkg as [g [<- _]]. reflexivity.
  - rewrite <- (map_snd_keyed (first_games [] (flat_map snd files))) at 2.
    apply Permutation_map, sort_by_key_Permutation.
  - exact Hall.
  - reflexivity.
Qed.

(** X4: [load_games] keeps one game per [gameID]: the IDs of the games it
    returns are pairwise different, they are exactly the IDs read, and for
    each ID the game kept is the first one read with it (a later record of
    the same ID is dropped, whatever it holds). *)
Theorem load_games_keeps_first_game_of_each_id :
  forall files games,
    snd (load_games py_int files) = Some games ->
    NoDup (map gameID games) /\
    (forall id, In id (map gameID games) <->
                In id (map gameID (flat_map snd files))) /\
    (forall g, In g games ->
               find (has_id (gameID g)) (flat_map snd files) = Some g).
Proof.
  intros files games H.
  destruct (load_games_Some files games H) as [_ [_ [Hperm _]]].
  split; [|split].
  - apply (Permutation_NoDup (Permutation_sym (Permutation_map gameID Hperm))).
    apply first_games_NoDup.
  - intro id. split; intro Hin.
    + apply (Permutation_in _ (Permutation_map gameID Hperm)) in Hin.
      now apply first_games_ids in Hin.
    + apply (Permutation_in _ (Permutation_sym (Permutation_map gameID Hperm))).
      apply first_games_ids. simpl. tauto.
  - intros g Hg. apply (Permutation_in _ Hperm) in Hg.
    now apply first_games_find in Hg.
Qed.

Lemma sorted_by_key_games (l : list (Z * game_record)) :
  StronglySorted (fun a b => fst a <= fst b) l ->
  StronglySorted (fun a b => fst a <= fst b)
                 (map (fun g => (sort_key py_int g, g)) (map snd l)) ->
  StronglySorted (fun a b => sort_key py_int a <= sort_key py_int b) (map snd l).
Proof.
  intros _. induction l as [|[k g] l IH]; simpl; intro H; [constructor|].
  inversion H as [|? ? Hs Hall]; subst. constructor; [auto|].
  rewrite Forall_forall in *. intros b Hb.
  apply (Hall (sort_key py_int b, b)).
  apply in_map_iff. eauto.
Qed.

Lemma filter_has_key k (games : list game_record) :
  (forall g, In g games -> py_int (gameID g) <> None) ->
  filter (has_key py_int k) games =
  map snd (filter (fun kg => fst kg =? k) (map (fun g => (sort_key py_int g, g)) games)).
Proof.
  induction games as [|g games IH]; simpl; intro H; [reflexivity|].
  rewrite IH by auto. unfold has_key, sort_key.
  destruct (py_int (gameID g)) as [k'|] eqn:E; [|exfalso; apply (H g); auto].
  destruct (k' =? k); reflexivity.
Qed.

(** X5: the games [load_games] returns are in increasing order of
    [int(gameID)]; games whose IDs convert to the same integer stay in the
    order they were read (the sort is stable); and the last line printed
    gives their number, after one "Reading" line per file. *)
Theorem load_games_sorts_by_integer_id :
  forall files games,
    snd (load_games py_int files) = Some games ->
    StronglySorted (fun a b => sort_key py_int a <= sort_key py_int b) games /\
    (forall g, In g games -> py_int (gameID g) = Some (sort_key py_int g)) /\
    (forall k, filter (has_key py_int k) games =
               filter (has_key py_int k) (unique_games (flat_map snd files))) /\
    fst (load_games py_int files) =
      map (fun f => Reading (fst f)) files ++ [GamesLoaded (length games)] /\
    length games = length (unique_games (flat_map snd files)).
Proof.
  intros files games H.
  destruct (load_games_Some files games H) as [Hg [Hk [Hperm [Hall Hout]]]].
  rewrite unique_games_first.
  assert (Hall' : forall g, In g games -> py_int (gameID g) <> None).
  { intros g Hin. apply Hall. now apply (Permutation_in _ Hperm). }
  split; [|split; [|split; [|split]]].
  - rewrite Hg. apply sorted_by_key_games.
    + apply sort_by_key_sorted.
    + rewrite <- Hg, Hk. apply sort_by_key_sorted.
  - intros g Hin. unfold sort_key. specialize (Hall' g Hin).
    now destruct (py_int (gameID g)).
  - intro k. rewrite (filter_has_key k games Hall'), Hk, sort_by_key_stable.
    now rewrite <- filter_has_key.
  - exact Hout.
  - now apply Permutation_length.
Qed.

(** X6: [load_games] raises exactly when [int] raises on the [gameID] of
    some game read, even one that is dropped as a duplicate of its ID; then
    only the "Reading" lines have been printed. *)
Theorem load_games_raises_on_unconvertible_id :
  forall files,
    (snd (load_games py_int files) = None <->
     exists g, In g (flat_map snd files) /\ py_int (gameID g) = None) /\
    (snd (load_games py_int files) = None ->
     fst (load_games py_int files) = map (fun f => Reading (fst f)) files).
Proof.
  intro files. unfold load_games. rewrite unique_games_first.
  destruct (keyed_games py_int (first_games [] (flat_map snd files)))
    as [keyed|] eqn:E; simpl.
  - split; [|discriminate]. split; [discriminate|].
    intros [g [Hg Hn]]. exfalso.
    assert (Hid : In (gameID g) (map gameID (first_games [] (flat_map snd files)))).
    { apply first_games_ids. split; [now apply in_map | intros []]. }
    apply in_map_iff in Hid as [g' [Eid Hg']].
    apply keyed_games_Some in E as [_ Hall]. apply (Hall g' Hg'). congruence.
  - split; [|reflexivity]. split; [|reflexivity]. intros _.
    apply keyed_games_None in E as [g [Hg Hn]].
    apply first_games_In in Hg as [Hg _]. eauto.
Qed.

(** X7: loading again what [load_games] returned gives it back unchanged:
    it has no duplicate ID left and is already in order. *)
Theorem load_games_is_idempotent :
  forall files games,
    snd (load_games py_int files) = Some games ->
    forall name,
      load_games py_int [(name, games)] =
      ([Reading name; GamesLoaded (length games)], Some games).
Proof.
  intros files games H name.
  destruct (load_games_Some files games H) as [_ [Hk [Hperm [Hall _]]]].
  assert (Hnd : NoDup (map gameID games)).
  { apply (Permutation_NoDup (Permutation_sym (Permutation_map gameID Hperm))).
    apply first_games_NoDup. }
  unfold load_games. simpl. rewrite app_nil_r, unique_games_first.
  rewrite first_games_distinct by exact Hnd.
  rewrite keyed_games_total.
  - rewrite sort_by_key_fixed.
    + now rewrite map_snd_keyed.
    + rewrite Hk. apply sort_by_key_sorted.
  - intros g Hin. apply Hall. now apply (Permutation_in _ Hperm).
Qed.
End LoadGames.

(** X4 on [two_files]: the second record of game 1 is dropped. *)
Lemma load_games_keeps_first_game_of_each_id_witness :
  snd (load_games decimal_int two_files) = Some [game_b; game_a; game_c] /\
  find (has_id (KStr "1")) (flat_map snd two_files) = Some game_b.
Proof.
  split; [reflexivity|].
  destruct (load_games_keeps_first_game_of_each_id
              decimal_int two_files [game_b; game_a; game_c] eq_refl)
    as [_ [_ H]].
  apply (H game_b). now left.
Defined.

(** X5 on [two_files]: 1, 2, 10 in numeric order, three games loaded. *)
Lemma load_games_sorts_by_integer_id_witness :
  map (sort_key decimal_int) [game_b; game_a; game_c] = [1; 2; 10] /\
  fst (load_games decimal_int two_files) =
    [Reading "a.json"; Reading "b.json"; GamesLoaded 3].
Proof.
  split; [reflexivity|].
  destruct (load_games_sorts_by_integer_id
              decimal_int two_files [game_b; game_a; game_c] eq_refl)
    as [_ [_ [_ [H _]]]].
  exact H.
Defined.

(** X7 on [two_files]. *)
Lemma load_games_is_idempotent_witness :
  load_games decimal_int [("again.json"%string, [game_b; game_a; game_c])] =
  ([Reading "again.json"; GamesLoaded 3], Some [game_b; game_a; game_c]).
Proof.
  exact (load_games_is_idempotent decimal_int two_files
           [game_b; game_a; game_c] eq_refl "again.json"%string).
Defined.

(** ** The rankings [main] builds (lines 115-117) *)

Section GameResults.
Variable py_int : pykey -> option Z.
Variable py_str : pykey -> string.

Lemma user_key_truthy u : truthy (user_key py_str u) = true.
Proof.
  unfold user_key. simpl. destruct (py_str (username u)); reflexivity.
Qed.

Lemma user_key_real u : user_key py_str u <> anchor.
Proof. discriminate. Qed.

Lemma fold_bind_user_None l : fold_left (bind_user py_int py_str) l None = None.
Proof. induction l as [|u l IH]; simpl; auto. Qed.

Lemma find_app_last {A} (p : A -> bool) l a :
  find p (l ++ [a]) =
  match find p l with
  | Some x => Some x
  | None => if p a then Some a else None
  end.
Proof.
  induction l as [|b l IH]; simpl; [reflexivity|].
  destruct (p b); [reflexivity | exact IH].
Qed.

Lemma fold_bind_user l :
  forall d r,
    fold_left (bind_user py_int py_str) l (Some d) = Some r ->
    NoDup (keys d) ->
    NoDup (keys r) /\
    (forall k, In k (keys r) <->
               In k (keys d) \/ exists u, In u l /\ user_key py_str u = k) /\
    (forall k, dict_get k r =
               match find (listed_as py_str k) (rev l) with
               | Some u => py_int (rank u)
               | None => dict_get k d
               end).
Proof.
  induction l as [|u l IH]; intros d r; simpl.
  - intros [= <-] Hnd. split; [exact Hnd|]. split; [|reflexivity].
    intro k. split; [auto|]. intros [H|[u [[] _]]]. exact H.
  - destruct (py_int (rank u)) as [ru|] eqn:Er;
      [|rewrite fold_bind_user_None; discriminate].
    intros H Hnd.
    destruct (IH _ _ H (dict_set_NoDup d (user_key py_str u) ru Hnd))
      as [Hnd' [Hkeys Hget]].
    split; [exact Hnd'|]. split.
    + intro k. rewrite Hkeys, dict_set_keys_In. split.
      * intros [[->|Hd]|[u' [Hu' Hk]]]; eauto.
      * intros [Hd|[u' [[->|Hu'] Hk]]]; eauto.
    + intro k. rewrite Hget, find_app_last.
      destruct (find (listed_as py_str k) (rev l)); [reflexivity|].
      rewrite dict_get_set. unfold listed_as.
      destruct (pykey_eq_dec k (user_key py_str u)); [now rewrite Er | reflexivity].
Qed.

(** X8: the ranking [main] builds for a game has one entry per distinct
    formatted name; a name listed more than once keeps its first place in
    the dictionary and the rank listed LAST; the ranking exists exactly when
    [int] accepts every rank of the game. *)
Theorem game_ranking_keeps_last_rank_of_a_name :
  forall g : game_record,
    (game_ranking py_int py_str g = None <->
     exists u, In u (users g) /\ py_int (rank u) = None) /\
    (forall r, game_ranking py_int py_str g = Some r ->
       NoDup (keys r) /\
       (forall k, In k (keys r) <->
                  exists u, In u (users g) /\ user_key py_str u = k) /\
       (forall k, dict_get k r =
                  match find (listed_as py_str k) (rev (users g)) with
                  | Some u => py_int (rank u)
                  | None => None
                  end)).
Proof.
  intro g. unfold game_ranking. fold (bind_user py_int py_str). split.
  - assert (G : forall l d,
      fold_left (bind_user py_int py_str) l (Some d) = None <->
      exists u, In u l /\ py_int (rank u) = None).
    { induction l as [|u l IH]; intro d; simpl.
      - split; [discriminate | intros [? [[] _]]].
      - destruct (py_int (rank u)) as [ru|] eqn:Er.
        + rewrite IH. split; intros [u' [Hu' Hn]]; eauto.
          destruct Hu' as [->|Hu']; [congruence | eauto].
        + rewrite fold_bind_user_None. split; eauto. }
    apply G.
  - intros r H. destruct (fold_bind_user _ _ _ H (NoDup_nil _)) as [Hnd [Hk Hget]].
    split; [exact Hnd|]. split; [|exact Hget].
    intro k. rewrite Hk. simpl. tauto.
Qed.

Lemma game_results_of_Some games rs :
  game_results_of py_int py_str games = Some rs ->
  length rs = length games /\
  forall r, In r rs -> exists g, In g games /\ game_ranking py_int py_str g = Some r.
Proof.
  revert rs; induction games as [|g games IH]; intro rs; simpl.
  - intros [= <-]. split; [reflexivity | intros ? []].
  - destruct (game_ranking py_int py_str g) as [r|] eqn:Er; [|discriminate].
    destruct (game_results_of py_int py_str games) as [rs'|]; [|discriminate].
    intros [= <-]. destruct (IH rs' eq_refl) as [Hlen Hin]. split; [simpl; lia|].
    intros r' [E|Hr'].
    + subst r'. exists g. split; [now left | exact Er].
    + destruct (Hin r' Hr') as [g' [Hg' E]]. exists g'. split; [now right | exact E].
Qed.

(** X9: the corpus [main] builds has one ranking per game loaded, each a
    dictionary with distinct keys that are non-empty strings: no key is
    falsy and none is the key [0] of the fake player, so the fake rankings
    added later never collide with a competitor. *)
Theorem main_corpus_has_string_keys :
  forall games rs,
    game_results_of py_int py_str games = Some rs ->
    length rs = length games /\
    Forall (fun r : ranking => NoDup (keys r)) rs /\
    (forall r k, In r rs -> In k (keys r) ->
                 truthy k = true /\ k <> anchor /\ exists s, k = KStr s).
Proof.
  intros games rs H. destruct (game_results_of_Some games rs H) as [Hlen Hin].
  split; [exact Hlen|]. split.
  - apply Forall_forall. intros r Hr. destruct (Hin r Hr) as [g [_ Hg]].
    unfold game_ranking in Hg. fold (bind_user py_int py_str) in Hg.
    now destruct (fold_bind_user _ _ _ Hg (NoDup_nil _)).
  - intros r k Hr Hk. destruct (Hin r Hr) as [g [_ Hg]].
    unfold game_ranking in Hg. fold (bind_user py_int py_str) in Hg.
    destruct (fold_bind_user _ _ _ Hg (NoDup_nil _)) as [_ [Hkeys _]].
    apply (Hkeys k) in Hk. destruct Hk as [[]|[u [_ E]]]. rewrite <- E.
    split; [apply user_key_truthy|]. split; [apply user_key_real|].
    unfold user_key. eauto.
Qed.
End GameResults.

(** X9 on the games of [two_files]: "ann (7)" is listed twice in game 10
    and keeps rank 3. *)
Lemma main_corpus_has_string_keys_witness :
  game_results_of decimal_int plain_str [game_b; game_a; game_c] =
  Some [[(KStr "bob (8)", 1); (KStr "ann (7)", 2)];
        [(KStr "ann (7)", 1); (KStr "bob (8)", 2)];
        [(KStr "ann (7)", 3); (KStr "cy (9)", 2)]] /\
  Forall (fun r : ranking => NoDup (keys r))
         [[(KStr "bob (8)", 1); (KStr "ann (7)", 2)];
          [(KStr "ann (7)", 1); (KStr "bob (8)", 2)];
          [(KStr "ann (7)", 3); (KStr "cy (9)", 2)]].
Proof.
  split; [reflexivity|].
  apply (main_corpus_has_string_keys decimal_int plain_str
           [game_b; game_a; game_c] _ eq_refl).
Defined.

(** ** More on the estimator *)

Lemma Qc_div_pos (x y : Qc) : (0 < x -> 0 < y -> 0 < x / y)%Qc.
Proof.
  intros Hx Hy. unfold Qcdiv. apply Qc_mul_pos; [exact Hx | now apply Qc_inv_pos].
Qed.

Lemma Qc_inv_nonneg (x : Qc) : (0 <= x -> 0 <= 1 / x)%Qc.
Proof.
  intro H. unfold Qcdiv. rewrite Qcmult_1_l.
  apply Qcle_lt_or_eq in H as [H|<-].
  - now apply Qclt_le_weak, Qc_inv_pos.
  - apply Qcle_refl.
Qed.

Lemma gamma_at_nonneg g k : all_positive g -> (0 <= gamma_at g k)%Qc.
Proof.
  intro H. unfold gamma_at. destruct (dict_get k g) as [v|] eqn:E.
  - apply Qclt_le_weak. eapply H; eauto.
  - apply Qcle_refl.
Qed.

Lemma remaining_sum_nonneg g r place :
  all_positive g -> (0 <= remaining_sum g r place)%Qc.
Proof.
  intro H. unfold remaining_sum. apply pysum_nonneg. intros x Hx.
  apply in_map_iff in Hx as [fp [<- _]]. now apply gamma_at_nonneg.
Qed.

Lemma pysum_member_le l x :
  (forall y, In y l -> (0 <= y)%Qc) -> In x l -> (x <= pysum l)%Qc.
Proof.
  induction l as [|y l IH]; intros Hp Hin; [destruct Hin|].
  rewrite pysum_cons. destruct Hin as [->|Hin].
  - assert (H : (0 <= pysum l)%Qc) by (apply pysum_nonneg; intros; apply Hp; now right).
    q_of_qc. lra.
  - assert (H : (x <= pysum l)%Qc) by (apply IH; auto; intros; apply Hp; now right).
    assert (Hy : (0 <= y)%Qc) by (apply Hp; now left).
    q_of_qc. lra.
Qed.

(** With positive gammas the denominator of a participant is positive. *)
Lemma denom_each_participant_pos g rankings p :
  all_positive g -> covers g rankings ->
  In p (flat_map keys rankings) ->
  (0 < denom_each_participant g rankings p)%Qc.
Proof.
  intros Hpos Hcov Hp. apply in_flat_map in Hp as [r [Hr Hk]].
  destruct (dict_get p r) as [pos|] eqn:Ep;
    [|apply dict_get_None in Ep; contradiction].
  unfold denom_each_participant, denom_over.
  assert (Hinner : forall r' pos', dict_get p r' = Some pos' ->
    forall y, In y (map (fun place => (1 / remaining_sum g r' place)%Qc)
                        (filter (fun place => pos' >=? place) (values r'))) ->
              (0 <= y)%Qc).
  { intros r' pos' _ y Hy. apply in_map_iff in Hy as [place [<- _]].
    now apply Qc_inv_nonneg, remaining_sum_nonneg. }
  apply pysum_pos with
    (x := pysum (map (fun place => (1 / remaining_sum g r place)%Qc)
                     (filter (fun place => pos >=? place) (values r)))).
  - intros y Hy. apply in_map_iff in Hy as [r' [<- _]].
    destruct (dict_get p r') as [pos'|] eqn:E'; [|apply Qcle_refl].
    apply pysum_nonneg. now apply (Hinner r' pos').
  - apply in_map_iff. exists r. rewrite Ep. split; [reflexivity|].
    apply filter_In. split; [exact Hr|]. unfold contains. now rewrite Ep.
  - apply pysum_pos with (x := (1 / remaining_sum g r pos)%Qc).
    + now apply (Hinner r pos).
    + apply in_map_iff. exists pos. split; [reflexivity|].
      apply filter_In. split.
      * apply dict_get_In in Ep. change pos with (snd (p, pos)). now apply in_map.
      * rewrite Z.geb_leb. apply Z.leb_refl.
    + destruct (remaining_total g r pos p pos Hpos) as [s [Hs Hs0]]; auto.
      * intros k Hk'. now apply (Hcov r).
      * rewrite Z.geb_leb. apply Z.leb_refl.
      * apply remaining_Ok in Hs. subst s.
        apply Qc_div_pos; [|exact Hs0]. q_of_qc. lra.
Qed.

Section EstimatorFacts.
Context {SO : SetOrder}.
Variable rankings : list ranking.

Let players := players_of rankings.
Let ws := ws_of rankings.

Lemma players_in_corpus p : In p players <-> In p (flat_map keys rankings).
Proof. apply set_list_In. Qed.

Lemma keyed_covers g : keys g = players -> covers g rankings.
Proof.
  intros Hk r k Hr Hin Hn. apply dict_get_None in Hn. apply Hn.
  rewrite Hk. apply players_in_corpus. apply in_flat_map. eauto.
Qed.

Lemma iterate_positive st :
  all_positive (gammas st) -> keys (gammas st) = players ->
  exists st',
    iterate rankings players ws st = Ok st' /\
    gammas st' = next_gammas rankings (gammas st).
Proof.
  intros Hpos Hk. pose proof (keyed_covers _ Hk) as Hcov.
  unfold iterate, denoms_of.
  rewrite (mapM_keyed_pure _ (denom_each_participant (gammas st) rankings)).
  2:{ intros p _. destruct (denom_total (gammas st) rankings p Hpos Hcov) as [d Hd].
      rewrite Hd. f_equal. now apply denom_Ok. }
  simpl. unfold update.
  rewrite (mapM_keyed_pure _
             (fun p => (of_Z (counter_get ws p)
                        / denom_each_participant (gammas st) rankings p)%Qc)).
  2:{ intros p Hp. unfold dict_item. rewrite dict_get_keyed by exact Hp. simpl.
      apply pydiv_Ok, Qc_pos_neq, denom_each_participant_pos; auto.
      now apply players_in_corpus. }
  simpl.
  change (map (fun p => (p, (of_Z (counter_get ws p)
                             / denom_each_participant (gammas st) rankings p)%Qc))
              players)
    with (next_gammas rankings (gammas st)).
  destruct (sumM_total
              (fun pg : pykey * num =>
                 o <- dict_item (gammas st) (fst pg) ;;
                 Ok ((snd pg - o) * (snd pg - o))%Qc)
              (next_gammas rankings (gammas st))) as [gd Hgd].
  { intros [p x] Hin. apply in_map_iff in Hin as [q [[= <- <-] Hq]]. simpl.
    unfold dict_item.
    destruct (dict_get q (gammas st)) eqn:E; [simpl; eauto|].
    apply dict_get_None in E. exfalso. apply E. now rewrite Hk. }
  unfold gdiff_of. rewrite Hgd. simpl. eexists. split; reflexivity.
Qed.

Lemma next_gammas_keys g : keys (next_gammas rankings g) = players.
Proof. unfold next_gammas, keys. rewrite map_map. simpl. apply map_id. Qed.

Lemma initial_state_Ok :
  players <> [] ->
  exists st0,
    initial_state players = Ok st0 /\
    gammas st0 = const_dict players (1 / of_nat (length players))%Qc /\
    gdiff st0 = of_Z 10 /\ iteration st0 = 0 /\ out st0 = [].
Proof.
  intro Hne.
  assert (Hn : of_nat (length players) <> 0%Qc).
  { apply Qc_pos_neq, of_nat_pos. destruct players; [congruence | simpl; lia]. }
  unfold initial_state, initial_gammas.
  rewrite (mapM_keyed_pure _ (fun _ => (1 / of_nat (length players))%Qc)).
  - simpl. eexists. repeat split; reflexivity.
  - intros p _. now apply pydiv_Ok.
Qed.

Lemma initial_gammas_positive :
  players <> [] ->
  all_positive (const_dict players (1 / of_nat (length players))%Qc).
Proof.
  intros Hne k v Hget. apply dict_get_In in Hget.
  apply in_map_iff in Hget as [p [[= <- <-] _]].
  apply Qc_div_pos; [q_of_qc; lra|].
  apply of_nat_pos. destruct players; [congruence | simpl; lia].
Qed.

Lemma const_dict_keys l c : keys (const_dict l c) = l.
Proof. unfold const_dict, keys. rewrite map_map. simpl. apply map_id. Qed.

End EstimatorFacts.

Lemma initial_state_fields players st0 :
  initial_state players = Ok st0 ->
  keys (gammas st0) = players /\ gdiff st0 = of_Z 10 /\
  iteration st0 = 0 /\ out st0 = [].
Proof.
  unfold initial_state. intro H. apply bind_Ok in H as [g [Hg [= <-]]]. simpl.
  split; [|auto]. unfold initial_gammas in Hg. now apply mapM_keyed in Hg.
Qed.

Lemma iterations_effect rankings players ws n :
  forall st st',
    iterations n rankings players ws st = Ok st' ->
    iteration st' = iteration st + Z.of_nat n /\
    ((1 <= n)%nat -> keys (gammas st') = players).
Proof.
  induction n as [|n IH]; intros st st' H.
  - injection H as <-. split; [lia | intro; lia].
  - simpl in H. apply bind_Ok in H as [st1 [H1 H2]].
    destruct (IH _ _ H2) as [Hi Hk].
    pose proof (iterate_fields rankings players ws st st1 H1) as [_ [_ [Hi1 _]]].
    split; [lia|]. intros _. destruct n as [|n].
    + injection H2 as <-. unfold iterate in H1.
      apply bind_Ok in H1 as [denoms [_ H1]].
      apply bind_Ok in H1 as [new [Hn H1]].
      apply bind_Ok in H1 as [gd [_ [= <-]]]. simpl.
      unfold update in Hn. now apply mapM_keyed in Hn.
    + apply Hk. lia.
Qed.

Lemma ten_above_tolerance : gtb (of_Z 10) tolerance = true.
Proof. reflexivity. Qed.

(** X10: when [plackett_luce] returns, the loop body has run at least once
    (the initial [gdiff] is 10), the last [gdiff] is at most 1e-9, and the
    dictionary returned has exactly one gamma per player of the corpus: no
    player is missing and no other key is present. *)
Theorem estimator_returns_one_gamma_per_player {SO : SetOrder} :
  forall fuel rankings st,
    plackett_luce_run fuel rankings = Returned st ->
    keys (gammas st) = players_of rankings /\
    (forall k, In k (keys (gammas st)) <-> In k (flat_map keys rankings)) /\
    NoDup (keys (gammas st)) /\
    1 <= iteration st <= Z.of_nat fuel /\
    (gdiff st <= tolerance)%Qc /\
    plackett_luce fuel rankings = Returned (gammas st).
Proof.
  intros fuel rankings st H.
  assert (Hpl : plackett_luce fuel rankings = Returned (gammas st))
    by (unfold plackett_luce; now rewrite H).
  unfold plackett_luce_run in H.
  destruct (initial_state (players_of rankings)) as [st0|e] eqn:E0; [|discriminate].
  destruct (initial_state_fields _ _ E0) as [_ [Hgd0 [Hi0 _]]].
  destruct (pl_loop fuel rankings (players_of rankings) (ws_of rankings) st0)
    as [st1| |] eqn:El; try discriminate.
  injection H as <-. simpl.
  apply pl_loop_Returned in El as [n [Hn [Hit [Hle _]]]].
  assert (Hn1 : (1 <= n)%nat).
  { destruct n as [|n]; [|lia]. injection Hit as <-. exfalso.
    rewrite Hgd0 in Hle. pose proof ten_above_tolerance as G.
    apply gtb_true in G. revert Hle. now apply Qclt_not_le. }
  destruct (iterations_effect _ _ _ _ _ _ Hit) as [Hi Hk].
  specialize (Hk Hn1).
  split; [exact Hk|]. split; [|split; [|split; [|split]]]; auto.
  - intro k. rewrite Hk. apply set_list_In.
  - rewrite Hk. apply set_list_NoDup.
  - lia.
Qed.

(** X10 on [swapped_pair]. *)
Lemma estimator_returns_one_gamma_per_player_witness :
  exists st,
    @plackett_luce_run first_occurrence_order 40 (fake_games [KStr "A"]) = Returned st /\
    keys (gammas st) = [anchor; KStr "A"].
Proof.
  destruct (@plackett_luce_run first_occurrence_order 40 (fake_games [KStr "A"]))
    as [st| |] eqn:E.
  - exists st. split; [reflexivity|].
    exact (proj1 (@estimator_returns_one_gamma_per_player
                    first_occurrence_order 40 _ st E)).
  - vm_compute in E. discriminate E.
  - vm_compute in E. discriminate E.
Defined.

Lemma plackett_luce_keys {SO : SetOrder} fuel rankings g :
  plackett_luce fuel rankings = Returned g -> keys g = players_of rankings.
Proof.
  unfold plackett_luce. intro H.
  destruct (plackett_luce_run fuel rankings) as [st| |] eqn:E; try discriminate H.
  injection H as <-. unfold plackett_luce_run in E.
  destruct (initial_state (players_of rankings)) as [st0|e] eqn:E0; [|discriminate].
  destruct (initial_state_fields _ _ E0) as [_ [Hgd0 _]].
  destruct (pl_loop fuel rankings (players_of rankings) (ws_of rankings) st0)
    as [st1| |] eqn:El; try discriminate.
  injection E as <-. simpl.
  apply pl_loop_Returned in El as [n [Hn [Hit [Hle _]]]].
  destruct (iterations_effect _ _ _ _ _ _ Hit) as [_ Hk]. apply Hk.
  destruct n as [|n]; [|lia]. injection Hit as <-. exfalso.
  rewrite Hgd0 in Hle. pose proof ten_above_tolerance as G.
  apply gtb_true in G. revert Hle. now apply Qclt_not_le.
Qed.

(** *** A player who never avoids last place *)

Lemma mapM_Raise_inv {A B} (f : A -> result B) l e :
  mapM f l = Raise e -> exists a, In a l /\ f a = Raise e.
Proof.
  induction l as [|a l IH]; simpl; [discriminate|].
  destruct (f a) as [b|e'] eqn:Ea; simpl.
  - destruct (mapM f l) as [bs|e'] eqn:Em; simpl; [discriminate|].
    intros [= <-]. destruct (IH eq_refl) as [a' [Ha' Hf]]. eauto.
  - intros [= <-]. eauto.
Qed.

Lemma mapM_Raise_exists {A B} (f : A -> result B) l a e :
  In a l -> f a = Raise e -> exists e', mapM f l = Raise e'.
Proof.
  induction l as [|b l IH]; simpl; intros Hin Hf; [destruct Hin|].
  destruct (f b) as [y|e1] eqn:Eb; simpl; [|eauto].
  destruct Hin as [->|Hin]; [congruence|].
  destruct (IH Hin Hf) as [e' ->]. simpl. eauto.
Qed.

Lemma sumM_Raise_inv {A} (f : A -> result num) l e :
  sumM f l = Raise e -> exists a, In a l /\ f a = Raise e.
Proof.
  unfold sumM. destruct (mapM f l) as [xs|e'] eqn:E; simpl; [discriminate|].
  intros [= <-]. now apply mapM_Raise_inv.
Qed.

Lemma sumM_Raise_exists {A} (f : A -> result num) l a e :
  In a l -> f a = Raise e -> exists e', sumM f l = Raise e'.
Proof.
  intros Hin Hf. unfold sumM. destruct (mapM_Raise_exists f l a e Hin Hf) as [e' ->].
  simpl. eauto.
Qed.

(** With every participant in [g], line 26 can only raise a division by
    zero. *)
Lemma denom_raises_division g rankings p e :
  covers g rankings -> denom g rankings p = Raise e -> e = ZeroDivisionError.
Proof.
  intros Hcov H. unfold denom in H.
  apply sumM_Raise_inv in H as [r [Hr H]].
  apply sumM_Raise_inv in H as [place [_ H]].
  unfold term in H. destruct (dict_get p r) as [pos|]; [|discriminate].
  destruct (pos <? place); [discriminate|].
  destruct (remaining g r place) as [s|e'] eqn:Er; simpl in H.
  - unfold pydiv in H. destruct (Qc_eq_dec s 0); [now injection H | discriminate].
  - injection H as <-. unfold remaining in Er.
    apply sumM_Raise_inv in Er as [[k a] [Hin Hk]].
    apply filter_In in Hin as [Hin _]. simpl in Hk. unfold dict_item in Hk.
    destruct (dict_get k g) eqn:Eg; [discriminate|].
    exfalso. apply (Hcov r k Hr); [|exact Eg].
    change k with (fst (k, a)). now apply in_map.
Qed.

(** The term of the last place raises when its only holder has gamma 0. *)
Lemma term_raises_at_zero g r p pos :
  NoDup (keys r) -> dict_get p r = Some pos ->
  (forall q a, In (q, a) r -> q <> p -> a < pos) ->
  gamma_at g p = 0%Qc ->
  exists e, term g p r pos = Raise e.
Proof.
  intros Hnd Hp Hlast Hzero. unfold term. rewrite Hp, Z.ltb_irrefl.
  destruct (remaining g r pos) as [s|e] eqn:Er; simpl; [|eauto].
  apply remaining_Ok in Er. subst s. unfold remaining_sum.
  rewrite (pysum_zeros (fun fp => gamma_at g (fst fp))).
  - unfold pydiv. destruct (Qc_eq_dec 0 0); [eauto | congruence].
  - intros [q a] Hin. apply filter_In in Hin as [Hin Hge]. simpl in *.
    destruct (pykey_eq_dec q p) as [->|Hne]; [exact Hzero|].
    specialize (Hlast q a Hin Hne). rewrite Z.geb_leb in Hge.
    apply Z.leb_le in Hge. lia.
Qed.

Lemma sq_nonneg (x : Qc) : (0 <= sq x)%Qc.
Proof. unfold sq. q_of_qc. nra. Qed.

Lemma small_corpus_gdiff n :
  1 <= Z.of_nat n <= 31622 -> (tolerance < sq (0 - 1 / of_nat n))%Qc.
Proof.
  intros [H1 H2].
  assert (Hx : (0 < this (of_nat n))%Q).
  { pose proof (of_nat_pos n ltac:(lia)) as H. exact H. }
  assert (Hle : (this (of_nat n) <= 31622)%Q).
  { unfold of_nat, of_Z. cbn [this Q2Qc]. rewrite Qred_correct.
    change 31622%Q with (inject_Z 31622). rewrite <- Zle_Qle. lia. }
  unfold sq, tolerance. q_of_qc.
  set (x := this (of_nat n)) in *.
  assert (Hy : (0 < / x)%Q) by now apply Qinv_lt_0_compat.
  assert (E : (/ x * x == 1)%Q) by (rewrite Qmult_comm; apply Qmult_inv_r; lra).
  set (y := (/ x)%Q) in *.
  assert (H3 : (1 <= 31622 * y)%Q) by nra.
  nra.
Qed.

(** X12: the assumption of the docstring is needed, and its failure is a
    crash, not a divergence: in a corpus of at most 31622 players, a player
    who never finishes above last place ([finish < len(ranking)] in no
    ranking) and who is alone in the last place of some ranking gets gamma 0
    in the first iteration, and the second iteration raises
    [ZeroDivisionError]. *)
Theorem estimator_divides_by_zero_after_a_zero_win {SO : SetOrder} :
  forall (rankings : list ranking) (r : ranking) (p : pykey) (pos : Z) (fuel : nat),
    Forall (fun r' : ranking => NoDup (keys r')) rankings ->
    In r rankings ->
    dict_get p r = Some pos ->
    (forall q a, In (q, a) r -> q <> p -> a < pos) ->
    (forall r', In r' rankings -> not_last p r' = false) ->
    Z.of_nat (length (players_of rankings)) <= 31622 ->
    plackett_luce (S (S fuel)) rankings = Raised ZeroDivisionError.
Proof.
  intros rankings r p pos fuel Hnd Hr Hp Hlast Hnever Hsmall.
  set (players := players_of rankings).
  assert (Hpin : In p players).
  { apply set_list_In, in_flat_map. exists r. split; [exact Hr|].
    apply dict_get_In in Hp. change p with (fst (p, pos)). now apply in_map. }
  assert (Hne : players <> []) by (intro E; rewrite E in Hpin; destruct Hpin).
  destruct (initial_state_Ok rankings Hne) as [st0 [Hst0 [Hg0 [Hgd0 _]]]].
  fold players in Hst0, Hg0.
  assert (Hpos0 : all_positive (gammas st0))
    by (rewrite Hg0; now apply initial_gammas_positive).
  assert (Hk0 : keys (gammas st0) = players) by (rewrite Hg0; apply const_dict_keys).
  destruct (iterate_positive rankings st0 Hpos0 Hk0) as [st1 [Hit1 Hg1]].
  fold players in Hit1.
  (* the gamma of [p] after the first iteration *)
  assert (Hw : counter_get (ws_of rankings) p = 0).
  { rewrite ws_of_count by exact Hnd. unfold rankings_not_last.
    now rewrite filter_none. }
  assert (Hget : dict_get p (gammas st1) = Some 0%Qc).
  { rewrite Hg1. unfold next_gammas. fold players.
    rewrite (dict_get_keyed
               (fun q => (of_Z (counter_get (ws_of rankings) q)
                          / denom_each_participant (gammas st0) rankings q)%Qc))
      by exact Hpin.
    rewrite Hw. f_equal. change (of_Z 0) with 0%Qc. unfold Qcdiv. ring. }
  assert (Hzero : gamma_at (gammas st1) p = 0%Qc) by (unfold gamma_at; now rewrite Hget).
  assert (Hk1 : keys (gammas st1) = players)
    by (rewrite Hg1; apply next_gammas_keys).
  (* the first gdiff is above the tolerance *)
  assert (Hgd1 : gtb (gdiff st1) tolerance = true).
  { apply gtb_true.
    destruct (iterate_gammas rankings players (ws_of rankings)
                (set_list_NoDup _) st0 st1 Hit1) as [_ [_ Hgd]].
    rewrite Hgd.
    apply Qclt_le_trans with (sq (0 - 1 / of_nat (length players)))%Qc.
    - apply small_corpus_gdiff. split; [|exact Hsmall].
      destruct players; [congruence | simpl; lia].
    - apply pysum_member_le.
      + intros y Hy. apply in_map_iff in Hy as [pg [<- _]]. apply sq_nonneg.
      + apply in_map_iff. exists (p, 0%Qc). simpl. split.
        * rewrite Hg0, gamma_at_const by exact Hpin. reflexivity.
        * now apply dict_get_In. }
  (* the second iteration raises *)
  assert (Hdenom : exists e, denom (gammas st1) rankings p = Raise e).
  { rewrite Forall_forall in Hnd.
    destruct (term_raises_at_zero (gammas st1) r p pos (Hnd r Hr) Hp Hlast Hzero)
      as [e He].
    assert (Hin : In pos (values r)).
    { apply dict_get_In in Hp. change pos with (snd (p, pos)). now apply in_map. }
    destruct (sumM_Raise_exists (term (gammas st1) p r) (values r) pos e Hin He)
      as [e' He'].
    unfold denom.
    exact (sumM_Raise_exists
             (fun r0 => sumM (term (gammas st1) p r0) (values r0))
             rankings r e' Hr He'). }
  assert (Hit2 : iterate rankings players (ws_of rankings) st1
                 = Raise ZeroDivisionError).
  { unfold iterate, denoms_of. destruct Hdenom as [e He].
    destruct (mapM_Raise_exists
                (fun q => d <- denom (gammas st1) rankings q ;; Ok (q, d))
                players p e Hpin) as [e' He'].
    { now rewrite He. }
    rewrite He'. simpl. f_equal.
    apply mapM_Raise_inv in He' as [q [_ Hq]].
    destruct (denom (gammas st1) rankings q) as [d|e''] eqn:Ed; [discriminate|].
    injection Hq as <-.
    apply (denom_raises_division (gammas st1) rankings q); [|exact Ed].
    now apply keyed_covers. }
  unfold plackett_luce, plackett_luce_run. fold players. rewrite Hst0.
  change (pl_loop (S (S fuel)) rankings players (ws_of rankings) st0)
    with (if gtb (gdiff st0) tolerance
          then match iterate rankings players (ws_of rankings) st0 with
               | Ok s => pl_loop (S fuel) rankings players (ws_of rankings) s
               | Raise e => Raised e
               end
          else Returned st0).
  rewrite Hgd0, ten_above_tolerance, Hit1.
  change (pl_loop (S fuel) rankings players (ws_of rankings) st1)
    with (if gtb (gdiff st1) tolerance
          then match iterate rankings players (ws_of rankings) st1 with
               | Ok s => pl_loop fuel rankings players (ws_of rankings) s
               | Raise e => Raised e
               end
          else Returned st1).
  now rewrite Hgd1, Hit2.
Qed.

(** X12 on [one_game], where B is last. *)
Lemma estimator_divides_by_zero_after_a_zero_win_witness :
  @plackett_luce first_occurrence_order 2 one_game = Raised ZeroDivisionError.
Proof.
  apply (@estimator_divides_by_zero_after_a_zero_win first_occurrence_order
           one_game [(KStr "A", 1); (KStr "B", 2)] (KStr "B") 2 0%nat).
  - repeat constructor; simpl; intuition discriminate.
  - now left.
  - reflexivity.
  - intros q a [[= <- <-]|[[= <- <-]|[]]] Hq; [lia | congruence].
  - intros r' [<-|[]]. reflexivity.
  - simpl. lia.
Defined.

(** ** The whole of [main] after the rankings are built (lines 119-143) *)

Lemma insert_desc_Permutation x l : Permutation (insert_desc x l) (x :: l).
Proof.
  induction l as [|y l IH]; simpl; [reflexivity|].
  destruct (gtb (snd y) (snd x)); [|reflexivity].
  rewrite IH. apply perm_swap.
Qed.

Lemma sort_desc_Permutation l : Permutation (sort_desc l) l.
Proof.
  induction l as [|x l IH]; simpl; [constructor|].
  rewrite insert_desc_Permutation. now constructor.
Qed.

Lemma firstn_In {A} n (l : list A) x : In x (firstn n l) -> In x l.
Proof.
  revert n; induction l as [|a l IH]; intros [|n]; simpl; try tauto.
  intros [->|H]; [now left | right; eauto].
Qed.

Lemma firstn_NoDup {A} n (l : list A) : NoDup l -> NoDup (firstn n l).
Proof.
  intro H. revert n. induction H as [|x l Hx Hnd IH]; intros [|n]; simpl;
    try constructor; auto.
  intro Hin. apply Hx. eapply firstn_In; eauto.
Qed.

Lemma dict_del_Permutation {V} (d : dict V) k v :
  dict_get k d = Some v -> Permutation d ((k, v) :: dict_del d k).
Proof.
  induction d as [|[k' v'] d IH]; simpl; [discriminate|].
  destruct (pykey_eq_dec k k') as [->|Hne].
  - now intros [= ->].
  - intro H. rewrite perm_swap. constructor. auto.
Qed.

Section MainFacts.
Context {SO : SetOrder}.
Variable game_results : list ranking.
Hypothesis real_competitors :
  forall r k, In r game_results -> In k (keys r) -> k <> anchor.

Let competitors := set_list (flat_map keys game_results).
Let corpus := augment game_results.

Lemma competitors_real p : In p competitors -> p <> anchor.
Proof.
  unfold competitors. rewrite set_list_In, in_flat_map. intros [r [Hr Hk]].
  now apply (real_competitors r).
Qed.

Lemma corpus_synthetic :
  corpus = game_results ++ flat_map synthetic_pair competitors.
Proof. unfold corpus, augment. f_equal. apply fake_games_pairs, competitors_real. Qed.

Lemma corpus_players p :
  In p (players_of corpus) <->
  In p competitors \/ (p = anchor /\ competitors <> []).
Proof.
  unfold players_of. rewrite set_list_In, corpus_synthetic, flat_map_app, in_app_iff.
  assert (Hc : In p (flat_map keys game_results) <-> In p competitors)
    by (symmetry; apply set_list_In).
  rewrite Hc. clear Hc. split.
  - intros [H|H]; [auto|]. apply in_flat_map in H as [r [Hr Hk]].
    apply in_flat_map in Hr as [q [Hq Hr]].
    assert (Hne : competitors <> []) by (intro E; rewrite E in Hq; destruct Hq).
    destruct Hr as [<-|[<-|[]]]; simpl in Hk; intuition (subst; auto).
  - intros [H|[-> Hne]]; [auto|]. right.
    destruct competitors as [|q l] eqn:E; [congruence|].
    apply in_flat_map. exists [(anchor, 1); (q, 2)]. split; [|simpl; auto].
    apply in_flat_map. exists q. split; [|simpl; auto]. now left.
Qed.

Lemma check_games_run_Ok : exists checked, check_games_run game_results = Ok checked.
Proof.
  destruct (check_games_run game_results) as [c|e] eqn:E; [eauto|].
  exfalso. assert (H : check_games game_results = Raise e)
    by (unfold check_games; now rewrite E).
  destruct (check_games_cases game_results) as [[_ H']|[_ H']]; congruence.
Qed.

(** The keys that post-processing keeps of gammas over the players of the
    augmented corpus; the values play no part. *)
Lemma post_process_keys g top :
  keys g = players_of corpus -> post_process g = Ok top ->
  competitors <> [] /\
  length top = Nat.min cutoff (length competitors) /\
  NoDup (map fst top) /\
  (forall k, In k (map fst top) -> In k competitors).
Proof.
  intros Hk Hpost. unfold post_process in Hpost.
  apply bind_Ok in Hpost as [va [Ha Hnorm]].
  apply normalize_ratings_keys in Hnorm.
  unfold dict_item in Ha.
  destruct (dict_get anchor g) as [va'|] eqn:Ea; [|discriminate Ha].
  assert (Hnd : NoDup (keys g)) by (rewrite Hk; apply set_list_NoDup).
  assert (Hne : competitors <> []).
  { apply dict_get_In in Ea. apply (in_map fst) in Ea. fold (keys g) in Ea.
    rewrite Hk in Ea. apply corpus_players in Ea as [Ea|[_ Hne]]; [|exact Hne].
    exfalso. now apply (competitors_real anchor). }
  pose proof (dict_del_Permutation g anchor va' Ea) as Hperm.
  set (rest := dict_del g anchor) in *.
  apply (Permutation_map fst) in Hperm. simpl in Hperm. fold (keys g) in Hperm.
  pose proof (Permutation_NoDup Hperm Hnd) as Hnd'.
  inversion Hnd' as [|? ? Hni Hndr]; subst.
  assert (Hrest_keys : Permutation (map fst rest) competitors).
  { apply NoDup_Permutation; [exact Hndr | apply set_list_NoDup |].
    intro k. split.
    - intro Hin. assert (Hg : In k (keys g)).
      { apply (Permutation_in _ (Permutation_sym Hperm)). now right. }
      rewrite Hk in Hg. apply corpus_players in Hg as [Hg|[-> _]]; [exact Hg|].
      contradiction.
    - intro Hin. assert (Hg : In k (anchor :: map fst rest)).
      { apply (Permutation_in _ Hperm). rewrite Hk. apply corpus_players. auto. }
      destruct Hg as [<-|Hg]; [|exact Hg].
      exfalso. now apply (competitors_real anchor). }
  pose proof (Permutation_map fst (sort_desc_Permutation rest)) as Hsp.
  pose proof (Permutation_trans Hsp Hrest_keys) as Hsorted.
  rewrite <- firstn_map in Hnorm.
  split; [exact Hne|]. split; [|split].
  - rewrite <- (length_map fst top), Hnorm, length_firstn. f_equal.
    apply (Permutation_length Hsorted).
  - rewrite Hnorm. apply firstn_NoDup.
    apply (Permutation_NoDup (Permutation_sym Hsorted)), set_list_NoDup.
  - rewrite Hnorm. intros k Hin. apply (Permutation_in _ Hsorted).
    eapply firstn_In; eauto.
Qed.
End MainFacts.

(** X13: whenever [main] gets through the validator, the estimator and the
    post-processing on a corpus whose keys are not the key [0] of the fake
    player, it reports [min(20, number of competitors)] pairs, at least one,
    each for a different competitor of the corpus, and never the fake
    player. *)
Theorem main_reports_at_most_twenty_competitors {SO : SetOrder} :
  forall fuel game_results reports top,
    (forall r k, In r game_results -> In k (keys r) -> k <> anchor) ->
    main_ratings fuel game_results = Returned (reports, top) ->
    length top = Nat.min 20 (length (set_list (flat_map keys game_results))) /\
    top <> [] /\
    NoDup (map fst top) /\
    (forall k, In k (map fst top) -> In k (flat_map keys game_results)) /\
    ~ In anchor (map fst top).
Proof.
  intros fuel game_results reports top Hreal H. unfold main_ratings in H.
  destruct (check_games_run game_results) as [checked|e]; [|discriminate H].
  destruct (plackett_luce fuel (augment game_results)) as [g| |] eqn:Epl;
    try discriminate H.
  destruct (post_process g) as [top'|e] eqn:Epost; [|discriminate H].
  injection H as _ <-.
  apply plackett_luce_keys in Epl.
  destruct (post_process_keys game_results Hreal g top' Epl Epost)
    as [Hne [Hlen [Hnd Hin]]].
  assert (Hcomp : forall k, In k (map fst top') -> In k (flat_map keys game_results)).
  { intros k Hk. apply (set_list_In (flat_map keys game_results)). auto. }
  split; [exact Hlen|]. split; [|split; [exact Hnd|split; [exact Hcomp|]]].
  - intro E. rewrite E in Hlen. simpl in Hlen.
    destruct (set_list (flat_map keys game_results)); [congruence|].
    unfold cutoff in Hlen. simpl in Hlen. lia.
  - intro Ha. apply Hcomp, in_flat_map in Ha as [r [Hr Hk]].
    now apply (Hreal r anchor).
Qed.

Lemma swapped_pair_real :
  forall r k, In r swapped_pair -> In k (keys r) -> k <> anchor.
Proof.
  intros r k Hr Hk E. subst k. simpl in Hr.
  destruct Hr as [<-|[<-|[]]]; simpl in Hk; intuition discriminate.
Defined.

(** X13 on [swapped_pair]: A and B are reported. *)
Lemma main_reports_at_most_twenty_competitors_witness :
  exists reports top,
    @main_ratings first_occurrence_order 30 swapped_pair = Returned (reports, top) /\
    length top = 2%nat /\ NoDup (map fst top).
Proof.
  destruct (@main_ratings first_occurrence_order 30 swapped_pair)
    as [[reports top]| |] eqn:E.
  - exists reports, top. split; [reflexivity|].
    destruct (@main_reports_at_most_twenty_competitors first_occurrence_order
                30 swapped_pair reports top swapped_pair_real E)
      as [Hlen [_ [Hnd _]]].
    split; [exact Hlen | exact Hnd].
  - vm_compute in E. discriminate E.
  - vm_compute in E. discriminate E.
Defined.

(** X14: on a corpus without any competitor (no game, or only games without
    users) [main] fails at [del ratings[0]] with [KeyError(0)]: no fake game
    is added, the estimator returns the empty dictionary after one
    iteration, and the key of the fake player is not in it. *)
Theorem main_raises_key_error_without_competitors {SO : SetOrder} :
  forall fuel game_results,
    flat_map keys game_results = [] ->
    plackett_luce (S fuel) (augment game_results) = Returned [] /\
    main_ratings (S fuel) game_results = Raised (KeyError anchor).
Proof.
  intros fuel game_results Hnone.
  assert (Hset : set_list (flat_map keys game_results) = []).
  { rewrite Hnone. destruct (set_list []) as [|k l] eqn:E; [reflexivity|].
    assert (Hin : In k (set_list [])) by (rewrite E; now left).
    apply (proj1 (set_list_In _ _)) in Hin. destruct Hin. }
  assert (Haug : augment game_results = game_results).
  { unfold augment. rewrite Hset. simpl. apply app_nil_r. }
  assert (Hpl : plackett_luce (S fuel) (augment game_results) = Returned []).
  { rewrite Haug. unfold plackett_luce, plackett_luce_run, players_of.
    rewrite Hset. simpl.
    change (gtb (of_Z 10) tolerance) with true. cbv iota.
    unfold iterate. simpl. unfold gdiff_of, sumM. simpl.
    destruct fuel; simpl; reflexivity. }
  split; [exact Hpl|]. unfold main_ratings.
  destruct (check_games_run_Ok game_results) as [checked ->].
  rewrite Hpl. reflexivity.
Qed.

(** X14 on the corpus of one game without users. *)
Lemma main_raises_key_error_without_competitors_witness :
  @main_ratings first_occurrence_order 1 [[]] = Raised (KeyError anchor).
Proof.
  exact (proj2 (@main_raises_key_error_without_competitors first_occurrence_order
                  0%nat [[]] eq_refl)).
Defined.

(** ** What the lists of [check_games] say about the corpus *)

(** A loss mark comes from a position worse than 1. *)
Lemma loss_mark_origin game s u :
  loss_flag (pc (fold_left visit game s)) u = 0 ->
  loss_flag (pc s) u = 0 \/ exists a, In (u, a) game /\ 1 < a.
Proof.
  revert s; induction game as [|[k r] game IH]; intros s H; simpl in *; [auto|].
  apply IH in H as [H|[a [Hin Ha]]]; [|right; eauto].
  rewrite visit_loss_flag in H. destruct (r >? 1) eqn:G; [|auto].
  destruct (pykey_eq_dec u k) as [->|]; [|auto].
  right. exists r. split; [now left | now apply Z.gtb_lt].
Qed.

Lemma visit_holder_ok s seen k r :
  0 <= r -> holder_ok s seen -> holder_ok (visit s (k, r)) (seen ++ [(k, r)]).
Proof.
  intros Hr [H0 [Hm Hex]]. unfold holder_ok.
  rewrite visit_max_rank, visit_max_user.
  destruct (r >? max_rank s) eqn:G.
  - apply Z.gtb_lt in G. rewrite Z.max_r by lia. repeat split; [lia | | eauto].
    intros m [= <-]. apply in_or_app. right. now left.
  - rewrite Z.gtb_ltb in G. apply Z.ltb_ge in G. rewrite Z.max_l by lia.
    repeat split; [exact H0 | | exact Hex].
    intros m Hmu. apply in_or_app. left. auto.
Qed.

(** With positions from 0, a win mark comes from two participants of the
    ranking, the marked one at the better position. *)
Lemma win_mark_origin game :
  (forall k r, In (k, r) game -> 0 <= r) ->
  forall s seen u,
    holder_ok s seen ->
    win_flag (pc (fold_left visit game s)) u = 0 ->
    win_flag (pc s) u = 0 \/
    exists a v b, In (u, a) (seen ++ game) /\ In (v, b) (seen ++ game) /\ a < b.
Proof.
  induction game as [|[k r] game IH]; intros Hpos s seen u Hs H; simpl in *; [auto|].
  assert (Hr : 0 <= r) by (apply (Hpos k); now left).
  assert (Hstep : seen ++ (k, r) :: game = (seen ++ [(k, r)]) ++ game)
    by (rewrite <- app_assoc; reflexivity).
  apply (IH (fun k' r' Hin => Hpos k' r' (or_intror Hin)) _ (seen ++ [(k, r)])) in H;
    [|now apply visit_holder_ok].
  rewrite Hstep. destruct H as [H|H]; [|auto].
  rewrite visit_win_flag in H. destruct Hs as [H0 [Hm Hex]].
  destruct (r >? max_rank s) eqn:G.
  - destruct (max_user s) as [m|] eqn:Em; [|auto].
    destruct (truthy m); [|auto].
    destruct (pykey_eq_dec u m) as [->|]; [|auto].
    right. exists (max_rank s), k, r. apply Z.gtb_lt in G.
    repeat split; [| |lia]; apply in_or_app; left; apply in_or_app.
    + left. now apply Hm.
    + right. now left.
  - destruct (r <? max_rank s) eqn:L; [|auto].
    destruct (pykey_eq_dec u k) as [->|]; [|auto].
    apply Z.ltb_lt in L. destruct Hex as [m Em]; [lia|].
    right. exists r, m, (max_rank s).
    repeat split; [| |lia]; apply in_or_app; left; apply in_or_app.
    + right. now left.
    + left. now apply Hm.
Qed.

Lemma scan_games_loss_origin games u :
  loss_flag (scan_games games) u = 0 ->
  exists r a, In r games /\ In (u, a) r /\ 1 < a.
Proof.
  unfold scan_games.
  assert (G : forall pc0,
    loss_flag (fold_left (fun pc1 game => pc (scan_game pc1 game)) games pc0) u = 0 ->
    loss_flag pc0 u = 0 \/ exists r a, In r games /\ In (u, a) r /\ 1 < a).
  { induction games as [|g games IH]; intros pc0 H; simpl in *; [auto|].
    apply IH in H as [H|[r [a [Hr Ha]]]]; [|right; exists r, a; tauto].
    unfold scan_game in H. apply loss_mark_origin in H as [H|[a Ha]]; [auto|].
    right. exists g, a. tauto. }
  intro H. apply G in H as [H|H]; [discriminate H | exact H].
Qed.

Lemma scan_games_win_origin games u :
  (forall r k a, In r games -> In (k, a) r -> 0 <= a) ->
  win_flag (scan_games games) u = 0 ->
  exists r a v b, In r games /\ In (u, a) r /\ In (v, b) r /\ a < b.
Proof.
  unfold scan_games. intro Hpos.
  assert (G : forall pc0,
    win_flag (fold_left (fun pc1 game => pc (scan_game pc1 game)) games pc0) u = 0 ->
    win_flag pc0 u = 0 \/
    exists r a v b, In r games /\ In (u, a) r /\ In (v, b) r /\ a < b).
  { induction games as [|g games IH]; intros pc0 H; simpl in *; [auto|].
    assert (Hpos' : forall r k a, In r games -> In (k, a) r -> 0 <= a)
      by (intros r k a Hr; apply Hpos; now right).
    apply (IH Hpos') in H as [H|[r [a [v [b [Hr Hab]]]]]];
      [| right; exists r, a, v, b; tauto].
    unfold scan_game in H.
    apply (win_mark_origin g (fun k a => Hpos g k a (or_introl eq_refl)) _ []) in H
      as [H|[a [v [b Hab]]]]; [auto | |].
    - right. exists g, a, v, b. simpl in Hab. tauto.
    - unfold holder_ok. simpl. repeat split; [lia | discriminate | lia]. }
  intro H. apply G in H as [H|H]; [discriminate H | exact H].
Qed.

(** The two lists, read off the final statistics. *)
Lemma check_games_lists games ws ls :
  check_games games = Ok (Lists ws ls) ->
  (forall p, In p ws <->
             win_flag (scan_games games) p = 0 /\ loss_flag (scan_games games) p = 1 /\
             In p (keys (scan_games games))) /\
  (forall p, In p ls <->
             win_flag (scan_games games) p = 1 /\ loss_flag (scan_games games) p = 0 /\
             In p (keys (scan_games games))).
Proof.
  intro Hc.
  destruct (check_games_cases games) as [[_ E]|[_ E]]; rewrite E in Hc; [discriminate|].
  injection Hc as <- <-.
  destruct (scan_games_ok games) as [Hnd Hok].
  assert (Hentry : forall p wl, In (p, wl) (scan_games games) ->
                   dict_get p (scan_games games) = Some wl /\ entry_ok wl).
  { intros p wl Hin. pose proof (dict_get_NoDup _ _ _ Hnd Hin) as Hg.
    split; [exact Hg | exact (Hok p wl Hg)]. }
  split; intro p; unfold keys at 1; rewrite in_map_iff; split.
  - intros [[u wl] [<- Hin]]. apply filter_In in Hin as [Hin F].
    destruct (Hentry u wl Hin) as [Hg He]. unfold win_flag, loss_flag. simpl.
    rewrite Hg. split; [|split].
    + destruct He as [-> | [-> | ->]]; [reflexivity | reflexivity | discriminate F].
    + destruct He as [-> | [-> | ->]]; [discriminate F | reflexivity | discriminate F].
    + change u with (fst (u, wl)). now apply in_map.
  - intros [Hw [Hl Hin]]. unfold win_flag, loss_flag in Hw, Hl.
    destruct (dict_get p (scan_games games)) as [[w l]|] eqn:Hg;
      [|apply dict_get_None in Hg; contradiction].
    simpl in Hw, Hl. subst w l. exists (p, (0, 1)). split; [reflexivity|].
    apply filter_In. split; [now apply dict_get_In | reflexivity].
  - intros [[u wl] [<- Hin]]. apply filter_In in Hin as [Hin F].
    destruct (Hentry u wl Hin) as [Hg He]. unfold win_flag, loss_flag. simpl.
    rewrite Hg. split; [|split].
    + destruct He as [-> | [-> | ->]]; [discriminate F | discriminate F | reflexivity].
    + destruct He as [-> | [-> | ->]]; [discriminate F | discriminate F | reflexivity].
    + change u with (fst (u, wl)). now apply in_map.
  - intros [Hw [Hl Hin]]. unfold win_flag, loss_flag in Hw, Hl.
    destruct (dict_get p (scan_games games)) as [[w l]|] eqn:Hg;
      [|apply dict_get_None in Hg; contradiction].
    simpl in Hw, Hl. subst w l. exists (p, (1, 0)). split; [reflexivity|].
    apply filter_In. split; [now apply dict_get_In | reflexivity].
Qed.

Lemma loss_in_corpus games r u a :
  In r games -> In (u, a) r -> 1 < a -> loss_flag (scan_games games) u = 0.
Proof.
  intros Hr Hin Ha. unfold scan_games.
  apply (cleared_in_corpus u loss_flag) with (r := r); auto.
  - intros; now apply fold_visit_loss_mono.
  - intro pc0. now apply (loss_detected r _ u a).
Qed.

(** X15: what the two lists of [check_games] mean. A player returned in the
    first list (printed "has no loss") takes part in the corpus and is at
    position 1 or better in every game it plays; a player returned in the
    second list ("has no win") is at a position worse than 1 in some game;
    and when no position of the corpus is negative, a player of the first
    list is, in some game, at a better position than another participant. *)
Theorem validator_lists_are_sound :
  forall games ws ls,
    check_games games = Ok (Lists ws ls) ->
    (forall p, In p ws ->
       In p (flat_map keys games) /\
       (forall r a, In r games -> In (p, a) r -> a <= 1)) /\
    (forall p, In p ls -> exists r a, In r games /\ In (p, a) r /\ 1 < a) /\
    ((forall r k a, In r games -> In (k, a) r -> 0 <= a) ->
     forall p, In p ws ->
       exists r a v b, In r games /\ In (p, a) r /\ In (v, b) r /\ a < b).
Proof.
  intros games ws ls Hc. destruct (check_games_lists games ws ls Hc) as [Hws Hls].
  split; [|split].
  - intros p Hp. apply Hws in Hp as [_ [Hl Hin]]. split.
    + destruct (in_dec pykey_eq_dec p (flat_map keys games)) as [H|H]; [exact H|].
      apply outsider_has_no_entry, dict_get_None in H. contradiction.
    + intros r a Hr Ha. destruct (Z_le_gt_dec a 1) as [H|H]; [exact H|].
      rewrite (loss_in_corpus games r p a) in Hl by (auto; lia). discriminate Hl.
  - intros p Hp. apply Hls in Hp as [_ [Hl _]]. now apply scan_games_loss_origin.
  - intros Hpos p Hp. apply Hws in Hp as [Hw _]. now apply scan_games_win_origin.
Qed.

(** X15 on the corpus of one game, A before B: A is reported without a loss,
    B without a win. *)
Lemma validator_lists_are_sound_witness :
  check_games one_game = Ok (Lists [KStr "A"] [KStr "B"]) /\
  exists r a, In r one_game /\ In (KStr "B", a) r /\ 1 < a.
Proof.
  split; [reflexivity|].
  apply (proj1 (proj2 (validator_lists_are_sound
                         one_game [KStr "A"] [KStr "B"] eq_refl))).
  now left.
Defined.

(** X16: a player who is at a position worse than 1 in some game and, the
    positions being non-negative, is never at a better position than
    another participant of a game, is returned in the second list ("has no
    win") and not in the first. *)
Theorem validator_reports_a_player_without_a_win :
  forall games p r a,
    (forall r' k a', In r' games -> In (k, a') r' -> 0 <= a') ->
    In r games -> In (p, a) r -> 1 < a ->
    (forall r' a' v b, In r' games -> In (p, a') r' -> In (v, b) r' -> b <= a') ->
    exists ws ls,
      check_games games = Ok (Lists ws ls) /\ In p ls /\ ~ In p ws.
Proof.
  intros games p r a Hpos Hr Hin Ha Hnever.
  pose proof (loss_in_corpus games r p a Hr Hin Ha) as Hl.
  assert (Hw : win_flag (scan_games games) p = 1).
  { destruct (scan_games_ok games) as [_ Hok]. unfold win_flag.
    destruct (dict_get p (scan_games games)) as [wl|] eqn:Hg; [|reflexivity].
    destruct (Hok p wl Hg) as [-> | [-> | ->]]; [| |reflexivity]; exfalso;
      (assert (H0 : win_flag (scan_games games) p = 0)
         by (unfold win_flag; now rewrite Hg));
      apply (scan_games_win_origin games p Hpos) in H0
        as [r' [a' [v [b [Hr' [Hp' [Hv Hab]]]]]]];
      specialize (Hnever r' a' v b Hr' Hp' Hv); lia. }
  assert (Hkey : In p (keys (scan_games games))).
  { destruct (in_dec pykey_eq_dec p (keys (scan_games games))) as [H|H]; [exact H|].
    apply dict_get_None in H. unfold loss_flag in Hl. rewrite H in Hl. discriminate Hl. }
  assert (Hentry : In (p, (1, 0)) (scan_games games)).
  { unfold win_flag in Hw. unfold loss_flag in Hl.
    destruct (dict_get p (scan_games games)) as [[w l]|] eqn:Hg;
      [|apply dict_get_None in Hg; contradiction].
    simpl in Hw, Hl. subst w l. now apply dict_get_In. }
  destruct (check_games_cases games) as [[Hz _]|[_ E]].
  - exfalso. revert Hz Hentry.
    destruct (scan_games_ok games) as [Hnd Hok].
    pose proof (pc_ok_entries _ (conj Hnd Hok)) as Hall. clear - Hall.
    unfold missing_wl.
    assert (G : forall l acc,
      (forall u wl, In (u, wl) l -> entry_ok wl) ->
      acc <= fold_left Z.add (map (fun e : pykey * flags => fst (snd e) + snd (snd e)) l) acc
      /\ (In (p, (1, 0)) l ->
          acc < fold_left Z.add (map (fun e : pykey * flags => fst (snd e) + snd (snd e)) l) acc)).
    { induction l as [|[u wl] l IH]; intros acc Hl; simpl; [split; [lia | tauto]|].
      assert (Hrest : forall u' wl', In (u', wl') l -> entry_ok wl')
        by (intros; eapply Hl; right; eauto).
      destruct (IH (acc + (fst wl + snd wl)) Hrest) as [Hle Hlt].
      assert (Hwl : 0 <= fst wl + snd wl)
        by (destruct (Hl u wl (or_introl eq_refl)) as [-> | [-> | ->]]; simpl; lia).
      split; [lia|]. intros [[= -> ->]|Hin]; [simpl in *; lia|].
      specialize (Hlt Hin). lia. }
    intros Hz Hentry. destruct (G (scan_games games) 0 Hall) as [_ Hlt].
    specialize (Hlt Hentry). unfold flags in Hlt. lia.
  - exists (keys (filter no_loss_entry (scan_games games))),
           (keys (filter no_win_entry (scan_games games))).
    split; [exact E|].
    destruct (check_games_lists games _ _ E) as [Hws Hls]. split.
    + apply Hls. auto.
    + intro H. apply Hws in H as [H0 _]. congruence.
Qed.

(** X16 on the corpus of one game, A before B: B is reported without a win. *)
Lemma validator_reports_a_player_without_a_win_witness :
  exists ws ls,
    check_games one_game = Ok (Lists ws ls) /\ In (KStr "B") ls /\ ~ In (KStr "B") ws.
Proof.
  apply (validator_reports_a_player_without_a_win
           one_game (KStr "B") [(KStr "A", 1); (KStr "B", 2)] 2).
  - intros r' k a' [<-|[]] [E|[E|[]]]; injection E as _ <-; lia.
  - now left.
  - right. now left.
  - lia.
  - intros r' a' v b [<-|[]] [E|[E|[]]] [E'|[E'|[]]];
      try discriminate E; injection E as <-; injection E' as _ <-; lia.
Defined.

(** X17: a corpus in which every position is 1 (games of one player, games
    where all are tied first) passes the check: nothing is recorded, nothing
    is printed and [(None, None)] is returned, though no player has a loss. *)
Theorem validator_accepts_a_corpus_of_first_places :
  forall games,
    (forall r k a, In r games -> In (k, a) r -> a = 1) ->
    scan_games games = [] /\ check_games_run games = Ok (NoneNone, []).
Proof.
  intros games Hone.
  assert (Hgame : forall g, (forall k a, In (k, a) g -> a = 1) ->
            forall s, max_rank s = 0 \/ max_rank s = 1 ->
                      max_user s = None \/ max_rank s = 1 ->
                      pc (fold_left visit g s) = pc s).
  { induction g as [|[k a] g IH]; intros Hg s Hs Hu; simpl; [reflexivity|].
    assert (Ha : a = 1) by (apply (Hg k); now left). subst a.
    rewrite IH.
    - unfold visit. simpl. destruct Hs as [Hs|Hs]; rewrite Hs; simpl; [|reflexivity].
      destruct Hu as [Hu|Hu]; [now rewrite Hu | lia].
    - intros k' a' Hin. apply (Hg k'). now right.
    - rewrite visit_max_rank. lia.
    - right. rewrite visit_max_rank. lia. }
  assert (Hscan : scan_games games = []).
  { unfold scan_games.
    assert (G : forall pc0,
      fold_left (fun pc1 game => pc (scan_game pc1 game)) games pc0 = pc0).
    { induction games as [|g games IH]; intro pc0; simpl; [reflexivity|].
      rewrite IH by (intros r k a Hr; apply Hone; now right).
      unfold scan_game. rewrite Hgame; simpl; auto.
      intros k a Hin. apply (Hone g k); [now left | exact Hin]. }
    apply G. }
  split; [exact Hscan|]. unfold check_games_run. rewrite Hscan. reflexivity.
Qed.

(** X17 on two games: a player alone, two players tied first. *)
Lemma validator_accepts_a_corpus_of_first_places_witness :
  check_games_run [[(KStr "A", 1)]; tied_pair] = Ok (NoneNone, []).
Proof.
  apply (validator_accepts_a_corpus_of_first_places [[(KStr "A", 1)]; tied_pair]).
  intros r k a [<-|[<-|[]]] Hin; simpl in Hin;
    repeat (destruct Hin as [Hin|Hin]; [now injection Hin|]); destruct Hin.
Defined.

(** ** [normalize_ratings]: when it raises *)

Section Binary64Failure.
Import PrimFloat.

(** X18: [normalize_ratings] raises [ZeroDivisionError] exactly on a
    non-empty list whose values, added from left to right in doubles, give
    [0.0] or [-0.0]; it raises nothing else, and returns the empty list as it
    is. The sum that counts is the rounded one: on [absorbed] (exact sum 1)
    it raises, on [absorbed_then_one] (exact sum 0) it does not. *)
Theorem normalize_ratings_raises_on_zero_float_sum :
  forall ratings : list (pykey * float),
    (Binary64.normalize_ratings ratings = Raise ZeroDivisionError <->
     ratings <> [] /\ (Binary64.pysum (map snd ratings) =? 0)%float = true) /\
    (forall e, Binary64.normalize_ratings ratings = Raise e -> e = ZeroDivisionError) /\
    Binary64.normalize_ratings [] = Ok [] /\
    Binary64.normalize_ratings Binary64.absorbed = Raise ZeroDivisionError /\
    (exists out, Binary64.normalize_ratings Binary64.absorbed_then_one = Ok out).
Proof.
  intro ratings.
  assert (Hcases :
    (ratings <> [] /\ (Binary64.pysum (map snd ratings) =? 0)%float = true /\
     Binary64.normalize_ratings ratings = Raise ZeroDivisionError) \/
    ((ratings = [] \/ (Binary64.pysum (map snd ratings) =? 0)%float = false) /\
     exists out, Binary64.normalize_ratings ratings = Ok out)).
  { destruct (Binary64.pysum (map snd ratings) =? 0)%float eqn:E.
    - destruct ratings as [|pv l].
      + right. split; [now left | now exists []].
      + left. split; [discriminate|]. split; [reflexivity|].
        apply b64_normalize_Raise; [discriminate | exact E].
    - right. split; [now right|]. rewrite (b64_normalize_Ok _ E). eauto. }
  split; [|split; [|split; [|split]]].
  - destruct Hcases as [[Hne [Hz Hr]]|[Hor [out Ho]]].
    + split; auto.
    + rewrite Ho. split; [discriminate|]. intros [Hne Hz].
      destruct Hor as [Hnil|Hnz]; congruence.
  - intros e He. destruct Hcases as [[_ [_ Hr]]|[_ [out Ho]]]; congruence.
  - reflexivity.
  - apply b64_normalize_Raise; [discriminate | reflexivity].
  - rewrite b64_normalize_Ok by reflexivity. eauto.
Qed.
End Binary64Failure.
